(** * Sliding-sync proxy: poller gate, global cache, sessions, responses

    A shallow embedding of the Go sources, one module per Go package, with
    the properties of the specification proved over it. *)

From stdpp Require Import gmap strings list fin_maps sorting.

#[local] Set Warnings "-clear-no-such-hyp".

(** A Go call either returns or panics. *)
Inductive outcome (A : Type) : Type :=
  | Done (a : A)
  | Panic (msg : string).
Arguments Done {A} a.
Arguments Panic {A} msg.

Definition obind {A B} (x : outcome A) (k : A → outcome B) : outcome B :=
  match x with
  | Done a => k a
  | Panic m => Panic m
  end.

(** ** Package handler: the poller-ready gate (EnsurePoller) *)
Module Handler.

(** sync2.PollerID *)
Record PollerID := mkPollerID { UserID : string; DeviceID : string }.

#[global] Instance PollerID_eq_dec : EqDecision PollerID.
Proof. solve_decision. Defined.

#[global] Instance PollerID_countable : Countable PollerID.
Proof.
  refine (inj_countable' (λ p, (UserID p, DeviceID p))
                         (λ t, mkPollerID t.1 t.2) _).
  by intros [].
Defined.

(** pubsub.V3EnsurePolling *)
Record V3EnsurePolling := mkV3EnsurePolling {
  V3UserID : string;
  V3DeviceID : string;
  AccessTokenHash : string
}.

(** pubsub.V2InitialSyncComplete and pubsub.V2ExpiredToken carry the same
    two fields. *)
Record V2InitialSyncComplete := mkV2InitialSyncComplete {
  iscUserID : string; iscDeviceID : string }.
Record V2ExpiredToken := mkV2ExpiredToken {
  etUserID : string; etDeviceID : string }.

(** A [chan struct{}] is the number [make] gave it; [None] is the nil
    channel. *)
Definition chan := nat.

Record pendingInfo := mkPendingInfo {
  done : bool;
  ch : option chan
}.

(** The gate.  [pendingPolls] is the Go map; [notifier] is the list of
    payloads sent with Notify on [chanName], oldest first; [made] counts the
    channels made so far and [closed] lists the channels closed so far, in
    the order of the [close] calls.  The mutex makes every critical section
    atomic, so a call is one transition of this record. *)
Record EnsurePoller := mkEnsurePoller {
  pendingPolls : gmap PollerID pendingInfo;
  notifier : list V3EnsurePolling;
  made : nat;
  closed : list chan
}.

Definition NewEnsurePoller : EnsurePoller :=
  {| pendingPolls := ∅; notifier := []; made := 0; closed := [] |}.

(** [p.pendingPolls[pid]]: the zero value when the key is missing. *)
Definition zeroPendingInfo : pendingInfo := {| done := false; ch := None |}.
Definition index_pendingPolls (p : EnsurePoller) (pid : PollerID) : pendingInfo :=
  default zeroPendingInfo (pendingPolls p !! pid).

(** [close(c)]: closing the nil channel or a closed channel panics. *)
Definition close (c : option chan) (p : EnsurePoller) : outcome EnsurePoller :=
  match c with
  | None => Panic "close of nil channel"
  | Some c =>
      if decide (c ∈ closed p) then Panic "close of closed channel"
      else Done {| pendingPolls := pendingPolls p; notifier := notifier p;
                   made := made p; closed := closed p ++ [c] |}
  end.

(** EnsurePolling: the gate after the call, and the channel the caller then
    receives on ([None] when the call returns without waiting).  The Notify
    that follows the critical section is recorded in [notifier]. *)
Definition EnsurePolling (pid : PollerID) (tokenHash : string)
    (p : EnsurePoller) : EnsurePoller * option chan :=
  if done (index_pendingPolls p pid) then (p, None)
  else
    match ch (index_pendingPolls p pid) with
    | Some c => (p, Some c)
    | None =>
        let c := made p in
        ({| pendingPolls :=
              <[pid := {| done := false; ch := Some c |}]> (pendingPolls p);
            notifier := notifier p ++
              [ {| V3UserID := UserID pid; V3DeviceID := DeviceID pid;
                   AccessTokenHash := tokenHash |} ];
            made := S (made p);
            closed := closed p |},
         Some c)
    end.

Definition set_pendingPolls (m : gmap PollerID pendingInfo)
    (p : EnsurePoller) : EnsurePoller :=
  {| pendingPolls := m; notifier := notifier p; made := made p;
     closed := closed p |}.

Definition OnInitialSyncComplete (payload : V2InitialSyncComplete)
    (p : EnsurePoller) : outcome EnsurePoller :=
  let pid := {| UserID := iscUserID payload; DeviceID := iscDeviceID payload |} in
  match pendingPolls p !! pid with
  | None =>
      Done (set_pendingPolls
              (<[pid := {| done := true; ch := None |}]> (pendingPolls p)) p)
  | Some pending =>
      if done pending then Done p
      else
        let c := ch pending in
        close c (set_pendingPolls
                   (<[pid := {| done := true; ch := None |}]> (pendingPolls p)) p)
  end.

Definition OnExpiredToken (payload : V2ExpiredToken)
    (p : EnsurePoller) : outcome EnsurePoller :=
  let pid := {| UserID := etUserID payload; DeviceID := etDeviceID payload |} in
  match pendingPolls p !! pid with
  | None => Done p
  | Some pending =>
      obind (match ch pending with
             | Some c => close (Some c) p
             | None => Done p
             end)
            (λ p', Done (set_pendingPolls (delete pid (pendingPolls p')) p'))
  end.

(** The calls the gate receives, and a run of a sequence of them. *)
Inductive call :=
  | CallEnsurePolling (pid : PollerID) (tokenHash : string)
  | CallOnInitialSyncComplete (payload : V2InitialSyncComplete)
  | CallOnExpiredToken (payload : V2ExpiredToken).

Definition step (c : call) (p : EnsurePoller) : outcome EnsurePoller :=
  match c with
  | CallEnsurePolling pid tokenHash => Done (EnsurePolling pid tokenHash p).1
  | CallOnInitialSyncComplete payload => OnInitialSyncComplete payload p
  | CallOnExpiredToken payload => OnExpiredToken payload p
  end.

Fixpoint run (cs : list call) (p : EnsurePoller) : outcome EnsurePoller :=
  match cs with
  | [] => Done p
  | c :: cs => obind (step c p) (run cs)
  end.

(** Payloads published for one device, and expiries received for it. *)
Definition is_for (pid : PollerID) (m : V3EnsurePolling) : bool :=
  bool_decide (V3UserID m = UserID pid ∧ V3DeviceID m = DeviceID pid).

Definition published_for (pid : PollerID) (p : EnsurePoller) : nat :=
  length (filter (λ m, is_for pid m = true) (notifier p)).

Definition expires (pid : PollerID) (c : call) : bool :=
  match c with
  | CallOnExpiredToken payload =>
      bool_decide (etUserID payload = UserID pid ∧ etDeviceID payload = DeviceID pid)
  | _ => false
  end.

Definition expired_for (pid : PollerID) (cs : list call) : nat :=
  length (filter (λ c, expires pid c = true) cs).

(** 1 when the gate has no slot for [pid], 0 when it has one. *)
Definition slot_free (pid : PollerID) (p : EnsurePoller) : nat :=
  match pendingPolls p !! pid with Some _ => 0 | None => 1 end.

(** *** The gate invariant *)

Record gate_inv (p : EnsurePoller) : Prop := {
  inv_slot : ∀ pid pi, pendingPolls p !! pid = Some pi →
      (done pi = true ∧ ch pi = None) ∨
      (done pi = false ∧ ∃ c, ch pi = Some c ∧ c < made p ∧ c ∉ closed p);
  inv_inj : ∀ pid1 pid2 pi1 pi2 c,
      pendingPolls p !! pid1 = Some pi1 → pendingPolls p !! pid2 = Some pi2 →
      ch pi1 = Some c → ch pi2 = Some c → pid1 = pid2;
  inv_closed_nodup : NoDup (closed p);
  inv_closed_made : ∀ c, c ∈ closed p → c < made p
}.

End Handler.

(** A Go [error]: [None] is nil, [Some msg] an error with that text. *)
Definition error := option string.

(** ** Package sqlutil: WithTransaction *)
Module Sqlutil.

(** What the database driver answers to Beginx, Commit and Rollback. *)
Record driver := mkDriver {
  begin_err : error;
  commit_err : error;
  rollback_err : error
}.

(** The calls made on the database handle and on the transaction. *)
Inductive txop := Beginx | Commit | Rollback.

(** How a call of the callback [fn] ends: it returns an error value or it
    panics with a value.  A panic value is never nil (since Go 1.21 a
    [panic(nil)] reaches [recover] as a non-nil runtime error). *)
Inductive returned :=
  | Returns (err : error)
  | Panics (v : string).

(** The frame of a function that runs its deferred calls: the named result
    [err] and the panic in flight, if any. *)
Record frame := mkFrame {
  err : error;
  panicking : option string
}.

(** [recover()] gives the value of the panic in flight and stops it. *)
Definition recover (f : frame) : option string * frame :=
  (panicking f, {| err := err f; panicking := None |}).

Definition set_err (e : error) (f : frame) : frame :=
  {| err := e; panicking := panicking f |}.

(** What a call of WithTransaction leaves behind: the database as
    committed, the variables captured by the callback, and the calls made
    on the handle and the transaction. *)
Record effects (S E : Type) := mkEffects {
  db_after : S;
  env_after : E;
  ops : list txop
}.
Arguments mkEffects {S E}.
Arguments db_after {S E}.
Arguments env_after {S E}.
Arguments ops {S E}.

Section WithTransaction.
Context {S E : Type}.

(** The callback works on the transaction's view of the database [S], which
    starts as the committed database, and on the variables [E] it captures;
    a write to a captured variable is not undone by a rollback. *)
Definition callback := E → S → returned * E * S.

(** The deferred function.  [work] is the transaction's view when the body
    ended.  The logging and the report to Sentry leave no trace here. *)
Definition deferred (drv : driver) (db work : S) (f : frame)
    : frame * S * txop :=
  let '(panicErr, f) := recover f in
  let f :=
    match err f, panicErr with
    | None, Some v => set_err (Some ("panic: " +:+ v)) f
    | _, _ => f
    end in
  let '(txnErr, db', op) :=
    match err f with
    | Some _ => (rollback_err drv, db, Rollback)
    | None =>
        (commit_err drv,
         match commit_err drv with None => work | Some _ => db end,
         Commit)
    end in
  let f :=
    match txnErr, err f with
    | Some te, None =>
        set_err (Some ("WithTransaction failed to commit/rollback: " +:+ te)) f
    | _, _ => f
    end in
  (f, db', op).

(** A function ends by returning its named result, unless a panic is still
    in flight. *)
Definition finish {A} (f : frame) (a : error → A) : outcome A :=
  match panicking f with
  | Some v => Panic v
  | None => Done (a (err f))
  end.

Definition WithTransaction (drv : driver) (db : S) (env : E) (fn : callback)
    : outcome (error * effects S E) :=
  match begin_err drv with
  | Some e =>
      Done (Some ("WithTransaction.Begin: " +:+ e),
            {| db_after := db; env_after := env; ops := [Beginx] |})
  | None =>
      let '(r, env', work) := fn env db in
      (* [err = fn(txn)]: the assignment happens only if fn returns *)
      let f :=
        match r with
        | Returns e => {| err := e; panicking := None |}
        | Panics v => {| err := None; panicking := Some v |}
        end in
      let '(f, db', op) := deferred drv db work f in
      finish f (λ e, (e, {| db_after := db'; env_after := env';
                            ops := [Beginx; op] |}))
  end.

End WithTransaction.
End Sqlutil.

(** ** Package store: Sessions *)
Module Store.
Import Sqlutil.

(** A row of syncv3_sessions. *)
Record session_row := mkSessionRow {
  session_id : Z;
  row_device_id : string;
  last_confirmed_token : string;
  last_unconfirmed_token : string
}.

(** A row of syncv3_sessions_v2devices, without its primary key
    [device_id], which is the key of the map below. *)
Record device_row := mkDeviceRow {
  user_id : string;
  since : string
}.

(** The tables NewSession touches.  [session_id_seq] is the value the next
    [nextval] gives.  (A rollback takes the sequence back with the rest of
    this record; PostgreSQL keeps it.) *)
Record tables := mkTables {
  syncv3_sessions : list session_row;
  syncv3_sessions_v2devices : gmap string device_row;
  syncv3_session_id_seq : Z
}.

(** sync3.Session, with the fields this file sets. *)
Record Session := mkSession {
  ID : Z;
  DeviceID : string;
  V2Since : string;
  UserID : string
}.

(** Which statements of NewSession the database fails. *)
Record faults := mkFaults {
  insert_session_err : error;
  insert_device_err : error;
  rows_affected_err : error;
  select_device_err : error
}.

(** [INSERT INTO syncv3_sessions(...) VALUES($1, '', '') RETURNING session_id] *)
Definition insert_session (deviceID : string) (t : tables) : Z * tables :=
  let id := syncv3_session_id_seq t in
  (id,
   {| syncv3_sessions := syncv3_sessions t ++
        [ {| session_id := id; row_device_id := deviceID;
             last_confirmed_token := ""; last_unconfirmed_token := "" |} ];
      syncv3_sessions_v2devices := syncv3_sessions_v2devices t;
      syncv3_session_id_seq := (id + 1)%Z |}).

(** [INSERT INTO syncv3_sessions_v2devices(device_id, since, user_id)
     VALUES($1,$2,$3) ON CONFLICT (device_id) DO NOTHING]: the number of rows
    affected and the tables. *)
Definition insert_device (deviceID since userID : string) (t : tables)
    : Z * tables :=
  match syncv3_sessions_v2devices t !! deviceID with
  | Some _ => (0%Z, t)
  | None =>
      (1%Z,
       {| syncv3_sessions := syncv3_sessions t;
          syncv3_sessions_v2devices :=
            <[deviceID := {| user_id := userID; since := since |}]>
              (syncv3_sessions_v2devices t);
          syncv3_session_id_seq := syncv3_session_id_seq t |})
  end.

(** [SELECT since, user_id FROM syncv3_sessions_v2devices WHERE device_id = $1]
    scanned into two strings: sql.ErrNoRows when there is no such row. *)
Definition select_device (deviceID : string) (t : tables)
    : error + device_row :=
  match syncv3_sessions_v2devices t !! deviceID with
  | Some r => inr r
  | None => inl (Some "sql: no rows in result set")
  end.

(** The callback NewSession passes to WithTransaction; the captured
    variable is [session], nil at first. *)
Definition NewSession_fn (flt : faults) (deviceID : string)
    : @callback tables (option Session) :=
  λ session txn,
    match insert_session_err flt with
    | Some e => (Returns (Some e), session, txn)
    | None =>
        let '(id, txn) := insert_session deviceID txn in
        match insert_device_err flt with
        | Some e => (Returns (Some e), session, txn)
        | None =>
            let '(ra, txn) := insert_device deviceID "" "" txn in
            if bool_decide (rows_affected_err flt = None ∧ ra = 1%Z) then
              (Returns None,
               Some {| ID := id; DeviceID := deviceID;
                       V2Since := ""; UserID := "" |},
               txn)
            else
              match select_device_err flt with
              | Some e => (Returns (Some e), session, txn)
              | None =>
                  match select_device deviceID txn with
                  | inl e => (Returns e, session, txn)
                  | inr r =>
                      (Returns None,
                       Some {| ID := id; DeviceID := deviceID;
                               V2Since := since r; UserID := user_id r |},
                       txn)
                  end
              end
        end
    end.

(** NewSession: the session pointer and error it returns, and the tables
    afterwards. *)
Definition NewSession (drv : driver) (flt : faults) (db : tables)
    (deviceID : string) : outcome (option Session * error * tables) :=
  obind (WithTransaction drv db None (NewSession_fn flt deviceID))
        (λ '(e, eff), Done (env_after eff, e, db_after eff)).

Definition no_faults (drv : driver) (flt : faults) : Prop :=
  begin_err drv = None ∧ commit_err drv = None ∧
  insert_session_err flt = None ∧ insert_device_err flt = None ∧
  select_device_err flt = None.

End Store.

(** ** JSON values, as gjson and encoding/json see them *)
Module Json.

(** A JSON value.  [JNum] is an integer literal; [JFrac] stands for a
    number literal that is not an integer, kept as its text.  An object
    keeps its members in the order of the text, duplicates included. *)
#[local] Set Warnings "-register-all".
Inductive json :=
  | JNull
  | JBool (b : bool)
  | JNum (n : Z)
  | JFrac (lit : string)
  | JStr (s : string)
  | JArr (xs : list json)
  | JObj (members : list (string * json)).

(** A json.RawMessage is taken as the value its bytes encode, and
    gjson.ParseBytes as the identity on it. *)
Definition RawMessage := json.

(** gjson.Result: [None] is the result that does not exist. *)
Definition Result := option json.

(** The first member of an object with the given name. *)
Fixpoint member (k : string) (ms : list (string * json)) : Result :=
  match ms with
  | [] => None
  | (k', v) :: ms => if decide (k' = k) then Some v else member k ms
  end.

(** [r.Get(path)] for a path of plain member names separated by dots, given
    as the list of its names: each name selects a member of an object, and
    nothing in any other value. *)
Fixpoint Get (path : list string) (r : Result) : Result :=
  match path with
  | [] => r
  | k :: path =>
      match r with
      | Some (JObj ms) => Get path (member k ms)
      | _ => None
      end
  end.

(** [r.Str]: the string of a string value, empty for anything else. *)
Definition Str (r : Result) : string :=
  match r with
  | Some (JStr s) => s
  | _ => ""
  end.

Definition Exists (r : Result) : bool :=
  match r with Some _ => true | None => false end.

Definition IsArray (r : Result) : bool :=
  match r with Some (JArr _) => true | _ => false end.

(** [r.Type == gjson.String] *)
Definition IsString (r : Result) : bool :=
  match r with Some (JStr _) => true | _ => false end.

End Json.

(** ** Package caches: the global room-metadata cache *)
Module Caches.
Import Json.

(** internal.Hero *)
Record Hero := mkHero {
  ID : string;
  Name : string
}.

(** Modelled from the spec: the declaration of internal.RoomMetadata is not
    among the sources.  The fields are the ones the spec lists for
    RoomMetadata, under the names and with the types the code uses them at:
    a [*string] is an [option string], the child-space set of room ids (a
    [map[string]struct{}]) is an [option (gset string)] with [None] for the
    nil map (which reads as the empty set, and which cannot be written to),
    a raw message that may be nil is an [option RawMessage], and the uint64
    timestamp is an [N]. *)
Record RoomMetadata := mkRoomMetadata {
  RoomID : string;
  Heroes : list Hero;
  NameEvent : string;
  CanonicalAlias : string;
  JoinCount : Z;
  InviteCount : Z;
  LastMessageTimestamp : N;
  Encrypted : bool;
  PredecessorRoomID : option string;
  UpgradedRoomID : option string;
  RoomType : option string;
  ChildSpaceRooms : option (gset string);
  TypingEvent : option RawMessage
}.

(** The zero value of the struct: its map is nil. *)
Definition zeroRoomMetadata : RoomMetadata :=
  {| RoomID := ""; Heroes := []; NameEvent := ""; CanonicalAlias := "";
     JoinCount := 0; InviteCount := 0; LastMessageTimestamp := 0;
     Encrypted := false; PredecessorRoomID := None; UpgradedRoomID := None;
     RoomType := None; ChildSpaceRooms := None; TypingEvent := None |}.

(** Assignments to one field. *)
Definition set_RoomID (v : string) (m : RoomMetadata) : RoomMetadata :=
  mkRoomMetadata v (Heroes m) (NameEvent m) (CanonicalAlias m) (JoinCount m)
    (InviteCount m) (LastMessageTimestamp m) (Encrypted m)
    (PredecessorRoomID m) (UpgradedRoomID m) (RoomType m) (ChildSpaceRooms m)
    (TypingEvent m).
Definition set_Heroes (v : list Hero) (m : RoomMetadata) : RoomMetadata :=
  mkRoomMetadata (RoomID m) v (NameEvent m) (CanonicalAlias m) (JoinCount m)
    (InviteCount m) (LastMessageTimestamp m) (Encrypted m)
    (PredecessorRoomID m) (UpgradedRoomID m) (RoomType m) (ChildSpaceRooms m)
    (TypingEvent m).
Definition set_NameEvent (v : string) (m : RoomMetadata) : RoomMetadata :=
  mkRoomMetadata (RoomID m) (Heroes m) v (CanonicalAlias m) (JoinCount m)
    (InviteCount m) (LastMessageTimestamp m) (Encrypted m)
    (PredecessorRoomID m) (UpgradedRoomID m) (RoomType m) (ChildSpaceRooms m)
    (TypingEvent m).
Definition set_CanonicalAlias (v : string) (m : RoomMetadata) : RoomMetadata :=
  mkRoomMetadata (RoomID m) (Heroes m) (NameEvent m) v (JoinCount m)
    (InviteCount m) (LastMessageTimestamp m) (Encrypted m)
    (PredecessorRoomID m) (UpgradedRoomID m) (RoomType m) (ChildSpaceRooms m)
    (TypingEvent m).
Definition set_Counts (j i : Z) (m : RoomMetadata) : RoomMetadata :=
  mkRoomMetadata (RoomID m) (Heroes m) (NameEvent m) (CanonicalAlias m) j i
    (LastMessageTimestamp m) (Encrypted m)
    (PredecessorRoomID m) (UpgradedRoomID m) (RoomType m) (ChildSpaceRooms m)
    (TypingEvent m).
Definition set_LastMessageTimestamp (v : N) (m : RoomMetadata) : RoomMetadata :=
  mkRoomMetadata (RoomID m) (Heroes m) (NameEvent m) (CanonicalAlias m)
    (JoinCount m) (InviteCount m) v (Encrypted m)
    (PredecessorRoomID m) (UpgradedRoomID m) (RoomType m) (ChildSpaceRooms m)
    (TypingEvent m).
Definition set_Encrypted (v : bool) (m : RoomMetadata) : RoomMetadata :=
  mkRoomMetadata (RoomID m) (Heroes m) (NameEvent m) (CanonicalAlias m)
    (JoinCount m) (InviteCount m) (LastMessageTimestamp m) v
    (PredecessorRoomID m) (UpgradedRoomID m) (RoomType m) (ChildSpaceRooms m)
    (TypingEvent m).
Definition set_PredecessorRoomID (v : option string) (m : RoomMetadata)
    : RoomMetadata :=
  mkRoomMetadata (RoomID m) (Heroes m) (NameEvent m) (CanonicalAlias m)
    (JoinCount m) (InviteCount m) (LastMessageTimestamp m) (Encrypted m)
    v (UpgradedRoomID m) (RoomType m) (ChildSpaceRooms m) (TypingEvent m).
Definition set_UpgradedRoomID (v : option string) (m : RoomMetadata)
    : RoomMetadata :=
  mkRoomMetadata (RoomID m) (Heroes m) (NameEvent m) (CanonicalAlias m)
    (JoinCount m) (InviteCount m) (LastMessageTimestamp m) (Encrypted m)
    (PredecessorRoomID m) v (RoomType m) (ChildSpaceRooms m) (TypingEvent m).
Definition set_RoomType (v : option string) (m : RoomMetadata) : RoomMetadata :=
  mkRoomMetadata (RoomID m) (Heroes m) (NameEvent m) (CanonicalAlias m)
    (JoinCount m) (InviteCount m) (LastMessageTimestamp m) (Encrypted m)
    (PredecessorRoomID m) (UpgradedRoomID m) v (ChildSpaceRooms m)
    (TypingEvent m).
Definition set_ChildSpaceRooms (v : option (gset string)) (m : RoomMetadata)
    : RoomMetadata :=
  mkRoomMetadata (RoomID m) (Heroes m) (NameEvent m) (CanonicalAlias m)
    (JoinCount m) (InviteCount m) (LastMessageTimestamp m) (Encrypted m)
    (PredecessorRoomID m) (UpgradedRoomID m) (RoomType m) v (TypingEvent m).
Definition set_TypingEvent (v : option RawMessage) (m : RoomMetadata)
    : RoomMetadata :=
  mkRoomMetadata (RoomID m) (Heroes m) (NameEvent m) (CanonicalAlias m)
    (JoinCount m) (InviteCount m) (LastMessageTimestamp m) (Encrypted m)
    (PredecessorRoomID m) (UpgradedRoomID m) (RoomType m) (ChildSpaceRooms m) v.

(** [&internal.RoomMetadata{RoomID: roomID, ChildSpaceRooms: make(...)}]:
    the map is made, and empty. *)
Definition newRoomMetadata (roomID : string) : RoomMetadata :=
  set_ChildSpaceRooms (Some ∅) (set_RoomID roomID zeroRoomMetadata).

Record EventData := mkEventData {
  Event : RawMessage;
  edRoomID : string;
  EventType : string;
  StateKey : option string;
  Content : Result;
  Timestamp : N;
  Sender : string;
  edJoinCount : Z;
  edInviteCount : Z;
  LatestPos : Z;
  ForceInitial : bool
}.

(** The cache.  A pointer stored in [roomIDToMetadata] is held by that
    entry alone, so the map holds the structs themselves.  [has_store] says
    whether the pointer [store] is set (it may be nil: LoadRoomState tests
    for it).  Of the store only the calls of InvitesTable.RemoveInvite
    (user, room) are kept, oldest first; an error of that call is logged and
    changes nothing. *)
Record GlobalCache := mkGlobalCache {
  roomIDToMetadata : gmap string RoomMetadata;
  has_store : bool;
  RemoveInvite_calls : list (string * string)
}.

(** [NewGlobalCache(store)]; [store] says whether the pointer given is set. *)
Definition NewGlobalCache (store : bool) : GlobalCache :=
  {| roomIDToMetadata := ∅; has_store := store; RemoveInvite_calls := [] |}.

(** The two run-time panics of the listener functions. *)
Definition nil_map_write : string := "assignment to entry in nil map".
Definition nil_dereference : string :=
  "invalid memory address or nil pointer dereference".

(** Modelled from the spec: internal.Assert is not among the sources.  The
    spec calls the two conditions of Startup an asserted precondition: an
    assertion whose expression is false fails, and the failure ends the
    call. *)
Definition Assert (msg : string) (expr : bool) : outcome unit :=
  if expr then Done tt else Panic ("assertion failed: " +:+ msg).

(** [sort.Strings]: ascending, byte by byte. *)
Definition string_le (a b : string) : Prop := String.leb a b = true.
#[global] Instance string_le_dec a b : Decision (string_le a b).
Proof. unfold string_le. apply _. Defined.
Definition sort_Strings (l : list string) : list string :=
  merge_sort string_le l.

(** [roomIDToMetadata[roomID]] on the argument of Startup. *)
Definition index_metadata (m : gmap string RoomMetadata) (roomID : string)
    : RoomMetadata :=
  default zeroRoomMetadata (m !! roomID).

(** The loop of Startup over the sorted room ids. *)
Fixpoint Startup_loop (input : gmap string RoomMetadata)
    (roomIDs : list string) (cache : gmap string RoomMetadata)
    : outcome (gmap string RoomMetadata) :=
  match roomIDs with
  | [] => Done cache
  | roomID :: roomIDs =>
      let metadata := index_metadata input roomID in
      obind (Assert "room ID is set"
               (negb (String.eqb (RoomID metadata) ""))) (λ _,
      obind (Assert "last message timestamp exists"
               (1 <? LastMessageTimestamp metadata)%N) (λ _,
      Startup_loop input roomIDs (<[roomID := metadata]> cache)))
  end.

Definition Startup (input : gmap string RoomMetadata) (c : GlobalCache)
    : outcome (error * GlobalCache) :=
  let roomIDs := sort_Strings (map_to_list input).*1 in
  obind (Startup_loop input roomIDs (roomIDToMetadata c)) (λ cache,
  Done (None, {| roomIDToMetadata := cache; has_store := has_store c;
                 RemoveInvite_calls := RemoveInvite_calls c |})).

(** The metadata an event or an ephemeral event works on: the entry of the
    room, or a fresh one when the room has none. *)
Definition metadata_of (c : GlobalCache) (roomID : string) : RoomMetadata :=
  match roomIDToMetadata c !! roomID with
  | Some metadata => metadata
  | None => newRoomMetadata roomID
  end.

Definition OnEphemeralEvent (roomID : string) (ephEvent : RawMessage)
    (c : GlobalCache) : GlobalCache :=
  let evType := Str (Get ["type"] (Some ephEvent)) in
  let metadata := metadata_of c roomID in
  let metadata :=
    if decide (evType = "m.typing")
    then set_TypingEvent (Some ephEvent) metadata
    else metadata in
  {| roomIDToMetadata := <[roomID := metadata]> (roomIDToMetadata c);
     has_store := has_store c;
     RemoveInvite_calls := RemoveInvite_calls c |}.

(** Modelled from the spec: internal.IsMembershipChange is not among the
    sources.  The spec has the member case act "on a membership change";
    the previous membership of an event is the one the code itself reads at
    [unsigned.prev_content.membership], so an event is a membership change
    when the membership in its content differs from that one. *)
Definition IsMembershipChange (eventJSON : Result) : bool :=
  negb (String.eqb
          (Str (Get ["content"; "membership"] eventJSON))
          (Str (Get ["unsigned"; "prev_content"; "membership"] eventJSON))).

(** Modelled from the spec: the method RemoveHero of internal.RoomMetadata
    is not among the sources.  The spec has it "remove the hero": no entry
    with that user id is left, the others keep their order. *)
Definition RemoveHero (userID : string) (m : RoomMetadata) : RoomMetadata :=
  set_Heroes (filter (λ h, ID h ≠ userID) (Heroes m)) m.

(** The loop that looks for an existing hero: the first entry with that id
    gets the new name; [None] when there is no such entry ([found] stays
    false). *)
Fixpoint rename_hero (userID name : string) (hs : list Hero)
    : option (list Hero) :=
  match hs with
  | [] => None
  | h :: hs =>
      if decide (ID h = userID)
      then Some ({| ID := ID h; Name := name |} :: hs)
      else (h ::.) <$> rename_hero userID name hs
  end.

(** [ed.StateKey != nil && *ed.StateKey == ""] *)
Definition is_empty_key (k : option string) : bool :=
  match k with
  | Some s => String.eqb s ""
  | None => false
  end.

(** The case "m.room.member" of the switch in OnNewEvent: the metadata and
    the invites removed.  [store] says whether [c.store] is set: the call
    [c.store.InvitesTable.RemoveInvite] dereferences it, and panics when it
    is nil.  A store that is set takes the call; what RemoveInvite does is
    not among the sources, and its error is only logged. *)
Definition on_member (store : bool) (ed : EventData) (metadata : RoomMetadata)
    : outcome (RoomMetadata * list (string * string)) :=
  match StateKey ed with
  | None => Done (metadata, [])
  | Some stateKey =>
      let membership := Str (Get ["membership"] (Content ed)) in
      let eventJSON : Result := Some (Event ed) in
      obind
        (if IsMembershipChange eventJSON then
           let metadata :=
             set_Counts (edJoinCount ed) (edInviteCount ed) metadata in
           let metadata :=
             if bool_decide (membership = "leave" ∨ membership = "ban")
             then RemoveHero stateKey metadata
             else metadata in
           if bool_decide
                (membership = "join" ∧
                 Str (Get ["unsigned"; "prev_content"; "membership"] eventJSON)
                   = "invite")
           then
             if store then Done (metadata, [(stateKey, edRoomID ed)])
             else Panic nil_dereference
           else Done (metadata, [])
         else Done (metadata, []))
        (λ '(metadata, removed),
           let metadata :=
             if bool_decide (length (Heroes metadata) < 6 ∧
                             (membership = "join" ∨ membership = "invite"))
             then
               let name := Str (Get ["displayname"] (Content ed)) in
               match rename_hero stateKey name (Heroes metadata) with
               | Some hs => set_Heroes hs metadata
               | None =>
                   set_Heroes
                     (Heroes metadata ++ [ {| ID := stateKey; Name := name |} ])
                     metadata
               end
             else metadata in
           Done (metadata, removed))
  end.

(** The case "m.space.child".  [delete] on a nil map does nothing; the
    assignment to an entry of a nil map panics. *)
Definition on_space_child (ed : EventData) (metadata : RoomMetadata)
    : outcome RoomMetadata :=
  match StateKey ed with
  | None => Done metadata
  | Some stateKey =>
      let isDeleted := negb (IsArray (Get ["via"] (Content ed))) in
      if isDeleted
      then Done (set_ChildSpaceRooms
                   ((λ rooms, rooms ∖ {[ stateKey ]}) <$> ChildSpaceRooms metadata)
                   metadata)
      else
        match ChildSpaceRooms metadata with
        | None => Panic nil_map_write
        | Some rooms =>
            Done (set_ChildSpaceRooms (Some ({[ stateKey ]} ∪ rooms)) metadata)
        end
  end.

(** The case "m.room.create". *)
Definition on_create (ed : EventData) (metadata : RoomMetadata)
    : RoomMetadata :=
  if is_empty_key (StateKey ed) then
    let roomType := Get ["type"] (Content ed) in
    let metadata :=
      if Exists roomType && IsString roomType
      then set_RoomType (Some (Str roomType)) metadata
      else metadata in
    let predecessorRoomID := Str (Get ["predecessor"; "room_id"] (Content ed)) in
    if String.eqb predecessorRoomID "" then metadata
    else set_PredecessorRoomID (Some predecessorRoomID) metadata
  else metadata.

(** The switch on the event type. *)
Definition on_event_type (store : bool) (ed : EventData)
    (metadata : RoomMetadata)
    : outcome (RoomMetadata * list (string * string)) :=
  if decide (EventType ed = "m.room.name") then
    Done (if is_empty_key (StateKey ed)
          then set_NameEvent (Str (Get ["name"] (Content ed))) metadata
          else metadata, [])
  else if decide (EventType ed = "m.room.encryption") then
    Done (if is_empty_key (StateKey ed) then set_Encrypted true metadata
          else metadata, [])
  else if decide (EventType ed = "m.room.tombstone") then
    Done (if is_empty_key (StateKey ed) then
            let newRoomID := Str (Get ["replacement_room"] (Content ed)) in
            if String.eqb newRoomID "" then set_UpgradedRoomID None metadata
            else set_UpgradedRoomID (Some newRoomID) metadata
          else metadata, [])
  else if decide (EventType ed = "m.room.canonical_alias") then
    Done (if is_empty_key (StateKey ed)
          then set_CanonicalAlias (Str (Get ["alias"] (Content ed))) metadata
          else metadata, [])
  else if decide (EventType ed = "m.room.create") then
    Done (on_create ed metadata, [])
  else if decide (EventType ed = "m.space.child") then
    obind (on_space_child ed metadata) (λ metadata, Done (metadata, []))
  else if decide (EventType ed = "m.room.member") then
    on_member store ed metadata
  else Done (metadata, []).

(** OnNewEvent, called with a pointer [ed] that is not nil.  A panic leaves
    the switch before the timestamp is set and the entry stored; [Panic]
    says no more than that the call panicked. *)
Definition OnNewEvent (ed : EventData) (c : GlobalCache)
    : outcome GlobalCache :=
  let metadata := metadata_of c (edRoomID ed) in
  obind (on_event_type (has_store c) ed metadata) (λ '(metadata, removed),
  let metadata := set_LastMessageTimestamp (Timestamp ed) metadata in
  Done {| roomIDToMetadata := <[edRoomID ed := metadata]> (roomIDToMetadata c);
          has_store := has_store c;
          RemoveInvite_calls := RemoveInvite_calls c ++ removed |}).

(** The cache after a sequence of events, oldest first; the first panic
    ends the sequence. *)
Fixpoint OnNewEvents (eds : list EventData) (c : GlobalCache)
    : outcome GlobalCache :=
  match eds with
  | [] => Done c
  | ed :: eds => obind (OnNewEvent ed c) (OnNewEvents eds)
  end.

(** The ids of the heroes of a room. *)
Definition hero_ids (m : RoomMetadata) : list string := ID <$> Heroes m.

(** Whether an event is the member event of user [u] in room [r]. *)
Definition member_event_of (r u : string) (ed : EventData) : bool :=
  bool_decide (edRoomID ed = r ∧ EventType ed = "m.room.member" ∧
               StateKey ed = Some u).

(** The latest member event of user [u] in room [r] in a sequence. *)
Definition latest_member_event (r u : string) (eds : list EventData)
    : option EventData :=
  last (filter (λ ed, member_event_of r u ed = true) eds).

Definition membership_of (ed : EventData) : string :=
  Str (Get ["membership"] (Content ed)).

Definition leave_or_ban (ed : EventData) : Prop :=
  membership_of ed = "leave" ∨ membership_of ed = "ban".

(** Two metadata that agree on every field but the typing event. *)
Definition same_but_typing (m m' : RoomMetadata) : Prop :=
  RoomID m' = RoomID m ∧ Heroes m' = Heroes m ∧ NameEvent m' = NameEvent m ∧
  CanonicalAlias m' = CanonicalAlias m ∧ JoinCount m' = JoinCount m ∧
  InviteCount m' = InviteCount m ∧
  LastMessageTimestamp m' = LastMessageTimestamp m ∧
  Encrypted m' = Encrypted m ∧ PredecessorRoomID m' = PredecessorRoomID m ∧
  UpgradedRoomID m' = UpgradedRoomID m ∧ RoomType m' = RoomType m ∧
  ChildSpaceRooms m' = ChildSpaceRooms m.


(** Every entry of the cache has a made child-space map. *)
Definition maps_made (c : GlobalCache) : Prop :=
  ∀ r m, roomIDToMetadata c !! r = Some m → is_Some (ChildSpaceRooms m).

(** An m.room.member event that records the change from invite to join. *)
Definition accepts_invite (ed : EventData) : Prop :=
  EventType ed = "m.room.member" ∧ is_Some (StateKey ed) ∧
  IsMembershipChange (Some (Event ed)) = true ∧
  Str (Get ["membership"] (Content ed)) = "join" ∧
  Str (Get ["unsigned"; "prev_content"; "membership"] (Some (Event ed)))
    = "invite".

(** An m.space.child event that adds its state key. *)
Definition adds_child (ed : EventData) : Prop :=
  EventType ed = "m.space.child" ∧ is_Some (StateKey ed) ∧
  IsArray (Get ["via"] (Content ed)) = true.

(** What Startup asserts of an entry. *)
Definition plausible (m : RoomMetadata) : Prop :=
  RoomID m ≠ "" ∧ (1 < LastMessageTimestamp m)%N.

(** Sample rooms: one with a timestamp in milliseconds, one whose timestamp
    is 1. *)
Definition room_a : RoomMetadata :=
  set_LastMessageTimestamp 1700000000000 (set_RoomID "!a:hs" zeroRoomMetadata).

Definition room_ts1 : RoomMetadata :=
  set_LastMessageTimestamp 1 (set_RoomID "!a:hs" zeroRoomMetadata).

(** The heroes after the part of the member case that runs on a membership
    change. *)
Definition heroes_after_change (ed : EventData) (k : string)
    (m : RoomMetadata) : list Hero :=
  if IsMembershipChange (Some (Event ed)) then
    if bool_decide (membership_of ed = "leave" ∨ membership_of ed = "ban")
    then filter (λ h, ID h ≠ k) (Heroes m)
    else Heroes m
  else Heroes m.

(** The metadata after that part. *)
Definition after_change (ed : EventData) (k : string) (m : RoomMetadata)
    : RoomMetadata :=
  if IsMembershipChange (Some (Event ed)) then
    let m := set_Counts (edJoinCount ed) (edInviteCount ed) m in
    if bool_decide (membership_of ed = "leave" ∨ membership_of ed = "ban")
    then RemoveHero k m
    else m
  else m.

(** The hero bound. *)
Definition heroes_bounded (c : GlobalCache) : Prop :=
  ∀ r m, roomIDToMetadata c !! r = Some m → length (Heroes m) ≤ 6.

(** The ids of the heroes a room has in the cache, none for an unknown
    room. *)
Definition heroes_of (c : GlobalCache) (r : string) : list string :=
  match roomIDToMetadata c !! r with
  | Some m => hero_ids m
  | None => []
  end.

(** The member events of user [u] in room [r] that can make the user a
    hero (a join or an invite), and the ones that take the user out (a
    leave or a ban that is a membership change). *)
Definition joins_or_invites (r u : string) (ed : EventData) : Prop :=
  member_event_of r u ed = true ∧
  (membership_of ed = "join" ∨ membership_of ed = "invite").

Definition takes_out (r u : string) (ed : EventData) : Prop :=
  member_event_of r u ed = true ∧ leave_or_ban ed ∧
  IsMembershipChange (Some (Event ed)) = true.

(** Sample member events of one user in one room: a join, a leave that
    records a previous membership of join, and a leave that records a
    previous membership of leave. *)
Definition member_json (membership : string) (prev : option string) : json :=
  JObj ([ ("type", JStr "m.room.member"); ("state_key", JStr "@x:hs");
          ("content", JObj [("membership", JStr membership)]) ] ++
        match prev with
        | Some p =>
            [ ("unsigned",
               JObj [("prev_content", JObj [("membership", JStr p)])]) ]
        | None => []
        end).

Definition member_event (membership : string) (prev : option string)
    (ts : N) : EventData :=
  {| Event := member_json membership prev; edRoomID := "!r:hs";
     EventType := "m.room.member"; StateKey := Some "@x:hs";
     Content := Some (JObj [("membership", JStr membership)]);
     Timestamp := ts; Sender := "@x:hs"; edJoinCount := 1;
     edInviteCount := 0; LatestPos := 1; ForceInitial := false |}.

Definition ev_join : EventData := member_event "join" None 1000.
Definition ev_leave : EventData := member_event "leave" (Some "join") 2000.
Definition ev_leave_again : EventData := member_event "leave" (Some "leave") 3000.


End Caches.

(** ** Package extensions: account data *)
Module Extensions.
Import Json.

(** state.AccountData, with the fields this file reads. *)
Record AccountData := mkAccountData {
  adRoomID : string;
  Data : RawMessage
}.

(** The store, as far as this file calls it: [AccountDatas(userID,
    roomIDs...)] gives rows and an error. *)
Record Storage := mkStorage {
  AccountDatas : string → list string → list AccountData * error
}.

Record AccountDataRequest := mkAccountDataRequest {
  Enabled : bool
}.

(** The response; [None] is a nil slice or a nil map. *)
Record AccountDataResponse := mkAccountDataResponse {
  Global : option (list RawMessage);
  Rooms : option (gmap string (list RawMessage))
}.

Definition accountEventsAsJSON (events : list AccountData) : list RawMessage :=
  Data <$> events.

(** [res.Rooms[ad.RoomID] = append(res.Rooms[ad.RoomID], ad.Data)] over the
    rows, in their order. *)
Definition append_room (rooms : gmap string (list RawMessage))
    (ad : AccountData) : gmap string (list RawMessage) :=
  <[adRoomID ad := default [] (rooms !! adRoomID ad) ++ [Data ad]]> rooms.

Definition group_by_room (rows : list AccountData)
    : gmap string (list RawMessage) :=
  foldl append_room ∅ rows.

(** ProcessAccountData: the response, and the room-id arguments of the calls
    of store.AccountDatas it made, in order (the user id of each call is
    [userID]).  The range over the Go map visits the keys in an order the
    language leaves open; here it is the order of [map_to_list].  The
    arguments [deltaData] and [req] are not read. *)
Definition ProcessAccountData (store : Storage)
    (roomIDToTimeline : gmap string (list string)) (userID : string)
    (isInitial : bool) (req : AccountDataRequest)
    : AccountDataResponse * list (list string) :=
  let roomIDs := (map_to_list roomIDToTimeline).*1 in
  let res := {| Global := None; Rooms := None |} in
  let '(res, calls) :=
    (if bool_decide (0 < length roomIDs) then
      let '(roomsAccountData, err) := AccountDatas store userID roomIDs in
      match err with
      | Some _ => (res, [roomIDs])
      | None =>
          ({| Global := Global res;
              Rooms := Some (group_by_room roomsAccountData) |}, [roomIDs])
      end
    else (res, [])) : AccountDataResponse * list (list string) in
  if isInitial then
    let '(globalAccountData, err) := AccountDatas store userID [] in
    match err with
    | Some _ => (res, calls ++ [[]])
    | None =>
        ({| Global := Some (accountEventsAsJSON globalAccountData);
            Rooms := Rooms res |}, calls ++ [[]])
    end
  else (res, calls).

(** The data of the rows of one room, in the order of the rows. *)
Definition data_of_room (r : string) (rows : list AccountData)
    : list RawMessage :=
  Data <$> filter (λ ad, adRoomID ad = r) rows.

(** A store that fails every call, and one that holds a single global
    event. *)
Definition store_down : Storage :=
  {| AccountDatas := λ _ _, ([], Some "connection refused") |}.

Definition store_one_global : Storage :=
  {| AccountDatas := λ _ roomIDs,
       match roomIDs with
       | [] => ([ {| adRoomID := ""; Data := JObj [("type", JStr "m.push_rules")] |} ],
                None)
       | _ => ([], None)
       end |}.

End Extensions.

(** ** Package sync3: the response and its JSON *)
Module Sync3.
Import Json.

Definition OpSync : string := "SYNC".
Definition OpInvalidate : string := "INVALIDATE".
Definition OpInsert : string := "INSERT".
Definition OpDelete : string := "DELETE".

(** ResponseOpRange; the array [Range] is its two elements, and a slice is
    the list of its elements (nil and empty are not told apart). *)
Record ResponseOpRange := mkResponseOpRange {
  rOperation : string;
  Range : Z * Z;
  RoomIDs : list string
}.

(** ResponseOpSingle; [Index] is nil or points at an int. *)
Record ResponseOpSingle := mkResponseOpSingle {
  sOperation : string;
  Index : option Z;
  RoomID : string
}.

(** The interface ResponseOp, with its two implementations. *)
Inductive ResponseOp :=
  | OpRange (r : ResponseOpRange)
  | OpSingle (s : ResponseOpSingle).

Definition Op (o : ResponseOp) : string :=
  match o with
  | OpRange r => rOperation r
  | OpSingle s => sOperation s
  end.

Definition IncludedRoomIDs (o : ResponseOp) : list string :=
  match o with
  | OpRange r =>
      if decide (rOperation r = OpInvalidate) then [] else RoomIDs r
  | OpSingle s =>
      if bool_decide (sOperation s = OpDelete ∨ RoomID s = "") then []
      else [RoomID s]
  end.

Definition is_range (o : ResponseOp) : bool :=
  match o with OpRange _ => true | OpSingle _ => false end.

Record ResponseList := mkResponseList {
  Ops : list ResponseOp;
  Count : Z
}.

(** Response.  The types Room and extensions.Response are declared outside
    these sources: [Rooms] and [Extensions] hold their JSON as it is. *)
Record Response := mkResponse {
  Lists : gmap string ResponseList;
  Rooms : json;
  Extensions : json;
  Pos : string;
  TxnID : string
}.

(** *** encoding/json, as far as these types use it *)

(** An int and an int64 have 64 bits. *)
Definition int64_ok (n : Z) : bool :=
  ((- 2 ^ 63 <=? n) && (n <? 2 ^ 63))%Z.

(** A member name matches a field when the two are equal up to the case of
    ASCII letters.  (encoding/json also lets the Kelvin sign stand for a k
    and the long s for an s.) *)
Definition lower (a : Ascii.ascii) : Ascii.ascii :=
  let n := Ascii.N_of_ascii a in
  if ((65 <=? n) && (n <=? 90))%N then Ascii.ascii_of_N (n + 32) else a.

Fixpoint fold_name (s : string) : string :=
  match s with
  | EmptyString => EmptyString
  | String a s => String (lower a) (fold_name s)
  end.

Definition names (field key : string) : bool :=
  String.eqb (fold_name key) field.

(** Unmarshal results: an error, or the value decoded. *)
Definition decoded (A : Type) : Type := string + A.

Definition dbind {A B} (x : decoded A) (k : A → decoded B) : decoded B :=
  match x with
  | inl e => inl e
  | inr a => k a
  end.

(** Decoding a value into a Go value that holds [cur]: a null leaves a
    string, a number or an array as it is and makes a pointer or a slice
    nil; a value of another kind is an error. *)
Definition unmarshal_string (cur : string) (v : json) : decoded string :=
  match v with
  | JNull => inr cur
  | JStr s => inr s
  | _ => inl "json: cannot unmarshal into Go value of type string"
  end.

Definition unmarshal_int (cur : Z) (v : json) : decoded Z :=
  match v with
  | JNull => inr cur
  | JNum n =>
      if int64_ok n then inr n
      else inl "json: cannot unmarshal number into Go value of type int"
  | _ => inl "json: cannot unmarshal into Go value of type int"
  end.

Definition unmarshal_int_ptr (cur : option Z) (v : json) : decoded (option Z) :=
  match v with
  | JNull => inr None
  | _ => dbind (unmarshal_int (default 0%Z cur) v) (λ n, inr (Some n))
  end.

(** Into [[2]int64]: the first two elements of the array are decoded, the
    others dropped, and an element the array does not have becomes 0. *)
Definition unmarshal_range (cur : Z * Z) (v : json) : decoded (Z * Z) :=
  match v with
  | JNull => inr cur
  | JArr [] => inr (0, 0)%Z
  | JArr [a] => dbind (unmarshal_int cur.1 a) (λ a, inr (a, 0%Z))
  | JArr (a :: b :: _) =>
      dbind (unmarshal_int cur.1 a) (λ a,
      dbind (unmarshal_int cur.2 b) (λ b, inr (a, b)))
  | _ => inl "json: cannot unmarshal into Go value of type [2]int64"
  end.

(** Into [[]string]: the slice is cut to length 0 and filled again, so an
    element keeps what the old slice had at its place when it is null. *)
Fixpoint unmarshal_strings (cur : list string) (vs : list json)
    : decoded (list string) :=
  match vs with
  | [] => inr []
  | v :: vs =>
      dbind (unmarshal_string (default "" (head cur)) v) (λ x,
      dbind (unmarshal_strings (tail cur) vs) (λ xs, inr (x :: xs)))
  end.

Definition unmarshal_string_slice (cur : list string) (v : json)
    : decoded (list string) :=
  match v with
  | JNull => inr []
  | JArr vs => unmarshal_strings cur vs
  | _ => inl "json: cannot unmarshal into Go value of type []string"
  end.

(** Into a struct: null changes nothing, an object sets, member after
    member, the field its name matches, and anything else is an error. *)
Definition unmarshal_struct {A} (field : string → json → A → decoded A)
    (cur : A) (v : json) : decoded A :=
  match v with
  | JNull => inr cur
  | JObj ms =>
      foldl (λ acc '(k, x), dbind acc (field k x)) (inr cur) ms
  | _ => inl "json: cannot unmarshal into Go value of type struct"
  end.

Definition ResponseOpRange_field (k : string) (v : json)
    (o : ResponseOpRange) : decoded ResponseOpRange :=
  if names "op" k then
    dbind (unmarshal_string (rOperation o) v) (λ x,
      inr (mkResponseOpRange x (Range o) (RoomIDs o)))
  else if names "range" k then
    dbind (unmarshal_range (Range o) v) (λ x,
      inr (mkResponseOpRange (rOperation o) x (RoomIDs o)))
  else if names "room_ids" k then
    dbind (unmarshal_string_slice (RoomIDs o) v) (λ x,
      inr (mkResponseOpRange (rOperation o) (Range o) x))
  else inr o.

Definition ResponseOpSingle_field (k : string) (v : json)
    (o : ResponseOpSingle) : decoded ResponseOpSingle :=
  if names "op" k then
    dbind (unmarshal_string (sOperation o) v) (λ x,
      inr (mkResponseOpSingle x (Index o) (RoomID o)))
  else if names "index" k then
    dbind (unmarshal_int_ptr (Index o) v) (λ x,
      inr (mkResponseOpSingle (sOperation o) x (RoomID o)))
  else if names "room_id" k then
    dbind (unmarshal_string (RoomID o) v) (λ x,
      inr (mkResponseOpSingle (sOperation o) (Index o) x))
  else inr o.

Definition zeroResponseOpRange : ResponseOpRange :=
  mkResponseOpRange "" (0, 0)%Z [].
Definition zeroResponseOpSingle : ResponseOpSingle :=
  mkResponseOpSingle "" None "".

(** [json.Unmarshal(op, &oper)] for a fresh [oper] of either type. *)
Definition Unmarshal_ResponseOpRange (op : RawMessage)
    : decoded ResponseOpRange :=
  unmarshal_struct ResponseOpRange_field zeroResponseOpRange op.
Definition Unmarshal_ResponseOpSingle (op : RawMessage)
    : decoded ResponseOpSingle :=
  unmarshal_struct ResponseOpSingle_field zeroResponseOpSingle op.

(** Marshalling: a field tagged omitempty is left out when it is a nil
    pointer, an empty string or an empty slice; an array of two elements is
    never empty. *)
Definition Marshal_ResponseOpRange (o : ResponseOpRange) : json :=
  JObj ([ ("op", JStr (rOperation o));
          ("range", JArr [JNum (Range o).1; JNum (Range o).2]) ] ++
        match RoomIDs o with
        | [] => []
        | ids => [ ("room_ids", JArr (JStr <$> ids)) ]
        end).

Definition Marshal_ResponseOpSingle (o : ResponseOpSingle) : json :=
  JObj ([ ("op", JStr (sOperation o)) ] ++
        match Index o with
        | None => []
        | Some i => [ ("index", JNum i) ]
        end ++
        (if decide (RoomID o = "") then []
         else [ ("room_id", JStr (RoomID o)) ])).

Definition Marshal_ResponseOp (o : ResponseOp) : json :=
  match o with
  | OpRange r => Marshal_ResponseOpRange r
  | OpSingle s => Marshal_ResponseOpSingle s
  end.

Definition Marshal_ResponseList (l : ResponseList) : json :=
  JObj (match Ops l with
        | [] => []
        | ops => [ ("ops", JArr (Marshal_ResponseOp <$> ops)) ]
        end ++ [ ("count", JNum (Count l)) ]).

(** A map is written with its keys sorted. *)
Definition key_le {A} (x y : string * A) : Prop := String.leb x.1 y.1 = true.
#[global] Instance key_le_dec {A} (x y : string * A) : Decision (key_le x y).
Proof. unfold key_le. apply _. Defined.

Definition Marshal_Response (r : Response) : json :=
  JObj ([ ("lists",
           JObj (merge_sort key_le
                   (prod_map id Marshal_ResponseList <$> map_to_list (Lists r))));
          ("rooms", Rooms r);
          ("extensions", Extensions r);
          ("pos", JStr (Pos r)) ] ++
        (if decide (TxnID r = "") then [] else [ ("txn_id", JStr (TxnID r)) ])).

(** *** Response.UnmarshalJSON *)

(** An element of [temporary.Lists]. *)
Record temporary_list := mkTemporaryList {
  tOps : list RawMessage;
  tCount : Z
}.

Definition temporary_list_field (k : string) (v : json) (l : temporary_list)
    : decoded temporary_list :=
  if names "ops" k then
    match v with
    | JNull => inr (mkTemporaryList [] (tCount l))
    | JArr ops => inr (mkTemporaryList ops (tCount l))
    | _ => inl "json: cannot unmarshal into Go value of type []json.RawMessage"
    end
  else if names "count" k then
    dbind (unmarshal_int (tCount l) v) (λ x, inr (mkTemporaryList (tOps l) x))
  else inr l.

(** One step of filling a map: the value of key [k] is decoded with [dec]
    and stored under [k]. *)
Definition insert_decoded {A B} (dec : A → decoded B)
    (acc : decoded (gmap string B)) (kx : string * A)
    : decoded (gmap string B) :=
  dbind acc (λ m, dbind (dec kx.2) (λ y, inr (<[kx.1 := y]> m))).

(** Into the map [temporary.Lists]: null makes it nil; an object adds, for
    each member, an element decoded from the zero value. *)
Definition unmarshal_temporary_list (v : json) : decoded temporary_list :=
  unmarshal_struct temporary_list_field (mkTemporaryList [] 0) v.

Definition unmarshal_lists (cur : gmap string temporary_list) (v : json)
    : decoded (gmap string temporary_list) :=
  match v with
  | JNull => inr ∅
  | JObj ms => foldl (insert_decoded unmarshal_temporary_list) (inr cur) ms
  | _ => inl "json: cannot unmarshal into Go value of type map"
  end.

Record temporary := mkTemporary {
  tRooms : json;
  tLists : gmap string temporary_list;
  tExtensions : json;
  tPos : string;
  tTxnID : string
}.

Definition temporary_field (k : string) (v : json) (t : temporary)
    : decoded temporary :=
  if names "rooms" k then
    inr (mkTemporary v (tLists t) (tExtensions t) (tPos t) (tTxnID t))
  else if names "lists" k then
    dbind (unmarshal_lists (tLists t) v) (λ x,
      inr (mkTemporary (tRooms t) x (tExtensions t) (tPos t) (tTxnID t)))
  else if names "extensions" k then
    inr (mkTemporary (tRooms t) (tLists t) v (tPos t) (tTxnID t))
  else if names "pos" k then
    dbind (unmarshal_string (tPos t) v) (λ x,
      inr (mkTemporary (tRooms t) (tLists t) (tExtensions t) x (tTxnID t)))
  else if names "txn_id" k then
    dbind (unmarshal_string (tTxnID t) v) (λ x,
      inr (mkTemporary (tRooms t) (tLists t) (tExtensions t) (tPos t) x))
  else inr t.

Definition zero_temporary : temporary :=
  mkTemporary JNull ∅ JNull "" "".

(** [json.Unmarshal(b, &temporary)] *)
Definition Unmarshal_temporary (b : json) : decoded temporary :=
  unmarshal_struct temporary_field zero_temporary b.

(** The body of the loop over [l.Ops]. *)
Definition unmarshal_op (op : RawMessage) : decoded ResponseOp :=
  if Exists (Get ["range"] (Some op)) then
    dbind (Unmarshal_ResponseOpRange op) (λ oper, inr (OpRange oper))
  else
    dbind (Unmarshal_ResponseOpSingle op) (λ oper, inr (OpSingle oper)).

Fixpoint unmarshal_ops (ops : list RawMessage) : decoded (list ResponseOp) :=
  match ops with
  | [] => inr []
  | op :: ops =>
      dbind (unmarshal_op op) (λ o,
      dbind (unmarshal_ops ops) (λ os, inr (o :: os)))
  end.

Definition unmarshal_list (l : temporary_list) : decoded ResponseList :=
  dbind (unmarshal_ops (tOps l)) (λ ops, inr (mkResponseList ops (tCount l))).

(** The loop over [temporary.Lists]; the lists are independent of each
    other, so the order of the range decides only which error is met
    first. *)
Definition unmarshal_all_lists (ls : gmap string temporary_list)
    : decoded (gmap string ResponseList) :=
  foldl (insert_decoded unmarshal_list) (inr ∅) (map_to_list ls).

(** UnmarshalJSON assigns every field of its receiver, so the response it
    leaves does not depend on what the receiver held. *)
Definition UnmarshalJSON (b : json) : decoded Response :=
  dbind (Unmarshal_temporary b) (λ t,
  dbind (unmarshal_all_lists (tLists t)) (λ lists,
  inr {| Lists := lists; Rooms := tRooms t; Extensions := tExtensions t;
         Pos := tPos t; TxnID := tTxnID t |})).

(** Every int of a response fits its Go type. *)
Definition op_fits (o : ResponseOp) : Prop :=
  match o with
  | OpRange r => int64_ok (Range r).1 = true ∧ int64_ok (Range r).2 = true
  | OpSingle s => ∀ i, Index s = Some i → int64_ok i = true
  end.

Definition list_fits (l : ResponseList) : Prop :=
  int64_ok (Count l) = true ∧ Forall op_fits (Ops l).

Definition response_fits (r : Response) : Prop :=
  ∀ k l, Lists r !! k = Some l → list_fits l.

(** The ops of list [k] as [temporary] holds them. *)
Definition raw_ops (b : json) (k : string) : option (list RawMessage) :=
  match Unmarshal_temporary b with
  | inr t => tOps <$> tLists t !! k
  | inl _ => None
  end.

(** What [temporary] holds for a list that was marshalled. *)
Definition to_temporary (l : ResponseList) : temporary_list :=
  mkTemporaryList (Marshal_ResponseOp <$> Ops l) (Count l).

(** The value decoded, or [zero] for an error. *)
Definition value_or {A} (zero : A) (x : decoded A) : A :=
  match x with
  | inr a => a
  | inl _ => zero
  end.

End Sync3.

(** ** Package sqlutil: Chunkify and Chunkify2 *)
Module Chunks.

(** A Go [int] has 64 bits: the integer a sum or a product wraps to. *)
Definition wrap64 (z : Z) : Z := ((z + 2 ^ 63) `mod` 2 ^ 64 - 2 ^ 63)%Z.

Definition is_int (z : Z) : Prop := (- 2 ^ 63 ≤ z < 2 ^ 63)%Z.

(** [len(entries)] *)
Definition len {T} (entries : list T) : Z := Z.of_nat (length entries).

(** [entries[i:j]]: a panic unless 0 <= i <= j <= cap(entries).  Every [j]
    the loops below use is at most [len(entries)], so the capacity is not
    told apart from the length. *)
Definition slice {T} (entries : list T) (i j : Z) : outcome (list T) :=
  if bool_decide (0 ≤ i ∧ i ≤ j ∧ j ≤ len entries)%Z
  then Done (take (Z.to_nat (j - i)) (drop (Z.to_nat i) entries))
  else Panic "slice bounds out of range".

(** [maxParamsPerCall / numParamsPerStmt]: division by zero panics, the
    quotient is cut towards zero and wraps. *)
Definition quotient (a b : Z) : outcome Z :=
  if (b =? 0)%Z then Panic "integer divide by zero"
  else Done (wrap64 (Z.quot a b)).

(** The loop of Chunkify2 from index [i] with the chunks made so far.  The
    loop need not end: [None] says that [fuel] iterations were not enough. *)
Fixpoint Chunkify2_loop {T} (fuel : nat) (numEntriesPerChunk : Z)
    (entries : list T) (i : Z) (chunks : list (list T))
    : option (outcome (list (list T))) :=
  match fuel with
  | O => None
  | S fuel =>
      if (i <? len entries)%Z then
        let endIndex := wrap64 (i + numEntriesPerChunk) in
        let endIndex :=
          if (endIndex >? len entries)%Z then len entries else endIndex in
        match slice entries i endIndex with
        | Panic m => Some (Panic m)
        | Done chunk =>
            Chunkify2_loop fuel numEntriesPerChunk entries
              (wrap64 (i + numEntriesPerChunk)) (chunks ++ [chunk])
        end
      else Some (Done chunks)
  end.

Definition Chunkify2 {T} (fuel : nat) (numParamsPerStmt maxParamsPerCall : Z)
    (entries : list T) : option (outcome (list (list T))) :=
  if (wrap64 (len entries * numParamsPerStmt) <=? maxParamsPerCall)%Z
  then Some (Done [entries])
  else
    match quotient maxParamsPerCall numParamsPerStmt with
    | Panic m => Some (Panic m)
    | Done numEntriesPerChunk =>
        Chunkify2_loop fuel numEntriesPerChunk entries 0 []
    end.

(** The interface Chunker. *)
Class Chunker (C : Type) := {
  Len : C → Z;
  Subslice : C → Z → Z → outcome C
}.

Fixpoint Chunkify_loop {C} `{Chunker C} (fuel : nat) (numEntriesPerChunk : Z)
    (entries : C) (i : Z) (chunks : list C) : option (outcome (list C)) :=
  match fuel with
  | O => None
  | S fuel =>
      if (i <? Len entries)%Z then
        let endIndex := wrap64 (i + numEntriesPerChunk) in
        let endIndex :=
          if (endIndex >? Len entries)%Z then Len entries else endIndex in
        match Subslice entries i endIndex with
        | Panic m => Some (Panic m)
        | Done chunk =>
            Chunkify_loop fuel numEntriesPerChunk entries
              (wrap64 (i + numEntriesPerChunk)) (chunks ++ [chunk])
        end
      else Some (Done chunks)
  end.

Definition Chunkify {C} `{Chunker C} (fuel : nat)
    (numParamsPerStmt maxParamsPerCall : Z) (entries : C)
    : option (outcome (list C)) :=
  if (wrap64 (Len entries * numParamsPerStmt) <=? maxParamsPerCall)%Z
  then Some (Done [entries])
  else
    match quotient maxParamsPerCall numParamsPerStmt with
    | Panic m => Some (Panic m)
    | Done numEntriesPerChunk =>
        Chunkify_loop fuel numEntriesPerChunk entries 0 []
    end.

(** A slice of rows as a Chunker. *)
#[global] Instance list_Chunker {T} : Chunker (list T) :=
  {| Len := len; Subslice := slice |}.

(** What a Chunker must do for Chunkify to make sense: cutting [i, j) out
    of entries gives that many entries. *)
Definition lawful {C} `{Chunker C} (entries : C) : Prop :=
  (0 ≤ Len entries)%Z ∧
  ∀ i j, (0 ≤ i ≤ j)%Z → (j ≤ Len entries)%Z →
    ∃ chunk, Subslice entries i j = Done chunk ∧ Len chunk = (j - i)%Z.

(** The parameters a statement of [numParamsPerStmt] parameters per entry
    needs for a chunk. *)
Definition params {T} (numParamsPerStmt : Z) (chunk : list T) : Z :=
  (len chunk * numParamsPerStmt)%Z.

(** The arguments are ints, at least one entry fits a call, and neither the
    product nor the index of the loop overflows. *)
Definition chunkable {T} (numParamsPerStmt maxParamsPerCall : Z)
    (entries : list T) : Prop :=
  (0 < numParamsPerStmt ≤ maxParamsPerCall)%Z ∧
  (len entries * numParamsPerStmt < 2 ^ 63)%Z ∧
  (len entries + maxParamsPerCall < 2 ^ 63)%Z.

(** The sum of the lengths of chunks. *)
Definition total_len {C} `{Chunker C} (chunks : list C) : Z :=
  foldr (λ c n, (Len c + n)%Z) 0%Z chunks.

End Chunks.

(** ** More on the gate *)
Module Gate.
Import Handler.

(** Every channel made is closed or is the channel of a pending slot. *)
Definition all_tracked (p : EnsurePoller) : Prop :=
  ∀ c, c < made p →
    c ∈ closed p ∨
    ∃ pid, pendingPolls p !! pid = Some {| done := false; ch := Some c |}.

(** The device a payload was published for. *)
Definition pid_of (m : V3EnsurePolling) : PollerID :=
  {| UserID := V3UserID m; DeviceID := V3DeviceID m |}.

(** EnsurePolling makes a channel and publishes a payload in the same
    critical section, so the channel numbered [c] is the signal of the
    payload at position [c] of [notifier].  Each signal is released (its
    channel closed), or the slot of its device is pending on it. *)
Definition signals_tracked (p : EnsurePoller) : Prop :=
  made p = length (notifier p) ∧
  ∀ c m, notifier p !! c = Some m →
    c ∈ closed p ∨
    pendingPolls p !! pid_of m = Some {| done := false; ch := Some c |}.

(** The channel a slot is pending on, as the list of channels the next
    OnInitialSyncComplete of the device has to close. *)
Definition pending_signal (p : EnsurePoller) (pid : PollerID) : list chan :=
  match pendingPolls p !! pid with
  | Some {| done := false; ch := Some c |} => [c]
  | _ => []
  end.

End Gate.

(** ** Package store: the other methods of Sessions *)
Module Sessions.
Import Sqlutil Store.

(** These methods run one statement on the database handle, outside any
    transaction; the error argument of each is what the driver answers
    (nil when the statement runs). *)

Definition with_devices (m : gmap string device_row) (t : tables) : tables :=
  {| syncv3_sessions := syncv3_sessions t;
     syncv3_sessions_v2devices := m;
     syncv3_session_id_seq := syncv3_session_id_seq t |}.

Definition with_sessions (l : list session_row) (t : tables) : tables :=
  {| syncv3_sessions := l;
     syncv3_sessions_v2devices := syncv3_sessions_v2devices t;
     syncv3_session_id_seq := syncv3_session_id_seq t |}.

(** [UPDATE syncv3_sessions_v2devices SET since = $1 WHERE device_id = $2] *)
Definition UpdateDeviceSince (exec_err : error) (deviceID since : string)
    (t : tables) : error * tables :=
  match exec_err with
  | Some e => (Some e, t)
  | None =>
      (None,
       with_devices
         (alter (λ r, {| user_id := user_id r; since := since |}) deviceID
                (syncv3_sessions_v2devices t)) t)
  end.

(** [UPDATE syncv3_sessions_v2devices SET user_id = $1 WHERE device_id = $2] *)
Definition UpdateUserIDForDevice (exec_err : error) (deviceID userID : string)
    (t : tables) : error * tables :=
  match exec_err with
  | Some e => (Some e, t)
  | None =>
      (None,
       with_devices
         (alter (λ r, {| user_id := userID; since := Store.since r |}) deviceID
                (syncv3_sessions_v2devices t)) t)
  end.

(** [UPDATE syncv3_sessions SET last_confirmed_token = $1,
     last_unconfirmed_token = $2 WHERE session_id = $3] *)
Definition set_tokens (sessionID : Z) (confirmed unconfirmed : string)
    (r : session_row) : session_row :=
  if decide (session_id r = sessionID)
  then {| session_id := session_id r; row_device_id := row_device_id r;
          last_confirmed_token := confirmed;
          last_unconfirmed_token := unconfirmed |}
  else r.

Definition UpdateLastTokens (exec_err : error) (sessionID : Z)
    (confirmed unconfirmed : string) (t : tables) : error * tables :=
  match exec_err with
  | Some e => (Some e, t)
  | None =>
      (None,
       with_sessions
         (set_tokens sessionID confirmed unconfirmed <$> syncv3_sessions t) t)
  end.

(** [SELECT last_confirmed_token FROM syncv3_sessions WHERE device_id=$1];
    the rows come in the order of the table. *)
Definition ConfirmedSessionTokens (select_err : error) (deviceID : string)
    (t : tables) : list string * error :=
  match select_err with
  | Some e => ([], Some e)
  | None =>
      (last_confirmed_token <$>
         filter (λ r, row_device_id r = deviceID) (syncv3_sessions t),
       None)
  end.

(** What Session returns: the record, and the two token columns, which are
    scanned into fields of sync3.Session that this file does not name. *)
Record SessionFound := mkSessionFound {
  found : Store.Session;
  confirmed_token : string;
  unconfirmed_token : string
}.

(** Session: the select with its left join, scanned by [db.Get].  No row is
    sql.ErrNoRows, which gives (nil, nil); a session row without a device
    row has NULL for since and user_id, which does not scan into a
    string. *)
Definition Session (get_err : error) (sessionID : Z) (deviceID : string)
    (t : tables) : option SessionFound * error :=
  match get_err with
  | Some e => (None, Some e)
  | None =>
      match filter (λ r, session_id r = sessionID ∧ row_device_id r = deviceID)
                   (syncv3_sessions t) with
      | [] => (None, None)
      | r :: _ =>
          match syncv3_sessions_v2devices t !! deviceID with
          | None =>
              (None, Some "sql: Scan error: converting NULL to string is unsupported")
          | Some d =>
              (Some {| found := {| ID := sessionID; DeviceID := deviceID;
                                   V2Since := since d; UserID := user_id d |};
                       confirmed_token := last_confirmed_token r;
                       unconfirmed_token := last_unconfirmed_token r |},
               None)
          end
      end
  end.

(** Every session id in the table is below the next value of the sequence. *)
Definition ids_fresh (t : tables) : Prop :=
  ∀ r, r ∈ syncv3_sessions t → (session_id r < syncv3_session_id_seq t)%Z.

(** A driver and a database that fail nothing. *)
Definition driver_ok : driver := mkDriver None None None.
Definition faults_none : faults := mkFaults None None None None.

(** A row of syncv3_filters, and the table with its sequence. *)
Record filter_row := mkFilterRow {
  filter_id : Z;
  filter_session_id : Z;
  req_json : string
}.

Record filter_tables := mkFilterTables {
  syncv3_filters : list filter_row;
  syncv3_filter_id_seq : Z
}.

Definition filters_fresh (t : filter_tables) : Prop :=
  ∀ r, r ∈ syncv3_filters t → (filter_id r < syncv3_filter_id_seq t)%Z.

Section filters.
(** streams.Request is declared outside these sources: the type and what
    json.Marshal and json.Unmarshal do on it are taken as given. *)
Context {Request : Type}.
Context (Marshal : Request → string + string).
Context (Unmarshal : string → string + Request).

(** InsertFilter: the filter id and error it returns, and the table. *)
Definition InsertFilter (query_err : error) (sessionID : Z) (req : Request)
    (t : filter_tables) : Z * error * filter_tables :=
  match Marshal req with
  | inl e => (0%Z, Some e, t)
  | inr j =>
      match query_err with
      | Some e => (0%Z, Some e, t)
      | None =>
          let id := syncv3_filter_id_seq t in
          (id, None,
           {| syncv3_filters := syncv3_filters t ++
                [ {| filter_id := id; filter_session_id := sessionID;
                     req_json := j |} ];
              syncv3_filter_id_seq := (id + 1)%Z |})
      end
  end.

(** Filter: no row is sql.ErrNoRows, returned as the error. *)
Definition Filter (query_err : error) (sessionID filterID : Z)
    (t : filter_tables) : option Request * error :=
  match query_err with
  | Some e => (None, Some e)
  | None =>
      match filter (λ r, filter_session_id r = sessionID ∧ filter_id r = filterID)
                   (syncv3_filters t) with
      | [] => (None, Some "sql: no rows in result set")
      | r :: _ =>
          match Unmarshal (req_json r) with
          | inl e => (None, Some e)
          | inr req => (Some req, None)
          end
      end
  end.

End filters.

End Sessions.

(** ** Package caches: loading rooms, and runs of the listener functions *)
Module CacheOps.
Import Json Caches.

(** LoadRooms: the copy made of each entry has the same fields and a copy of
    the heroes slice, so the result maps a room id to the entry's value.  A
    room id without an entry is logged and skipped. *)
Definition LoadRooms (roomIDs : list string) (c : GlobalCache)
    : gmap string RoomMetadata :=
  foldl (λ result roomID,
           match roomIDToMetadata c !! roomID with
           | None => result
           | Some sr => <[roomID := sr]> result
           end)
        ∅ roomIDs.

(** The store, as far as LoadJoinedRooms calls it. *)
Record Storage := mkStorage {
  LatestEventNID : Z * error;
  JoinedRoomsAfterPosition : string → Z → list string * error
}.

(** LoadJoinedRooms: the position, the rooms ([None] is the nil map) and the
    error.  [override] is the field LoadJoinedRoomsOverride. *)
Definition LoadJoinedRooms
    (override : option (string → Z * option (gmap string RoomMetadata) * error))
    (store : Storage) (userID : string) (c : GlobalCache)
    : Z * option (gmap string RoomMetadata) * error :=
  match override with
  | Some f => f userID
  | None =>
      let '(initialLoadPosition, err) := LatestEventNID store in
      match err with
      | Some e => (0%Z, None, Some e)
      | None =>
          let '(joinedRoomIDs, err) :=
            JoinedRoomsAfterPosition store userID initialLoadPosition in
          match err with
          | Some e => (0%Z, None, Some e)
          | None =>
              (initialLoadPosition, Some (LoadRooms joinedRoomIDs c), None)
          end
      end
  end.

(** The two listener functions the dispatcher calls, and a run of calls. *)
Inductive listener_call :=
  | NewEvent (ed : EventData)
  | EphemeralEvent (roomID : string) (ephEvent : RawMessage).

Definition listen (call : listener_call) (c : GlobalCache)
    : outcome GlobalCache :=
  match call with
  | NewEvent ed => OnNewEvent ed c
  | EphemeralEvent roomID ephEvent => Done (OnEphemeralEvent roomID ephEvent c)
  end.

(** A run of calls, oldest first; the first panic ends it. *)
Fixpoint listen_all (calls : list listener_call) (c : GlobalCache)
    : outcome GlobalCache :=
  match calls with
  | [] => Done c
  | call :: calls => obind (listen call c) (listen_all calls)
  end.

(** A cache no listener call panics on: the store is set and every entry
    has a made child-space map. *)
Definition ready (c : GlobalCache) : Prop :=
  has_store c = true ∧ maps_made c.

(** The event of the latest OnNewEvent for a room in a run. *)
Definition is_event_of (r : string) (call : listener_call) : Prop :=
  match call with
  | NewEvent ed => edRoomID ed = r
  | EphemeralEvent _ _ => False
  end.

#[global] Instance is_event_of_dec r call : Decision (is_event_of r call).
Proof. destruct call; simpl; apply _. Defined.

Definition latest_event (r : string) (calls : list listener_call)
    : option EventData :=
  match last (filter (is_event_of r) calls) with
  | Some (NewEvent ed) => Some ed
  | _ => None
  end.

(** Every entry is stored under its own room id. *)
Definition keyed (c : GlobalCache) : Prop :=
  ∀ r m, roomIDToMetadata c !! r = Some m → RoomID m = r.

(** No user is a hero of a room twice. *)
Definition heroes_distinct (c : GlobalCache) : Prop :=
  ∀ r m, roomIDToMetadata c !! r = Some m → NoDup (hero_ids m).

(** The last message timestamp of a room in a cache, 0 without an entry. *)
Definition timestamp_of (c : GlobalCache) (r : string) : N :=
  match roomIDToMetadata c !! r with
  | Some m => LastMessageTimestamp m
  | None => 0%N
  end.

(** A sample room that is encrypted. *)
Definition room_encrypted : RoomMetadata :=
  set_Encrypted true (newRoomMetadata "!r:hs").

End CacheOps.

(** ** Package extensions: HasData and live account data *)
Module Live.
Import Json Extensions.

(** [len] of a slice or a map that may be nil. *)
Definition len_slice {A} (l : option (list A)) : nat :=
  match l with Some l => length l | None => 0 end.
Definition len_map {A} (m : option (gmap string A)) : nat :=
  match m with Some m => size m | None => 0 end.

Definition HasData (r : AccountDataResponse) (isInitial : bool) : bool :=
  if isInitial then true
  else bool_decide (0 < len_map (Rooms r) ∨ 0 < len_slice (Global r)).

(** The updates ProcessLiveAccountData tells apart, by the cases of its type
    switch in their order: an account data update, a room account data
    update, any other update that is a RoomUpdate, and any other update.
    The types are declared outside these sources; each case carries what
    the function reads of it. *)
Inductive Update :=
  | AccountDataUpdate (accountData : list AccountData)
  | RoomAccountDataUpdate (roomID : string) (accountData : list AccountData)
  | RoomUpdate (roomID : string)
  | OtherUpdate.

(** ProcessLiveAccountData; [None] is the nil response.  The arguments
    [deltaData] and [req] are not read. *)
Definition ProcessLiveAccountData (up : Update) (store : Storage)
    (updateWillReturnResponse : bool) (userID : string)
    (req : AccountDataRequest) : option AccountDataResponse :=
  match up with
  | AccountDataUpdate accountData =>
      Some {| Global := Some (accountEventsAsJSON accountData); Rooms := None |}
  | RoomAccountDataUpdate roomID accountData =>
      Some {| Global := None;
              Rooms := Some {[ roomID := accountEventsAsJSON accountData ]} |}
  | RoomUpdate roomID =>
      if updateWillReturnResponse then
        let '(roomAccountData, err) := AccountDatas store userID [roomID] in
        match err with
        | Some _ => None
        | None =>
            Some {| Global := None;
                    Rooms := Some {[ roomID := accountEventsAsJSON roomAccountData ]} |}
        end
      else None
  | OtherUpdate => None
  end.

End Live.

(** ** Sample JSON *)
Module Samples.
Import Json.

(** A response as a client might send it back: members out of order, keys
    in capitals, an unknown member and a null op. *)
Definition messy_response : json :=
  JObj [ ("POS", JStr "7"); ("unknown", JBool true);
         ("lists", JObj [ ("a", JObj [ ("count", JNum 3);
                                       ("OPS", JArr [ JObj [ ("room_id", JStr "!a:hs");
                                                             ("index", JNum 0);
                                                             ("op", JStr "INSERT") ];
                                                      JNull ]) ]) ]) ].

End Samples.

(** ** Package caches: LoadRoomState *)
Module RoomState.
Import Json.

(** state.Event, with the fields LoadRoomState reads and sets; [JSON] is
    nil ([None]) in the events it builds. *)
Record Event := mkEvent {
  NID : Z;
  Type_ : string;
  StateKey : string;
  RoomID : string;
  JSON : option RawMessage
}.

(** internal.RequiredStateMap, by the four methods LoadRoomState calls; [Q]
    is what QueryStateMap returns. *)
Record RequiredStateMap (Q : Type) := mkRequiredStateMap {
  Empty : bool;
  QueryStateMap : Q;
  Include : string → string → bool;
  IsLazyLoading : bool
}.
Arguments Empty {Q}.
Arguments QueryStateMap {Q}.
Arguments Include {Q}.
Arguments IsLazyLoading {Q}.

(** The store's RoomStateAfterEventPosition(roomIDs, pos, query). *)
Definition RoomStateAfterEventPosition (Q : Type) : Type :=
  list string → Z → Q → gmap string (list Event) * error.

(** What the loops carry: the result of the room at hand and stateNIDs. *)
Definition loop_state : Type := list (option RawMessage) * list Event.

(** [result = append(result, ev.JSON)] and the append to stateNIDs. *)
Definition take_event (roomID : string) (ev : Event) (st : loop_state)
    : loop_state :=
  (st.1 ++ [JSON ev],
   st.2 ++ [ {| NID := NID ev; Type_ := Type_ ev; StateKey := StateKey ev;
                RoomID := roomID; JSON := None |} ]).

(** The loop over usersInTimeline for one event. *)
Definition lazy_loop (roomID : string) (ev : Event) (users : list string)
    (st : loop_state) : loop_state :=
  foldl (λ st userID,
           if decide (StateKey ev = userID) then take_event roomID ev st else st)
        st users.

(** The body of the loop over the state events of a room. *)
Definition event_step {Q} (rsm : RequiredStateMap Q)
    (roomToUsersInTimeline : gmap string (list string)) (roomID : string)
    (st : loop_state) (ev : Event) : loop_state :=
  if Include rsm (Type_ ev) (StateKey ev) then take_event roomID ev st
  else if IsLazyLoading rsm then
    lazy_loop roomID ev (default [] (roomToUsersInTimeline !! roomID)) st
  else st.

(** The body of the loop over the rooms the store returned: [result] starts
    nil for each room. *)
Definition room_step {Q} (rsm : RequiredStateMap Q)
    (roomToUsersInTimeline : gmap string (list string))
    (acc : gmap string (list (option RawMessage)) * list Event)
    (room : string * list Event)
    : gmap string (list (option RawMessage)) * list Event :=
  let st := foldl (event_step rsm roomToUsersInTimeline room.1)
                  ([], acc.2) room.2 in
  (<[room.1 := st.1]> acc.1, st.2).

(** LoadRoomState: the result map ([None] is nil) and stateNIDs.  [store]
    is [None] when [c.store] is nil.  The range over the rooms follows
    [map_to_list]; Go leaves the order open. *)
Definition LoadRoomState {Q} (store : option (RoomStateAfterEventPosition Q))
    (roomIDs : list string) (loadPosition : Z) (rsm : RequiredStateMap Q)
    (roomToUsersInTimeline : gmap string (list string))
    : option (gmap string (list (option RawMessage))) * list Event :=
  match store with
  | None => (None, [])
  | Some RoomStateAfter =>
      if Empty rsm then (None, [])
      else
        let '(roomIDToStateEvents, err) :=
          RoomStateAfter roomIDs loadPosition (QueryStateMap rsm) in
        match err with
        | Some _ => (None, [])
        | None =>
            let '(resultMap, stateNIDs) :=
              foldl (room_step rsm roomToUsersInTimeline) (∅, [])
                    (map_to_list roomIDToStateEvents) in
            (Some resultMap, stateNIDs)
        end
  end.

(** How many times an event of a room is returned: once when the required
    state includes it, else, under lazy loading, once for each time its
    state key is listed among the users of the room's timeline. *)
Definition copies {Q} (rsm : RequiredStateMap Q) (users : list string)
    (ev : Event) : nat :=
  if Include rsm (Type_ ev) (StateKey ev) then 1
  else if IsLazyLoading rsm
       then length (filter (λ u, StateKey ev = u) users)
       else 0.

Definition room_result {Q} (rsm : RequiredStateMap Q)
    (roomToUsersInTimeline : gmap string (list string)) (roomID : string)
    (events : list Event) : list (option RawMessage) :=
  flat_map (λ ev, replicate
                    (copies rsm (default [] (roomToUsersInTimeline !! roomID)) ev)
                    (JSON ev))
           events.

(** A required state map that asks for member events lazily, and a store
    with one member event in one room. *)
Definition lazy_members : RequiredStateMap unit :=
  {| Empty := false; QueryStateMap := tt; Include := λ _ _, false;
     IsLazyLoading := true |}.

Definition one_member_store : RoomStateAfterEventPosition unit :=
  λ _ _ _,
    ({[ "!r:hs" := [ mkEvent 5 "m.room.member" "@x:hs" "!r:hs"
                       (Some (JObj [("type", JStr "m.room.member")])) ] ]},
     None).

End RoomState.

(** * Properties *)

(** ** The poller-ready gate *)
Section gate.
Import Handler Gate.

Lemma gate_inv_new : gate_inv NewEnsurePoller.
Proof.
  split; simpl.
  - intros pid pi H. by rewrite lookup_empty in H.
  - intros ????? H. by rewrite lookup_empty in H.
  - constructor.
  - intros c H. by apply elem_of_nil in H.
Qed.

(** What EnsurePolling does, by the state of the slot. *)
Lemma EnsurePolling_absent pid tok p :
  pendingPolls p !! pid = None →
  EnsurePolling pid tok p =
    ({| pendingPolls :=
          <[pid := {| done := false; ch := Some (made p) |}]> (pendingPolls p);
        notifier := notifier p ++
          [ {| V3UserID := UserID pid; V3DeviceID := DeviceID pid;
               AccessTokenHash := tok |} ];
        made := S (made p);
        closed := closed p |}, Some (made p)).
Proof.
  intros H. unfold EnsurePolling, index_pendingPolls. by rewrite H.
Qed.

Lemma EnsurePolling_present pid tok p pi :
  gate_inv p → pendingPolls p !! pid = Some pi →
  EnsurePolling pid tok p = (p, ch pi).
Proof.
  intros Hinv H. unfold EnsurePolling, index_pendingPolls. rewrite H. simpl.
  destruct (inv_slot p Hinv pid pi H) as [[Hd Hc]|[Hd (c & Hc & _)]];
    rewrite Hd; [by rewrite Hc | by rewrite Hc].
Qed.

(** In any gate, reachable or not: a slot that is done makes the call
    return at once, a slot with a channel makes it wait on that channel, and
    neither changes the gate. *)
Lemma EnsurePolling_done pid tok p pi :
  pendingPolls p !! pid = Some pi → done pi = true →
  EnsurePolling pid tok p = (p, None).
Proof.
  intros H Hd. unfold EnsurePolling, index_pendingPolls. rewrite H. simpl.
  by rewrite Hd.
Qed.

Lemma EnsurePolling_pending pid tok p pi c :
  pendingPolls p !! pid = Some pi → done pi = false → ch pi = Some c →
  EnsurePolling pid tok p = (p, Some c).
Proof.
  intros H Hd Hc. unfold EnsurePolling, index_pendingPolls. rewrite H. simpl.
  by rewrite Hd, Hc.
Qed.

Lemma EnsurePolling_inv pid tok p :
  gate_inv p → gate_inv (EnsurePolling pid tok p).1.
Proof.
  intros Hinv. destruct (pendingPolls p !! pid) as [pi|] eqn:Hpid.
  { by rewrite (EnsurePolling_present pid tok p pi). }
  rewrite EnsurePolling_absent by done. destruct Hinv as [Hs Hi Hn Hm].
  split; simpl.
  - intros q qi Hq. destruct (decide (pid = q)) as [->|Hne].
    + rewrite lookup_insert_eq in Hq. inversion Hq; subst; simpl.
      right. split; [done|]. exists (made p). split; [done|]. split; [lia|].
      intros Hc. apply Hm in Hc. lia.
    + rewrite lookup_insert_ne in Hq by done.
      destruct (Hs q qi Hq) as [?|[Hd (c & Hc & Hlt & Hnc)]]; [by left|].
      right. split; [done|]. exists c. split; [done|]. split; [lia|done].
  - intros q1 q2 pi1 pi2 c H1 H2 Hc1 Hc2.
    destruct (decide (pid = q1)) as [E1|Hne1];
      destruct (decide (pid = q2)) as [E2|Hne2]; subst; try done.
    + rewrite lookup_insert_eq in H1. rewrite lookup_insert_ne in H2 by done.
      inversion H1; subst; simpl in Hc1. inversion Hc1; subst.
      destruct (Hs q2 pi2 H2) as [[_ Hn2]|[_ (c' & Hc' & Hlt & _)]];
        [congruence|]. rewrite Hc2 in Hc'. inversion Hc'; subst. lia.
    + rewrite lookup_insert_eq in H2. rewrite lookup_insert_ne in H1 by done.
      inversion H2; subst; simpl in Hc2. inversion Hc2; subst.
      destruct (Hs q1 pi1 H1) as [[_ Hn1]|[_ (c' & Hc' & Hlt & _)]];
        [congruence|]. rewrite Hc1 in Hc'. inversion Hc'; subst. lia.
    + rewrite lookup_insert_ne in H1 by done.
      rewrite lookup_insert_ne in H2 by done. eauto.
  - done.
  - intros c Hc. apply Hm in Hc. lia.
Qed.

Lemma OnInitialSyncComplete_inv payload p :
  gate_inv p → ∃ p', OnInitialSyncComplete payload p = Done p' ∧ gate_inv p'.
Proof.
  intros Hinv. unfold OnInitialSyncComplete.
  set (pid := {| UserID := iscUserID payload; DeviceID := iscDeviceID payload |}).
  destruct Hinv as [Hs Hi Hn Hm].
  destruct (pendingPolls p !! pid) as [pending|] eqn:Hpid.
  - destruct (Hs pid pending Hpid) as [[Hd Hc]|[Hd (c & Hc & Hlt & Hnc)]];
      rewrite Hd.
    { eexists; split; [done|]. by split. }
    rewrite Hc. unfold close. simpl. rewrite decide_False by done.
    eexists; split; [done|]. split; simpl.
    + intros q qi Hq. destruct (decide (pid = q)) as [<-|Hne].
      * rewrite lookup_insert_eq in Hq. inversion Hq; subst. by left.
      * rewrite lookup_insert_ne in Hq by done.
        destruct (Hs q qi Hq) as [?|[Hd' (c' & Hc' & Hlt' & Hnc')]]; [by left|].
        right. split; [done|]. exists c'. split; [done|]. split; [done|].
        rewrite elem_of_app, list_elem_of_singleton. intros [?| ->]; [done|].
        apply Hne. by eapply Hi.
    + intros q1 q2 pi1 pi2 c' H1 H2 Hc1 Hc2.
      destruct (decide (pid = q1)) as [<-|Hne1].
      { rewrite lookup_insert_eq in H1. inversion H1; subst. done. }
      destruct (decide (pid = q2)) as [<-|Hne2].
      { rewrite lookup_insert_eq in H2. inversion H2; subst. done. }
      rewrite lookup_insert_ne in H1 by done.
      rewrite lookup_insert_ne in H2 by done. eauto.
    + apply NoDup_app. split; [done|]. split.
      * intros x Hx. rewrite list_elem_of_singleton. by intros ->.
      * apply NoDup_singleton.
    + intros c'. rewrite elem_of_app, list_elem_of_singleton.
      intros [?| ->]; auto.
  - eexists; split; [done|]. split; simpl; [| |done|done].
    + intros q qi Hq. destruct (decide (pid = q)) as [<-|Hne].
      * rewrite lookup_insert_eq in Hq. inversion Hq; subst. by left.
      * rewrite lookup_insert_ne in Hq by done. eauto.
    + intros q1 q2 pi1 pi2 c' H1 H2 Hc1 Hc2.
      destruct (decide (pid = q1)) as [<-|Hne1].
      { rewrite lookup_insert_eq in H1. inversion H1; subst. done. }
      destruct (decide (pid = q2)) as [<-|Hne2].
      { rewrite lookup_insert_eq in H2. inversion H2; subst. done. }
      rewrite lookup_insert_ne in H1 by done.
      rewrite lookup_insert_ne in H2 by done. eauto.
Qed.

Lemma OnExpiredToken_inv payload p :
  gate_inv p → ∃ p', OnExpiredToken payload p = Done p' ∧ gate_inv p'.
Proof.
  intros Hinv. unfold OnExpiredToken.
  set (pid := {| UserID := etUserID payload; DeviceID := etDeviceID payload |}).
  destruct Hinv as [Hs Hi Hn Hm].
  destruct (pendingPolls p !! pid) as [pending|] eqn:Hpid.
  2:{ eexists; split; [done|]. by split. }
  assert (Hdel_inj : ∀ q1 q2 pi1 pi2 c,
    delete pid (pendingPolls p) !! q1 = Some pi1 →
    delete pid (pendingPolls p) !! q2 = Some pi2 →
    ch pi1 = Some c → ch pi2 = Some c → q1 = q2).
  { intros q1 q2 pi1 pi2 c' H1 H2 Hc1 Hc2.
    apply lookup_delete_Some in H1 as [_ H1].
    apply lookup_delete_Some in H2 as [_ H2]. eauto. }
  destruct (Hs pid pending Hpid) as [[Hd Hc]|[Hd (c & Hc & Hlt & Hnc)]];
    rewrite Hc; simpl.
  - eexists; split; [done|]. split; simpl; [|done|done|done].
    intros q qi Hq. apply lookup_delete_Some in Hq as [_ Hq]. eauto.
  - unfold close. rewrite decide_False by done. simpl.
    eexists; split; [done|]. split; simpl; [|done| |].
    + intros q qi Hq. apply lookup_delete_Some in Hq as [Hne Hq].
      destruct (Hs q qi Hq) as [?|[Hd' (c' & Hc' & Hlt' & Hnc')]]; [by left|].
      right. split; [done|]. exists c'. split; [done|]. split; [done|].
      rewrite elem_of_app, list_elem_of_singleton. intros [?| ->]; [done|].
      apply Hne. by eapply Hi.
    + apply NoDup_app. split; [done|]. split.
      * intros x Hx. rewrite list_elem_of_singleton. by intros ->.
      * apply NoDup_singleton.
    + intros c'. rewrite elem_of_app, list_elem_of_singleton.
      intros [?| ->]; auto.
Qed.

Example gate_run :
  let alice := mkPollerID "@alice:hs" "dev1" in
  run [ CallEnsurePolling alice "h1"; CallEnsurePolling alice "h1";
        CallOnInitialSyncComplete (mkV2InitialSyncComplete "@alice:hs" "dev1");
        CallEnsurePolling alice "h1";
        CallOnInitialSyncComplete (mkV2InitialSyncComplete "@alice:hs" "dev1") ]
      NewEnsurePoller
  = Done {| pendingPolls := {[ alice := {| done := true; ch := None |} ]};
            notifier := [ mkV3EnsurePolling "@alice:hs" "dev1" "h1" ];
            made := 1; closed := [0] |}.
Proof. vm_compute. reflexivity. Qed.

Example gate_run_expired :
  let alice := mkPollerID "@alice:hs" "dev1" in
  run [ CallEnsurePolling alice "h1";
        CallOnExpiredToken (mkV2ExpiredToken "@alice:hs" "dev1");
        CallOnExpiredToken (mkV2ExpiredToken "@alice:hs" "dev1");
        CallEnsurePolling alice "h2" ]
      NewEnsurePoller
  = Done {| pendingPolls := {[ alice := {| done := false; ch := Some 1 |} ]};
            notifier := [ mkV3EnsurePolling "@alice:hs" "dev1" "h1";
                          mkV3EnsurePolling "@alice:hs" "dev1" "h2" ];
            made := 2; closed := [0] |}.
Proof. vm_compute. reflexivity. Qed.

Lemma step_inv c p :
  gate_inv p → ∃ p', step c p = Done p' ∧ gate_inv p'.
Proof.
  intros Hinv. destruct c as [pid tok|payload|payload]; simpl.
  - eexists; split; [done|]. by apply EnsurePolling_inv.
  - by apply OnInitialSyncComplete_inv.
  - by apply OnExpiredToken_inv.
Qed.

Lemma run_inv cs : ∀ p,
  gate_inv p → ∃ p', run cs p = Done p' ∧ gate_inv p'.
Proof.
  induction cs as [|c cs IH]; intros p Hinv; simpl.
  - by exists p.
  - destruct (step_inv c p Hinv) as (p1 & -> & Hinv1). simpl. by apply IH.
Qed.

(** Signals stay tracked. *)
Lemma pid_of_payload (pid : PollerID) (tok : string) :
  pid_of {| V3UserID := UserID pid; V3DeviceID := DeviceID pid;
            AccessTokenHash := tok |} = pid.
Proof. by destruct pid. Qed.

Lemma step_signals (c : call) (p p' : EnsurePoller) :
  gate_inv p → signals_tracked p → step c p = Done p' → signals_tracked p'.
Proof.
  intros Hinv [Hlen Htr] Hstep.
  destruct c as [q tok|payload|payload]; cbn [step] in Hstep.
  - injection Hstep as <-.
    destruct (pendingPolls p !! q) as [qi|] eqn:Hq.
    { by rewrite (EnsurePolling_present q tok p qi). }
    rewrite EnsurePolling_absent by done. split; cbn.
    { rewrite length_app. cbn. lia. }
    intros c m Hm. apply lookup_app_Some in Hm as [Hm|[Hge Hm]].
    + destruct (Htr c m Hm) as [?|Hslot]; [by left|]. right.
      rewrite lookup_insert_ne; [done|]. intros Heq.
      rewrite <- Heq, Hq in Hslot. done.
    + apply list_lookup_singleton_Some in Hm as [Hc <-].
      right. rewrite pid_of_payload, lookup_insert_eq.
      do 3 f_equal. lia.
  - unfold OnInitialSyncComplete in Hstep.
    set (q := {| UserID := iscUserID payload; DeviceID := iscDeviceID payload |})
      in *.
    destruct (pendingPolls p !! q) as [pending|] eqn:Hq.
    + destruct (done pending) eqn:Hd; [by injection Hstep as <-|].
      destruct (ch pending) as [c0|] eqn:Hc0; cbn in Hstep; [|done].
      case_decide; [done|]. injection Hstep as <-. split; [done|]. cbn.
      intros c m Hm. destruct (Htr c m Hm) as [?|Hslot].
      * left. apply elem_of_app. by left.
      * destruct (decide (pid_of m = q)) as [Heq|Hne].
        -- rewrite Heq, Hq in Hslot. injection Hslot as ->. cbn in Hc0.
           injection Hc0 as ->. left. apply elem_of_app. right.
           apply list_elem_of_here.
        -- right. by rewrite lookup_insert_ne.
    + injection Hstep as <-. split; [done|]. cbn.
      intros c m Hm. destruct (Htr c m Hm) as [?|Hslot]; [by left|].
      right. rewrite lookup_insert_ne; [done|]. intros Heq.
      rewrite <- Heq, Hq in Hslot. done.
  - unfold OnExpiredToken in Hstep.
    set (q := {| UserID := etUserID payload; DeviceID := etDeviceID payload |})
      in *.
    destruct (pendingPolls p !! q) as [pending|] eqn:Hq;
      [|by injection Hstep as <-].
    destruct (ch pending) as [c0|] eqn:Hc0; cbn in Hstep.
    + case_decide; [done|]. cbn in Hstep. injection Hstep as <-.
      split; [done|]. cbn.
      intros c m Hm. destruct (Htr c m Hm) as [?|Hslot].
      * left. apply elem_of_app. by left.
      * destruct (decide (pid_of m = q)) as [Heq|Hne].
        -- rewrite Heq, Hq in Hslot. injection Hslot as ->. cbn in Hc0.
           injection Hc0 as ->. left. apply elem_of_app. right.
           apply list_elem_of_here.
        -- right. by rewrite lookup_delete_ne.
    + injection Hstep as <-. split; [done|]. cbn.
      intros c m Hm. destruct (Htr c m Hm) as [?|Hslot]; [by left|].
      right. rewrite lookup_delete_ne; [done|]. intros Heq.
      rewrite <- Heq, Hq in Hslot. injection Hslot as ->. done.
Qed.

Lemma run_signals (cs : list call) : ∀ p p',
  gate_inv p → signals_tracked p → run cs p = Done p' → signals_tracked p'.
Proof.
  induction cs as [|c cs IH]; intros p p' Hinv Htr Hrun; cbn [run] in Hrun.
  - by injection Hrun as <-.
  - destruct (step_inv c p Hinv) as (p1 & Hstep & Hinv1).
    rewrite Hstep in Hrun. cbn in Hrun.
    apply (IH p1 p' Hinv1); [|done]. by apply (step_signals c p p1).
Qed.

Lemma signals_tracked_new : signals_tracked NewEnsurePoller.
Proof. split; [done|]. intros c m Hm. done. Qed.

(** What OnInitialSyncComplete does to a gate that satisfies the
    invariant. *)
Lemma OnInitialSyncComplete_fires (payload : V2InitialSyncComplete)
    (p : EnsurePoller) :
  let pid := {| UserID := iscUserID payload; DeviceID := iscDeviceID payload |} in
  gate_inv p →
  ∃ p', OnInitialSyncComplete payload p = Done p' ∧
        pendingPolls p' !! pid = Some {| done := true; ch := None |} ∧
        closed p' = closed p ++ pending_signal p pid.
Proof.
  intros pid Hinv. unfold OnInitialSyncComplete, pending_signal. fold pid.
  destruct (pendingPolls p !! pid) as [pending|] eqn:Hpid.
  - destruct (inv_slot p Hinv pid pending Hpid)
      as [[Hd Hc]|[Hd (c & Hc & Hlt & Hnc)]].
    + rewrite Hd. exists p. split; [done|]. destruct pending as [d c].
      cbn in Hd, Hc. subst. split; [done|]. by rewrite app_nil_r.
    + rewrite Hd, Hc. unfold close. rewrite decide_False by done.
      eexists. split; [done|]. cbn. rewrite lookup_insert_eq.
      split; [done|]. destruct pending as [d c']. cbn in Hd, Hc. by subst.
  - eexists. split; [done|]. cbn. rewrite lookup_insert_eq.
    split; [done|]. by rewrite app_nil_r.
Qed.

(** C1: whatever calls the gate receives, starting from the empty gate, no
    call panics (so no channel is closed twice, nor the nil channel closed).
    In the gate reached, every slot that is done has a nil channel and its
    signal was released: each channel EnsurePolling ever made for the device
    of a done slot is closed.  The channels closed so far are pairwise
    distinct.  And the transition to done fires the signal exactly once:
    OnInitialSyncComplete does not panic, leaves the slot of its device done
    with a nil channel, and closes the channel the slot was pending on, if
    it was pending, and no other channel. *)
Theorem gate_done_released_close_once (cs : list call) :
  ∃ p, run cs NewEnsurePoller = Done p ∧
       (∀ pid pi, pendingPolls p !! pid = Some pi → done pi = true →
          ch pi = None ∧
          ∀ c m, notifier p !! c = Some m → pid_of m = pid → c ∈ closed p) ∧
       NoDup (closed p) ∧
       (∀ payload : V2InitialSyncComplete,
          let pid := {| UserID := iscUserID payload;
                        DeviceID := iscDeviceID payload |} in
          ∃ p', OnInitialSyncComplete payload p = Done p' ∧
                pendingPolls p' !! pid = Some {| done := true; ch := None |} ∧
                closed p' = closed p ++ pending_signal p pid).
Proof.
  destruct (run_inv cs NewEnsurePoller gate_inv_new) as (p & Hrun & Hinv).
  pose proof (run_signals cs NewEnsurePoller p gate_inv_new
                signals_tracked_new Hrun) as [_ Htr].
  exists p. split; [done|]. split; [|split; [by apply inv_closed_nodup|]].
  - intros pid pi Hpid Hd. split.
    + destruct (inv_slot p Hinv pid pi Hpid) as [[_ ?]|[Hd' _]];
        [done|congruence].
    + intros c m Hm Hpm. destruct (Htr c m Hm) as [?|Hslot]; [done|].
      rewrite Hpm, Hpid in Hslot. injection Hslot as ->. done.
  - intros payload. by apply OnInitialSyncComplete_fires.
Qed.

Example gate_signal_fired_once :
  let alice := mkPollerID "@alice:hs" "dev1" in
  ∃ p p',
    run [ CallEnsurePolling alice "h1"; CallEnsurePolling alice "h1" ]
        NewEnsurePoller = Done p ∧
    pending_signal p alice = [0] ∧ closed p = [] ∧
    OnInitialSyncComplete (mkV2InitialSyncComplete "@alice:hs" "dev1") p
      = Done p' ∧
    closed p' = [0] ∧ pending_signal p' alice = [].
Proof. eexists _, _. repeat split; vm_compute; reflexivity. Qed.

(** Publications for a device are paid for by the slot being free. *)
Lemma is_for_self pid tok :
  is_for pid {| V3UserID := UserID pid; V3DeviceID := DeviceID pid;
                AccessTokenHash := tok |} = true.
Proof. unfold is_for. simpl. by rewrite bool_decide_eq_true. Qed.

Lemma is_for_other pid q tok :
  q ≠ pid →
  is_for pid {| V3UserID := UserID q; V3DeviceID := DeviceID q;
                AccessTokenHash := tok |} = false.
Proof.
  intros Hne. unfold is_for. simpl. rewrite bool_decide_eq_false.
  intros [H1 H2]. apply Hne. destruct q, pid; simpl in *; congruence.
Qed.

Lemma step_potential pid c p p' :
  gate_inv p → step c p = Done p' →
  published_for pid p' + slot_free pid p' ≤
    published_for pid p + slot_free pid p + (if expires pid c then 1 else 0).
Proof.
  intros Hinv Hstep. destruct c as [q tok|payload|payload]; simpl in Hstep.
  - inversion Hstep; subst; clear Hstep.
    destruct (pendingPolls p !! q) as [qi|] eqn:Hq.
    { rewrite (EnsurePolling_present q tok p qi) by done. simpl. lia. }
    rewrite EnsurePolling_absent by done. simpl.
    unfold published_for, slot_free. simpl. rewrite filter_app, length_app.
    destruct (decide (q = pid)) as [->|Hne].
    + rewrite lookup_insert_eq, Hq. rewrite filter_cons_True by apply is_for_self.
      simpl. lia.
    + rewrite lookup_insert_ne by done.
      rewrite filter_cons_False by (rewrite is_for_other; done). simpl. lia.
  - unfold OnInitialSyncComplete in Hstep.
    set (q := {| UserID := iscUserID payload; DeviceID := iscDeviceID payload |}) in *.
    assert (Hle : ∀ pi, match <[q:=pi]> (pendingPolls p) !! pid with
                        | Some _ => 0 | None => 1 end ≤ slot_free pid p).
    { intros pi. unfold slot_free. destruct (decide (q = pid)) as [->|Hne].
      - rewrite lookup_insert_eq. lia.
      - by rewrite lookup_insert_ne. }
    destruct (pendingPolls p !! q) as [pending|] eqn:Hq.
    + destruct (done pending).
      { inversion Hstep; subst. lia. }
      destruct (ch pending) as [c|]; simpl in Hstep; [|done].
      case_decide; [done|]. inversion Hstep; subst; clear Hstep.
      unfold published_for at 1, slot_free at 1. simpl.
      specialize (Hle {| done := true; ch := None |}).
      unfold published_for. lia.
    + inversion Hstep; subst; clear Hstep.
      unfold published_for at 1, slot_free at 1. simpl.
      specialize (Hle {| done := true; ch := None |}).
      unfold published_for. lia.
  - unfold OnExpiredToken in Hstep.
    set (q := {| UserID := etUserID payload; DeviceID := etDeviceID payload |}) in *.
    destruct (pendingPolls p !! q) as [pending|] eqn:Hq.
    2:{ inversion Hstep; subst. lia. }
    assert (Hpub : ∀ p1, obind (match ch pending with
                                | Some c => close (Some c) p
                                | None => Done p end)
                   (λ p', Done (set_pendingPolls (delete q (pendingPolls p')) p'))
                 = Done p1 →
              notifier p1 = notifier p ∧
              pendingPolls p1 = delete q (pendingPolls p)).
    { intros p1. destruct (ch pending) as [c|]; simpl.
      - case_decide; simpl; [done|]. intros [= <-]. done.
      - intros [= <-]. done. }
    destruct (Hpub p' Hstep) as [Hn Hm].
    unfold published_for, slot_free. rewrite Hn, Hm.
    destruct (decide (q = pid)) as [E|Hne].
    + assert (expires pid (CallOnExpiredToken payload) = true) as ->.
      { simpl. rewrite bool_decide_eq_true. by rewrite <- E. }
      destruct (delete q (pendingPolls p) !! pid), (pendingPolls p !! pid); lia.
    + rewrite lookup_delete_ne by done. lia.
Qed.

Lemma run_potential pid cs : ∀ p p',
  gate_inv p → run cs p = Done p' →
  published_for pid p' + slot_free pid p' ≤
    published_for pid p + slot_free pid p + expired_for pid cs.
Proof.
  induction cs as [|c cs IH]; intros p p' Hinv Hrun; simpl in Hrun.
  - inversion Hrun; subst. lia.
  - destruct (step_inv c p Hinv) as (p1 & Hstep & Hinv1).
    rewrite Hstep in Hrun. simpl in Hrun.
    pose proof (step_potential pid c p p1 Hinv Hstep) as H1.
    pose proof (IH p1 p' Hinv1 Hrun) as H2.
    unfold expired_for in *. simpl.
    destruct (expires pid c) eqn:He.
    + rewrite filter_cons_True by done. simpl. lia.
    + rewrite filter_cons_False by (rewrite He; done). lia.
Qed.

(** C2: in every gate reached from the empty one, EnsurePolling publishes a
    V3EnsurePolling payload exactly when the device has no slot, and it then
    creates the slot with a fresh channel and waits on it; when a slot
    exists the gate (and so the notifier) is left as it is, the call
    returning at once if the slot is done and waiting on the slot's channel
    otherwise.  Hence the payloads published for a device number at most one
    more than the expiries that deleted its slot. *)
Theorem EnsurePolling_publishes_once (cs : list call) (pid : PollerID)
    (tokenHash : string) :
  ∃ p, run cs NewEnsurePoller = Done p ∧
    match pendingPolls p !! pid with
    | None =>
        notifier (EnsurePolling pid tokenHash p).1 =
          notifier p ++ [ {| V3UserID := UserID pid; V3DeviceID := DeviceID pid;
                             AccessTokenHash := tokenHash |} ] ∧
        pendingPolls (EnsurePolling pid tokenHash p).1 =
          <[pid := {| done := false; ch := Some (made p) |}]> (pendingPolls p) ∧
        (EnsurePolling pid tokenHash p).2 = Some (made p) ∧
        made p ∉ closed p
    | Some pi =>
        (EnsurePolling pid tokenHash p).1 = p ∧
        (EnsurePolling pid tokenHash p).2 = ch pi ∧
        (if done pi then ch pi = None
         else ∃ c, ch pi = Some c ∧ c ∉ closed p)
    end ∧
    published_for pid p ≤ 1 + expired_for pid cs.
Proof.
  destruct (run_inv cs NewEnsurePoller gate_inv_new) as (p & Hrun & Hinv).
  exists p. split; [done|]. split.
  - destruct (pendingPolls p !! pid) as [pi|] eqn:Hpid.
    + rewrite (EnsurePolling_present pid tokenHash p pi) by done. simpl.
      split; [done|]. split; [done|].
      destruct (inv_slot p Hinv pid pi Hpid) as [[-> ?]|[-> (c & ? & ? & ?)]];
        eauto.
    + rewrite EnsurePolling_absent by done. simpl.
      split; [done|]. split; [done|]. split; [done|].
      intros Hc. apply (inv_closed_made p Hinv) in Hc. lia.
  - pose proof (run_potential pid cs _ _ gate_inv_new Hrun) as H.
    unfold published_for at 2, slot_free at 2 in H. simpl in H.
    rewrite lookup_empty in H. lia.
Qed.

End gate.

(** ** Transactions and sessions *)
Section transactions.
Import Sqlutil.

(** C8: once the transaction has begun, WithTransaction never lets a panic
    of the callback through: a panic or a non-nil error of the callback
    makes it call Rollback (and not Commit), leave the database as it was
    and return a non-nil error (the callback's own, or one made from the
    panic value); a nil error of the callback makes it call Commit (and not
    Rollback), and when the commit goes through the callback's writes are
    the new database and the result is nil. *)
Theorem WithTransaction_rolls_back_or_commits {S E : Type} (drv : driver)
    (db : S) (env : E) (fn : callback) :
  begin_err drv = None →
  ∃ e eff, WithTransaction drv db env fn = Done (e, eff) ∧
    env_after eff = (fn env db).1.2 ∧
    match (fn env db).1.1 with
    | Panics v =>
        e = Some ("panic: " +:+ v) ∧ ops eff = [Beginx; Rollback] ∧
        db_after eff = db
    | Returns (Some x) =>
        e = Some x ∧ ops eff = [Beginx; Rollback] ∧ db_after eff = db
    | Returns None =>
        ops eff = [Beginx; Commit] ∧
        match commit_err drv with
        | None => e = None ∧ db_after eff = (fn env db).2
        | Some te =>
            e = Some ("WithTransaction failed to commit/rollback: " +:+ te) ∧
            db_after eff = db
        end
    end.
Proof.
  intros Hb. unfold WithTransaction. rewrite Hb.
  destruct (fn env db) as [[r env'] work]. simpl.
  destruct r as [[x|]|v]; unfold deferred; simpl.
  - destruct (rollback_err drv); simpl; eauto 10.
  - destruct (commit_err drv); simpl; eauto 10.
  - destruct (rollback_err drv); simpl; eauto 10.
Qed.

Lemma WithTransaction_rolls_back_or_commits_witness :
  ∃ e eff,
    WithTransaction (mkDriver None None (Some "conn closed")) 7%Z tt
      (λ env s, (Panics "boom", env, (s + 1)%Z)) = Done (e, eff) ∧
    env_after eff = tt ∧
    e = Some "panic: boom" ∧ ops eff = [Beginx; Rollback] ∧ db_after eff = 7%Z.
Proof.
  apply (WithTransaction_rolls_back_or_commits
           (mkDriver None None (Some "conn closed")) 7%Z tt
           (λ env s, (Panics "boom", env, (s + 1)%Z))).
  reflexivity.
Defined.

(** Without the hypothesis: a failed Beginx never calls the callback. *)
Lemma WithTransaction_begin_fails {S E : Type} (drv : driver) (db : S)
    (env : E) (fn : callback) (x : string) :
  begin_err drv = Some x →
  WithTransaction drv db env fn =
    Done (Some ("WithTransaction.Begin: " +:+ x),
          {| db_after := db; env_after := env; ops := [Beginx] |}).
Proof. intros Hb. unfold WithTransaction. by rewrite Hb. Qed.

End transactions.

Section sessions.
Import Sqlutil Store.

Example NewSession_existing_device :
  NewSession (mkDriver None None None) (mkFaults None None None None)
    {| syncv3_sessions := [];
       syncv3_sessions_v2devices :=
         {[ "dev1" := {| user_id := "@alice:hs"; since := "s42" |} ]};
       syncv3_session_id_seq := 5 |} "dev1"
  = Done (Some {| ID := 5; DeviceID := "dev1"; V2Since := "s42";
                  UserID := "@alice:hs" |},
          None,
          {| syncv3_sessions := [ mkSessionRow 5 "dev1" "" "" ];
             syncv3_sessions_v2devices :=
               {[ "dev1" := {| user_id := "@alice:hs"; since := "s42" |} ]};
             syncv3_session_id_seq := 6 |}).
Proof. reflexivity. Qed.

Example NewSession_new_device :
  NewSession (mkDriver None None None) (mkFaults None None None None)
    {| syncv3_sessions := []; syncv3_sessions_v2devices := ∅;
       syncv3_session_id_seq := 1 |} "dev1"
  = Done (Some {| ID := 1; DeviceID := "dev1"; V2Since := ""; UserID := "" |},
          None,
          {| syncv3_sessions := [ mkSessionRow 1 "dev1" "" "" ];
             syncv3_sessions_v2devices :=
               {[ "dev1" := {| user_id := ""; since := "" |} ]};
             syncv3_session_id_seq := 2 |}).
Proof. reflexivity. Qed.

Local Ltac session_done :=
  repeat match goal with
         | |- _ ∧ _ => split
         | |- match ?m !! ?k with _ => _ end => destruct (m !! k) eqn:?
         end;
  try (intros; simplify_eq/=; eauto; fail);
  try (intros (? & ? & ? & ? & ?); simplify_eq/=; eauto; fail).

(** C7: NewSession never panics.  When the device already has a row in
    syncv3_sessions_v2devices the table is left exactly as it was, whatever
    fails, and any session returned carries that row's since and user id;
    when the device has no row, the table either stays as it was (a
    failure) or gains exactly the row with empty since and user id, and a
    returned session carries empty strings.  When nothing fails a session
    is returned with a nil error. *)
Theorem NewSession_keeps_since (drv : driver) (flt : faults) (db : tables)
    (deviceID : string) :
  ∃ session e db',
    NewSession drv flt db deviceID = Done (session, e, db') ∧
    (no_faults drv flt → is_Some session ∧ e = None) ∧
    match syncv3_sessions_v2devices db !! deviceID with
    | Some row =>
        syncv3_sessions_v2devices db' = syncv3_sessions_v2devices db ∧
        ∀ s, session = Some s →
             V2Since s = since row ∧ UserID s = user_id row ∧
             DeviceID s = deviceID
    | None =>
        (syncv3_sessions_v2devices db' = syncv3_sessions_v2devices db ∨
         syncv3_sessions_v2devices db' =
           <[deviceID := {| user_id := ""; since := "" |}]>
             (syncv3_sessions_v2devices db)) ∧
        (no_faults drv flt →
         syncv3_sessions_v2devices db' =
           <[deviceID := {| user_id := ""; since := "" |}]>
             (syncv3_sessions_v2devices db)) ∧
        ∀ s, session = Some s →
             V2Since s = "" ∧ UserID s = "" ∧ DeviceID s = deviceID
    end.
Proof.
  unfold NewSession, WithTransaction, no_faults.
  destruct (begin_err drv) as [be|] eqn:Hb; simpl.
  { do 3 eexists. split; [done|]. split; [session_done|].
    destruct (_ !! _); session_done. }
  unfold NewSession_fn.
  destruct (insert_session_err flt) as [e1|] eqn:Hflt1; simpl.
  { unfold deferred; simpl. destruct (rollback_err drv); simpl;
      do 3 eexists; (split; [done|]); (split; [session_done|]);
      destruct (_ !! _); session_done. }
  destruct (insert_device_err flt) as [e2|] eqn:Hflt2; simpl.
  { unfold deferred; simpl. destruct (rollback_err drv); simpl;
      do 3 eexists; (split; [done|]); (split; [session_done|]);
      destruct (_ !! _); session_done. }
  unfold insert_device; simpl.
  destruct (syncv3_sessions_v2devices db !! deviceID) as [row|] eqn:Hrow; simpl.
  - rewrite bool_decide_eq_false_2 by (intros [_ ?]; done).
    destruct (select_device_err flt) as [e3|] eqn:Hflt3; simpl.
    { unfold deferred; simpl. destruct (rollback_err drv); simpl;
        do 3 eexists; (split; [done|]); session_done. }
    unfold select_device; simpl. rewrite Hrow.
    unfold deferred; simpl.
    destruct (commit_err drv) as [ce|] eqn:Hc; simpl;
      do 3 eexists; (split; [done|]); session_done.
  - destruct (rows_affected_err flt) as [e4|] eqn:Hflt4.
    + rewrite bool_decide_eq_false_2 by (intros [? _]; done).
      destruct (select_device_err flt) as [e3|] eqn:Hflt3; simpl.
      { unfold deferred; simpl. destruct (rollback_err drv); simpl;
          do 3 eexists; (split; [done|]); session_done. }
      unfold select_device; simpl. rewrite lookup_insert_eq.
      unfold deferred; simpl.
      destruct (commit_err drv) as [ce|] eqn:Hc; simpl;
        do 3 eexists; (split; [done|]); session_done.
    + rewrite bool_decide_eq_true_2 by done.
      unfold deferred; simpl.
      destruct (commit_err drv) as [ce|] eqn:Hc; simpl;
        do 3 eexists; (split; [done|]); session_done.
Qed.

End sessions.

(** ** The global cache *)
Section cache.
Import Json Caches.

Example OnEphemeralEvent_receipt_unknown_room :
  roomIDToMetadata
    (OnEphemeralEvent "!r:hs" (JObj [("type", JStr "m.receipt")])
       (NewGlobalCache true))
    !! "!r:hs"
  = Some (newRoomMetadata "!r:hs").
Proof. reflexivity. Qed.

(** C10: OnEphemeralEvent touches the entry of its room only.  For a room
    without metadata it inserts a fresh entry (room id set, a made map with
    no child spaces, timestamp zero, every other field at its zero value),
    whatever the type of the ephemeral event; for a room with metadata it
    keeps every field but the typing event.  The typing event becomes the
    ephemeral event when the type is m.typing and is kept otherwise. *)
Theorem OnEphemeralEvent_frame (roomID : string) (ephEvent : RawMessage)
    (c : GlobalCache) :
  let c' := OnEphemeralEvent roomID ephEvent c in
  (∀ r, r ≠ roomID → roomIDToMetadata c' !! r = roomIDToMetadata c !! r) ∧
  RemoveInvite_calls c' = RemoveInvite_calls c ∧
  has_store c' = has_store c ∧
  ∃ m', roomIDToMetadata c' !! roomID = Some m' ∧
    match roomIDToMetadata c !! roomID with
    | None =>
        RoomID m' = roomID ∧ ChildSpaceRooms m' = Some ∅ ∧
        LastMessageTimestamp m' = 0%N ∧
        same_but_typing
          (set_ChildSpaceRooms (Some ∅) (set_RoomID roomID zeroRoomMetadata))
          m' ∧
        TypingEvent m' =
          (if decide (Str (Get ["type"] (Some ephEvent)) = "m.typing")
           then Some ephEvent else None)
    | Some m =>
        same_but_typing m m' ∧
        TypingEvent m' =
          (if decide (Str (Get ["type"] (Some ephEvent)) = "m.typing")
           then Some ephEvent else TypingEvent m)
    end.
Proof.
  simpl. split; [|split; [done|split; [done|]]].
  - intros r Hr. unfold OnEphemeralEvent. simpl. by rewrite lookup_insert_ne.
  - unfold OnEphemeralEvent, metadata_of. simpl.
    rewrite lookup_insert_eq. eexists. split; [done|].
    destruct (roomIDToMetadata c !! roomID) as [m|];
      case_decide; unfold same_but_typing; simpl; tauto.
Qed.

(** *** What one call of OnNewEvent leaves behind *)

Lemma OnNewEvent_inv (ed : EventData) (c c' : GlobalCache) :
  OnNewEvent ed c = Done c' →
  ∃ m removed,
    on_event_type (has_store c) ed (metadata_of c (edRoomID ed))
      = Done (m, removed) ∧
    roomIDToMetadata c' !! edRoomID ed =
      Some (set_LastMessageTimestamp (Timestamp ed) m) ∧
    (∀ r, r ≠ edRoomID ed →
          roomIDToMetadata c' !! r = roomIDToMetadata c !! r) ∧
    has_store c' = has_store c ∧
    RemoveInvite_calls c' = RemoveInvite_calls c ++ removed.
Proof.
  unfold OnNewEvent.
  destruct (on_event_type _ _ _) as [[m removed]|msg]; cbn [obind]; [|done].
  intros [= <-]. exists m, removed. cbn.
  rewrite lookup_insert_eq. repeat split; try done.
  intros r Hr. by rewrite lookup_insert_ne.
Qed.

Lemma OnNewEvent_Panic (ed : EventData) (c : GlobalCache) (msg : string) :
  OnNewEvent ed c = Panic msg ↔
  on_event_type (has_store c) ed (metadata_of c (edRoomID ed)) = Panic msg.
Proof.
  unfold OnNewEvent.
  destruct (on_event_type _ _ _) as [[m removed]|msg']; cbn [obind]; [done|].
  split; by intros [= ->].
Qed.

Lemma OnNewEvents_app (eds1 eds2 : list EventData) : ∀ c,
  OnNewEvents (eds1 ++ eds2) c = obind (OnNewEvents eds1 c) (OnNewEvents eds2).
Proof.
  induction eds1 as [|ed eds1 IH]; intros c; cbn [app OnNewEvents]; [done|].
  destruct (OnNewEvent ed c); cbn [obind]; [apply IH|done].
Qed.

(** What the switch does, case by case. *)
Lemma on_event_type_space_child (st : bool) (ed : EventData)
    (m : RoomMetadata) :
  EventType ed = "m.space.child" →
  on_event_type st ed m =
    obind (on_space_child ed m) (λ metadata, Done (metadata, [])).
Proof. intros H. unfold on_event_type. rewrite H. reflexivity. Qed.

Lemma on_event_type_member (st : bool) (ed : EventData) (m : RoomMetadata) :
  EventType ed = "m.room.member" →
  on_event_type st ed m = on_member st ed m.
Proof. intros H. unfold on_event_type. rewrite H. reflexivity. Qed.

Lemma on_event_type_plain (st : bool) (ed : EventData) (m : RoomMetadata) :
  EventType ed ≠ "m.space.child" → EventType ed ≠ "m.room.member" →
  ∃ m', on_event_type st ed m = Done (m', []) ∧
        Heroes m' = Heroes m ∧ JoinCount m' = JoinCount m ∧
        InviteCount m' = InviteCount m ∧
        ChildSpaceRooms m' = ChildSpaceRooms m ∧
        RoomID m' = RoomID m ∧ TypingEvent m' = TypingEvent m ∧
        LastMessageTimestamp m' = LastMessageTimestamp m.
Proof.
  intros Hc Hm. unfold on_event_type, on_create.
  repeat case_decide; try done; eexists; (split; [reflexivity|]);
    repeat case_match; done.
Qed.

Lemma on_space_child_frame (ed : EventData) (m m' : RoomMetadata) :
  on_space_child ed m = Done m' →
  RoomID m' = RoomID m ∧ Heroes m' = Heroes m ∧ NameEvent m' = NameEvent m ∧
  CanonicalAlias m' = CanonicalAlias m ∧ JoinCount m' = JoinCount m ∧
  InviteCount m' = InviteCount m ∧
  LastMessageTimestamp m' = LastMessageTimestamp m ∧
  Encrypted m' = Encrypted m ∧ PredecessorRoomID m' = PredecessorRoomID m ∧
  UpgradedRoomID m' = UpgradedRoomID m ∧ RoomType m' = RoomType m ∧
  TypingEvent m' = TypingEvent m ∧
  (is_Some (ChildSpaceRooms m') ↔ is_Some (ChildSpaceRooms m)).
Proof.
  unfold on_space_child. destruct (StateKey ed) as [k|].
  2:{ by intros [= <-]. }
  destruct (IsArray _); cbn [negb].
  - destruct (ChildSpaceRooms m) as [rooms|] eqn:Hr; [|done].
    intros [= <-]. cbn. repeat split; eauto.
  - intros [= <-]. cbn. repeat split; try done;
      rewrite fmap_is_Some; done.
Qed.



(** *** Startup *)

Lemma Startup_loop_ok (input : gmap string RoomMetadata) (ids : list string) :
  (∀ r, r ∈ ids → ∃ m, input !! r = Some m ∧ plausible m) →
  ∀ cache, ∃ cache',
    Startup_loop input ids cache = Done cache' ∧
    ∀ r, cache' !! r = if decide (r ∈ ids) then input !! r else cache !! r.
Proof.
  induction ids as [|id ids IH]; intros Hids cache; simpl.
  - by exists cache.
  - destruct (Hids id) as (m & Hm & Hid & Hts); [left|].
    unfold index_metadata. rewrite Hm. simpl.
    apply String.eqb_neq in Hid. rewrite Hid. simpl.
    apply N.ltb_lt in Hts. rewrite Hts. simpl.
    destruct (IH (λ r Hr, Hids r (list_elem_of_further _ _ _ Hr))
                 (<[id := m]> cache)) as (cache' & Hrun & Hlook).
    exists cache'. split; [done|]. intros r. rewrite Hlook.
    destruct (decide (r ∈ ids)) as [Hin|Hnin].
    + rewrite decide_True; [done|]. by right.
    + destruct (decide (id = r)) as [->|Hne].
      * rewrite lookup_insert_eq, decide_True; [done|]. left.
      * rewrite lookup_insert_ne by done. rewrite decide_False; [done|].
        rewrite elem_of_cons. intros [?|?]; congruence.
Qed.

Lemma elem_of_sorted_keys (input : gmap string RoomMetadata) (r : string) :
  r ∈ sort_Strings (map_to_list input).*1 ↔ is_Some (input !! r).
Proof.
  unfold sort_Strings. rewrite merge_sort_Permutation, list_elem_of_fmap.
  split.
  - intros ([k m] & -> & Hin). apply elem_of_map_to_list in Hin. eauto.
  - intros [m Hm]. exists (r, m). split; [done|]. by apply elem_of_map_to_list.
Qed.

(** C3, as the code has it: Startup passes both assertions on every input
    map whose entries have a non-empty room id and a last message timestamp
    above 1, it returns a nil error, and afterwards the cache holds the
    given entries over the ones it had; a cache that was empty holds exactly
    the given entries. *)
Theorem Startup_succeeds (input : gmap string RoomMetadata) (c : GlobalCache) :
  (∀ r m, input !! r = Some m → RoomID m ≠ "" ∧ (1 < LastMessageTimestamp m)%N) →
  ∃ c', Startup input c = Done (None, c') ∧
        roomIDToMetadata c' = input ∪ roomIDToMetadata c ∧
        (roomIDToMetadata c = ∅ → roomIDToMetadata c' = input).
Proof.
  intros Hgood. unfold Startup.
  destruct (Startup_loop_ok input (sort_Strings (map_to_list input).*1))
    with (cache := roomIDToMetadata c) as (cache' & Hrun & Hlook).
  { intros r Hr. apply elem_of_sorted_keys in Hr as [m Hm].
    exists m. split; [done|]. by apply (Hgood r). }
  rewrite Hrun. simpl. eexists. split; [done|]. simpl.
  assert (Hunion : cache' = input ∪ roomIDToMetadata c).
  { apply map_eq. intros r. rewrite Hlook, lookup_union.
    destruct (decide (r ∈ _)) as [Hin|Hnin].
    - apply elem_of_sorted_keys in Hin as [m Hm]. rewrite Hm.
      by destruct (roomIDToMetadata c !! r).
    - rewrite elem_of_sorted_keys in Hnin.
      destruct (input !! r) eqn:Hr; [by destruct Hnin; eauto|].
      by destruct (roomIDToMetadata c !! r). }
  split; [done|]. intros Hempty. rewrite Hunion, Hempty.
  by rewrite (right_id ∅ (∪)).
Qed.

Lemma Startup_succeeds_witness :
  ∃ c', Startup {[ "!a:hs" := room_a ]} (NewGlobalCache true) = Done (None, c') ∧
        roomIDToMetadata c' =
          {[ "!a:hs" := room_a ]} ∪ roomIDToMetadata (NewGlobalCache true) ∧
        (roomIDToMetadata (NewGlobalCache true) = ∅ →
         roomIDToMetadata c' = {[ "!a:hs" := room_a ]}).
Proof.
  apply (Startup_succeeds {[ "!a:hs" := room_a ]} (NewGlobalCache true)).
  intros r m Hm. apply lookup_singleton_Some in Hm as [_ <-].
  split; [discriminate|reflexivity].
Defined.

(** C3 as the spec states it fails: a timestamp of 1 is above 0, and the
    second assertion of Startup rejects it. *)
Lemma Startup_timestamp_1_rejected :
  (∀ r m, ({[ "!a:hs" := room_ts1 ]} : gmap string RoomMetadata) !! r = Some m →
          RoomID m ≠ "" ∧ (0 < LastMessageTimestamp m)%N) ∧
  Startup {[ "!a:hs" := room_ts1 ]} (NewGlobalCache true) =
    Panic "assertion failed: last message timestamp exists".
Proof.
  split.
  - intros r m Hm. apply lookup_singleton_Some in Hm as [_ <-].
    split; [discriminate|reflexivity].
  - unfold Startup. rewrite map_to_list_singleton. reflexivity.
Qed.


(** *** Heroes *)

Lemma rename_hero_Some (u n : string) (hs hs' : list Hero) :
  rename_hero u n hs = Some hs' →
  length hs' = length hs ∧ ID <$> hs' = ID <$> hs.
Proof.
  revert hs'. induction hs as [|h hs IH]; intros hs' H; simpl in H; [done|].
  case_decide.
  - inversion H; subst. done.
  - destruct (rename_hero u n hs) as [hs1|]; simpl in H; [|done].
    inversion H; subst. destruct (IH hs1 eq_refl) as [Hl Hi].
    rewrite !fmap_cons, Hi. simpl. by rewrite Hl.
Qed.

Lemma rename_hero_None (u n : string) (hs : list Hero) :
  rename_hero u n hs = None → u ∉ ID <$> hs.
Proof.
  induction hs as [|h hs IH]; intros H; simpl in H.
  - apply not_elem_of_nil.
  - case_decide as Hh; [done|].
    destruct (rename_hero u n hs); [done|].
    rewrite fmap_cons, not_elem_of_cons. split; [congruence|by apply IH].
Qed.

(** The member case in two steps: what runs on a membership change, then
    the update of the heroes. *)
Lemma on_member_inv (st : bool) (ed : EventData) (k : string)
    (m m' : RoomMetadata) (removed : list (string * string)) :
  StateKey ed = Some k →
  on_member st ed m = Done (m', removed) →
  m' =
    let m1 := after_change ed k m in
    if bool_decide (length (Heroes m1) < 6 ∧
                    (membership_of ed = "join" ∨ membership_of ed = "invite"))
    then match rename_hero k (Str (Get ["displayname"] (Content ed)))
                 (Heroes m1) with
         | Some hs => set_Heroes hs m1
         | None =>
             set_Heroes
               (Heroes m1 ++
                [ {| ID := k; Name := Str (Get ["displayname"] (Content ed)) |} ])
               m1
         end
    else m1.
Proof.
  intros Hk. unfold on_member, after_change, membership_of. rewrite Hk.
  destruct (IsMembershipChange _).
  - destruct (bool_decide (_ ∨ _));
      destruct (bool_decide (_ ∧ _ = "invite")); try destruct st;
      cbn [obind]; try done; by intros [= <- <-].
  - cbn [obind]. by intros [= <- <-].
Qed.

Lemma after_change_frame (ed : EventData) (k : string) (m : RoomMetadata) :
  let m1 := after_change ed k m in
  Heroes m1 = heroes_after_change ed k m ∧
  RoomID m1 = RoomID m ∧ NameEvent m1 = NameEvent m ∧
  CanonicalAlias m1 = CanonicalAlias m ∧
  LastMessageTimestamp m1 = LastMessageTimestamp m ∧
  Encrypted m1 = Encrypted m ∧ PredecessorRoomID m1 = PredecessorRoomID m ∧
  UpgradedRoomID m1 = UpgradedRoomID m ∧ RoomType m1 = RoomType m ∧
  ChildSpaceRooms m1 = ChildSpaceRooms m ∧ TypingEvent m1 = TypingEvent m.
Proof.
  unfold after_change, heroes_after_change.
  destruct (IsMembershipChange _); [|done].
  by destruct (bool_decide (_ ∨ _)).
Qed.

Lemma on_member_heroes (st : bool) (ed : EventData) (k : string)
    (m m' : RoomMetadata) (removed : list (string * string)) :
  StateKey ed = Some k →
  on_member st ed m = Done (m', removed) →
  let hs := heroes_after_change ed k m in
  Heroes m' =
    if bool_decide (length hs < 6 ∧
                    (membership_of ed = "join" ∨ membership_of ed = "invite"))
    then match rename_hero k (Str (Get ["displayname"] (Content ed))) hs with
         | Some hs' => hs'
         | None => hs ++ [ {| ID := k; Name := Str (Get ["displayname"] (Content ed)) |} ]
         end
    else hs.
Proof.
  intros Hk Hm. rewrite (on_member_inv st ed k m m' removed Hk Hm).
  destruct (after_change_frame ed k m) as [Hh _]. cbn zeta in *.
  rewrite <- Hh. case_bool_decide; [|done].
  by destruct (rename_hero _ _ _).
Qed.

Lemma on_member_frame (st : bool) (ed : EventData) (m m' : RoomMetadata)
    (removed : list (string * string)) :
  on_member st ed m = Done (m', removed) →
  RoomID m' = RoomID m ∧ NameEvent m' = NameEvent m ∧
  CanonicalAlias m' = CanonicalAlias m ∧
  LastMessageTimestamp m' = LastMessageTimestamp m ∧
  Encrypted m' = Encrypted m ∧ PredecessorRoomID m' = PredecessorRoomID m ∧
  UpgradedRoomID m' = UpgradedRoomID m ∧ RoomType m' = RoomType m ∧
  ChildSpaceRooms m' = ChildSpaceRooms m ∧ TypingEvent m' = TypingEvent m.
Proof.
  destruct (StateKey ed) as [k|] eqn:Hk.
  2:{ unfold on_member. rewrite Hk. by intros [= <- <-]. }
  intros Hm. rewrite (on_member_inv st ed k m m' removed Hk Hm).
  destruct (after_change_frame ed k m)
    as (_ & ? & ? & ? & ? & ? & ? & ? & ? & ? & ?). cbn zeta in *.
  case_bool_decide; [|done]. by destruct (rename_hero _ _ _).
Qed.

Lemma on_event_type_other (st : bool) (ed : EventData) (m m' : RoomMetadata)
    (removed : list (string * string)) :
  EventType ed ≠ "m.room.member" →
  on_event_type st ed m = Done (m', removed) →
  Heroes m' = Heroes m.
Proof.
  intros Hty. destruct (decide (EventType ed = "m.space.child")) as [Hc|Hc].
  - rewrite on_event_type_space_child by done.
    destruct (on_space_child ed m) as [m1|] eqn:H1; cbn [obind]; [|done].
    intros [= <- <-]. apply on_space_child_frame in H1. tauto.
  - destruct (on_event_type_plain st ed m Hc Hty) as (m1 & -> & ? & _).
    by intros [= <- <-].
Qed.

Lemma heroes_after_change_length ed k m :
  length (heroes_after_change ed k m) ≤ length (Heroes m).
Proof.
  unfold heroes_after_change. repeat case_match; try lia. apply length_filter.
Qed.

(** The part that runs on a membership change takes out the user of the
    event, on a leave or a ban, and nobody else. *)
Lemma heroes_after_change_ids ed k m u :
  u ∈ ID <$> heroes_after_change ed k m ↔
  u ∈ hero_ids m ∧
  ¬ (u = k ∧ leave_or_ban ed ∧ IsMembershipChange (Some (Event ed)) = true).
Proof.
  unfold heroes_after_change, hero_ids, leave_or_ban.
  destruct (IsMembershipChange _); [|naive_solver].
  case_bool_decide as Hlb; [|naive_solver].
  rewrite !list_elem_of_fmap. split.
  - intros (h & -> & Hh). apply list_elem_of_filter in Hh as [Hne Hh].
    split; [eauto|]. intros (Hk & _). done.
  - intros [(h & -> & Hh) Hn]. exists h. split; [done|].
    apply list_elem_of_filter. split; [|done]. intros Hk. apply Hn. done.
Qed.

(** One event keeps the bound on the heroes. *)
Lemma on_event_type_length (st : bool) (ed : EventData) (m m' : RoomMetadata)
    (removed : list (string * string)) :
  on_event_type st ed m = Done (m', removed) →
  length (Heroes m) ≤ 6 → length (Heroes m') ≤ 6.
Proof.
  intros Hev Hlen.
  destruct (decide (EventType ed = "m.room.member")) as [Hty|Hty].
  2:{ by rewrite (on_event_type_other st ed m m' removed). }
  rewrite on_event_type_member in Hev by done.
  destruct (StateKey ed) as [k|] eqn:Hk.
  2:{ unfold on_member in Hev. rewrite Hk in Hev. by injection Hev as <- _. }
  rewrite (on_member_heroes st ed k m m' removed Hk Hev). cbn zeta.
  pose proof (heroes_after_change_length ed k m).
  case_bool_decide as Hc; [|lia].
  destruct (rename_hero _ _ _) as [hs'|] eqn:Hr.
  - apply rename_hero_Some in Hr as [-> _]. lia.
  - rewrite length_app. simpl. lia.
Qed.

(** One event and one user: unless the event is a join or an invite of the
    user, the user is a hero after it exactly when they were before and the
    event does not take them out. *)
Lemma on_event_type_hero_iff (st : bool) (ed : EventData)
    (m m' : RoomMetadata) (removed : list (string * string)) (u : string) :
  on_event_type st ed m = Done (m', removed) →
  ¬ joins_or_invites (edRoomID ed) u ed →
  (u ∈ hero_ids m' ↔ u ∈ hero_ids m ∧ ¬ takes_out (edRoomID ed) u ed).
Proof.
  intros Hev Hnj. unfold takes_out, joins_or_invites, member_event_of in *.
  destruct (decide (EventType ed = "m.room.member")) as [Hty|Hty].
  2:{ unfold hero_ids.
      rewrite (on_event_type_other st ed m m' removed Hty Hev).
      rewrite bool_decide_eq_true. naive_solver. }
  rewrite on_event_type_member in Hev by done.
  destruct (StateKey ed) as [k|] eqn:Hk.
  2:{ unfold on_member in Hev. rewrite Hk in Hev. injection Hev as <- _.
      rewrite bool_decide_eq_true. naive_solver. }
  unfold hero_ids at 1.
  rewrite (on_member_heroes st ed k m m' removed Hk Hev). cbn zeta.
  rewrite bool_decide_eq_true in Hnj. rewrite bool_decide_eq_true.
  pose proof (heroes_after_change_ids ed k m u) as Hids.
  destruct (decide (u = k)) as [->|Hne].
  - rewrite bool_decide_eq_false_2.
    2:{ intros [_ Hm]. apply Hnj. done. }
    rewrite Hids. naive_solver.
  - assert (Hsame : u ∈ ID <$> heroes_after_change ed k m ↔ u ∈ hero_ids m)
      by naive_solver.
    assert (Hno : ¬ ((edRoomID ed = edRoomID ed ∧
                      EventType ed = "m.room.member" ∧ Some k = Some u) ∧
                     leave_or_ban ed ∧
                     IsMembershipChange (Some (Event ed)) = true))
      by naive_solver.
    case_bool_decide.
    + destruct (rename_hero _ _ _) as [hs'|] eqn:Hr.
      * apply rename_hero_Some in Hr as [_ ->]. naive_solver.
      * rewrite fmap_app, elem_of_app. cbn.
        rewrite list_elem_of_singleton. naive_solver.
    + naive_solver.
Qed.

Lemma metadata_of_bounded (c : GlobalCache) (r : string) :
  heroes_bounded c → length (Heroes (metadata_of c r)) ≤ 6.
Proof.
  intros Hb. unfold metadata_of.
  destruct (roomIDToMetadata c !! r) as [m|] eqn:Hr; [by eapply Hb|simpl; lia].
Qed.

Lemma metadata_of_heroes (c : GlobalCache) (r : string) :
  hero_ids (metadata_of c r) = heroes_of c r.
Proof.
  unfold metadata_of, heroes_of. by destruct (roomIDToMetadata c !! r).
Qed.

Lemma OnNewEvent_bounded (ed : EventData) (c c' : GlobalCache) :
  heroes_bounded c → OnNewEvent ed c = Done c' → heroes_bounded c'.
Proof.
  intros Hb Hev r m Hm.
  destruct (OnNewEvent_inv ed c c' Hev) as (m1 & rm & Hsw & Hl & Hne & _).
  destruct (decide (r = edRoomID ed)) as [->|Hr].
  - rewrite Hl in Hm. injection Hm as <-. cbn.
    apply (on_event_type_length _ _ _ _ _ Hsw). by apply metadata_of_bounded.
  - rewrite Hne in Hm by done. by eapply Hb.
Qed.

Lemma OnNewEvents_bounded (eds : list EventData) : ∀ c c',
  heroes_bounded c → OnNewEvents eds c = Done c' → heroes_bounded c'.
Proof.
  induction eds as [|ed eds IH]; intros c c' Hb Hev; cbn [OnNewEvents] in Hev.
  - by injection Hev as <-.
  - destruct (OnNewEvent ed c) as [c1|] eqn:H1; cbn [obind] in Hev; [|done].
    apply (IH c1 c'); [|done]. by apply (OnNewEvent_bounded ed c c1).
Qed.

Lemma OnNewEvent_hero_iff (ed : EventData) (c c' : GlobalCache)
    (r u : string) :
  OnNewEvent ed c = Done c' → ¬ joins_or_invites r u ed →
  (u ∈ heroes_of c' r ↔ u ∈ heroes_of c r ∧ ¬ takes_out r u ed).
Proof.
  intros Hev Hnj.
  destruct (OnNewEvent_inv ed c c' Hev) as (m1 & rm & Hsw & Hl & Hne & _).
  destruct (decide (r = edRoomID ed)) as [->|Hr].
  - unfold heroes_of at 1. rewrite Hl.
    change (hero_ids (set_LastMessageTimestamp (Timestamp ed) m1))
      with (hero_ids m1).
    rewrite (on_event_type_hero_iff _ _ _ _ _ u Hsw Hnj).
    by rewrite metadata_of_heroes.
  - unfold heroes_of. rewrite Hne by done.
    unfold takes_out, member_event_of. rewrite bool_decide_eq_true.
    naive_solver.
Qed.

Lemma OnNewEvents_hero_iff (r u : string) (eds : list EventData) : ∀ c c',
  OnNewEvents eds c = Done c' →
  (∀ ed, ed ∈ eds → ¬ joins_or_invites r u ed) →
  (u ∈ heroes_of c' r ↔
   u ∈ heroes_of c r ∧ ∀ ed, ed ∈ eds → ¬ takes_out r u ed).
Proof.
  induction eds as [|ed eds IH]; intros c c' Hev Hnj; cbn [OnNewEvents] in Hev.
  - injection Hev as <-. split; [|tauto].
    intros Hu. split; [done|]. intros ed Hed. by apply elem_of_nil in Hed.
  - destruct (OnNewEvent ed c) as [c1|] eqn:H1; cbn [obind] in Hev; [|done].
    rewrite (IH c1 c' Hev) by (intros e He; apply Hnj; by right).
    rewrite (OnNewEvent_hero_iff ed c c1 r u H1) by (apply Hnj; left).
    split.
    + intros [[Hu Hn] Hall]. split; [done|].
      intros e He. apply elem_of_cons in He as [->|He]; auto.
    + intros [Hu Hall]. split; [split; [done|]|].
      * apply Hall. left.
      * intros e He. apply Hall. by right.
Qed.

(** With a store, a member event never panics. *)
Lemma OnNewEvent_member_Done (ed : EventData) (c : GlobalCache) :
  has_store c = true → EventType ed = "m.room.member" →
  ∃ c', OnNewEvent ed c = Done c' ∧ has_store c' = true.
Proof.
  intros Hst Hty. unfold OnNewEvent. rewrite on_event_type_member by done.
  rewrite Hst. unfold on_member.
  destruct (StateKey ed) as [k|]; [|by eexists].
  destruct (IsMembershipChange _); [|by eexists].
  destruct (bool_decide (_ ∧ _ = "invite")); by eexists.
Qed.

Lemma OnNewEvents_member_Done (eds : list EventData) : ∀ c,
  has_store c = true →
  (∀ ed, ed ∈ eds → EventType ed = "m.room.member") →
  ∃ c', OnNewEvents eds c = Done c'.
Proof.
  induction eds as [|ed eds IH]; intros c Hst Hty; cbn [OnNewEvents].
  - by eexists.
  - destruct (OnNewEvent_member_Done ed c Hst) as (c1 & -> & Hst1).
    { apply Hty. left. }
    cbn [obind]. apply IH; [done|]. intros e He. apply Hty. by right.
Qed.

(** C4, as the code has it.  With a store, a sequence of m.room.member
    events is processed without a panic.  If every room of the cache has at
    most 6 heroes, then after any sequence of events every room still has
    at most 6 heroes.  And a user who, from some point of the sequence on,
    has no join or invite event in a room is among the heroes of the room
    at the end exactly when they were at that point and none of their leave
    or ban events since is a membership change: a leave or a ban takes the
    user out under that guard only, and once out they stay out. *)
Theorem heroes_bound_and_leavers (eds1 eds2 : list EventData)
    (c : GlobalCache) :
  (∀ r m, roomIDToMetadata c !! r = Some m → length (Heroes m) ≤ 6) →
  (has_store c = true →
   (∀ ed, ed ∈ eds1 ++ eds2 → EventType ed = "m.room.member") →
   ∃ c', OnNewEvents (eds1 ++ eds2) c = Done c') ∧
  ∀ c', OnNewEvents (eds1 ++ eds2) c = Done c' →
    (∀ r m, roomIDToMetadata c' !! r = Some m → length (Heroes m) ≤ 6) ∧
    ∃ c1, OnNewEvents eds1 c = Done c1 ∧
      ∀ r u, (∀ ed, ed ∈ eds2 → ¬ joins_or_invites r u ed) →
        (u ∈ heroes_of c' r ↔
         u ∈ heroes_of c1 r ∧ ∀ ed, ed ∈ eds2 → ¬ takes_out r u ed).
Proof.
  intros Hb. split; [intros Hst Hty; by apply OnNewEvents_member_Done|].
  intros c' Hev. split; [by apply (OnNewEvents_bounded (eds1 ++ eds2) c c')|].
  rewrite OnNewEvents_app in Hev.
  destruct (OnNewEvents eds1 c) as [c1|]; cbn [obind] in Hev; [|done].
  exists c1. split; [done|]. intros r u Hnj.
  by apply (OnNewEvents_hero_iff r u eds2 c1 c').
Qed.

Example join_then_leave :
  ∃ c, OnNewEvents [ev_join; ev_leave] (NewGlobalCache true) = Done c ∧
       hero_ids <$> roomIDToMetadata c !! "!r:hs" = Some [].
Proof. eexists. split; reflexivity. Qed.

(** The user joins, leaves, and leaves once more: the second leave is no
    membership change, and the user is out all the same. *)
Example join_leave_leave :
  ∃ c, OnNewEvents [ev_join; ev_leave; ev_leave_again] (NewGlobalCache true)
         = Done c ∧
       heroes_of c "!r:hs" = [].
Proof. eexists. split; reflexivity. Qed.

Lemma heroes_bound_and_leavers_witness :
  (has_store (NewGlobalCache true) = true →
   (∀ ed, ed ∈ [ev_join] ++ [ev_leave; ev_leave_again] →
          EventType ed = "m.room.member") →
   ∃ c', OnNewEvents ([ev_join] ++ [ev_leave; ev_leave_again])
           (NewGlobalCache true) = Done c') ∧
  ∀ c', OnNewEvents ([ev_join] ++ [ev_leave; ev_leave_again])
          (NewGlobalCache true) = Done c' →
    (∀ r m, roomIDToMetadata c' !! r = Some m → length (Heroes m) ≤ 6) ∧
    ∃ c1, OnNewEvents [ev_join] (NewGlobalCache true) = Done c1 ∧
      ∀ r u, (∀ ed, ed ∈ [ev_leave; ev_leave_again] →
                    ¬ joins_or_invites r u ed) →
        (u ∈ heroes_of c' r ↔
         u ∈ heroes_of c1 r ∧
         ∀ ed, ed ∈ [ev_leave; ev_leave_again] → ¬ takes_out r u ed).
Proof.
  apply (heroes_bound_and_leavers [ev_join] [ev_leave; ev_leave_again]
           (NewGlobalCache true)).
  intros r m Hm. simpl in Hm. rewrite lookup_empty in Hm. discriminate.
Defined.

(** C4 as the spec states it fails: the cache starts without heroes, every
    event is an m.room.member event, the latest membership of the user is
    leave, and the user is among the heroes: the leave records leave as the
    previous membership too, so it is no membership change, and RemoveHero
    is not called. *)
Lemma heroes_keep_unchanged_leave :
  (∀ r m, roomIDToMetadata (NewGlobalCache true) !! r = Some m →
          length (Heroes m) ≤ 6 ∧ hero_ids m = []) ∧
  (∀ ed, ed ∈ [ev_join; ev_leave_again] → EventType ed = "m.room.member") ∧
  ∃ c' m ed,
    OnNewEvents [ev_join; ev_leave_again] (NewGlobalCache true) = Done c' ∧
    roomIDToMetadata c' !! "!r:hs" = Some m ∧
    latest_member_event "!r:hs" "@x:hs" [ev_join; ev_leave_again] = Some ed ∧
    membership_of ed = "leave" ∧
    Str (Get ["unsigned"; "prev_content"; "membership"] (Some (Event ed)))
      = "leave" ∧
    IsMembershipChange (Some (Event ed)) = false ∧
    "@x:hs" ∈ hero_ids m.
Proof.
  split; [|split].
  - intros r m Hm. simpl in Hm. rewrite lookup_empty in Hm. discriminate.
  - intros ed Hed. repeat (apply elem_of_cons in Hed as [->|Hed]; [done|]).
    by apply elem_of_nil in Hed.
  - eexists _, _, ev_leave_again. split; [reflexivity|].
    split; [reflexivity|]. split; [reflexivity|]. split; [reflexivity|].
    split; [reflexivity|]. split; [reflexivity|].
    simpl. apply list_elem_of_here.
Qed.

End cache.

(** ** Account data *)
Section account_data.
Import Json Extensions.

Lemma group_by_room_snoc (rows : list AccountData) (ad : AccountData) :
  group_by_room (rows ++ [ad]) = append_room (group_by_room rows) ad.
Proof. unfold group_by_room. by rewrite foldl_snoc. Qed.

(** The grouped rows: a room has an entry when it has a row, and the entry
    is the data of its rows in order. *)
Lemma group_by_room_lookup (rows : list AccountData) (r : string) :
  group_by_room rows !! r =
    match data_of_room r rows with
    | [] => None
    | ds => Some ds
    end.
Proof.
  induction rows as [|ad rows IH] using rev_ind; [done|].
  rewrite group_by_room_snoc. unfold append_room, data_of_room.
  rewrite filter_app, fmap_app.
  fold (data_of_room r rows). destruct (decide (adRoomID ad = r)) as [<-|Hne].
  - rewrite lookup_insert_eq, IH. rewrite filter_cons_True by done.
    rewrite filter_nil. simpl. by destruct (data_of_room _ rows).
  - rewrite lookup_insert_ne by done. rewrite IH.
    rewrite filter_cons_False by done. rewrite filter_nil. simpl.
    by rewrite app_nil_r.
Qed.

Lemma keys_nil_iff {V} (m : gmap string V) :
  (map_to_list m).*1 = [] ↔ m = ∅.
Proof.
  split.
  - intros H. apply map_to_list_empty_iff. by apply fmap_nil_inv in H.
  - intros ->. by rewrite map_to_list_empty.
Qed.

Example ProcessAccountData_initial :
  ProcessAccountData store_one_global ∅ "@a:hs" true (mkAccountDataRequest true)
  = ({| Global := Some [ JObj [("type", JStr "m.push_rules")] ]; Rooms := None |},
     [[]]).
Proof. reflexivity. Qed.

(** C9, as the code has it.  The calls of the store: room account data is
    asked for exactly the room ids of the map, once, whenever the map is not
    empty and whatever [isInitial] is; global account data is asked for
    exactly when [isInitial] is true.  The response: its global part is set
    exactly when [isInitial] is true and that fetch succeeded, and is then
    the data fetched; its rooms part is set exactly when the map is not
    empty and that fetch succeeded, and then holds, for each room, the data
    of the rows fetched for it. *)
Theorem ProcessAccountData_scope (store : Storage)
    (roomIDToTimeline : gmap string (list string)) (userID : string)
    (isInitial : bool) (req : AccountDataRequest) :
  let res := (ProcessAccountData store roomIDToTimeline userID isInitial req).1 in
  let calls := (ProcessAccountData store roomIDToTimeline userID isInitial req).2 in
  let roomIDs := (map_to_list roomIDToTimeline).*1 in
  (NoDup roomIDs ∧ ∀ r, r ∈ roomIDs ↔ is_Some (roomIDToTimeline !! r)) ∧
  calls = (if decide (roomIDToTimeline = ∅) then [] else [roomIDs]) ++
          (if isInitial then [[]] else []) ∧
  Global res =
    (if isInitial then
       match (AccountDatas store userID []).2 with
       | None => Some (Data <$> (AccountDatas store userID []).1)
       | Some _ => None
       end
     else None) ∧
  match Rooms res with
  | Some rooms =>
      roomIDToTimeline ≠ ∅ ∧ (AccountDatas store userID roomIDs).2 = None ∧
      ∀ r, rooms !! r =
           match data_of_room r (AccountDatas store userID roomIDs).1 with
           | [] => None
           | ds => Some ds
           end
  | None =>
      roomIDToTimeline = ∅ ∨ (AccountDatas store userID roomIDs).2 ≠ None
  end.
Proof.
  simpl. split.
  { split; [apply NoDup_fst_map_to_list|]. intros r.
    rewrite list_elem_of_fmap. split.
    - intros ([k v] & -> & Hin). apply elem_of_map_to_list in Hin. eauto.
    - intros [v Hv]. exists (r, v). split; [done|].
      by apply elem_of_map_to_list. }
  unfold ProcessAccountData.
  set (roomIDs := (map_to_list roomIDToTimeline).*1).
  destruct (decide (roomIDToTimeline = ∅)) as [Hempty|Hne].
  - assert (Hnil : roomIDs = []) by (by apply keys_nil_iff).
    rewrite Hnil. simpl.
    destruct isInitial; simpl; [|by repeat split; auto].
    destruct (AccountDatas store userID []) as [g [e|]]; simpl;
      repeat split; auto.
  - assert (Hlen : 0 < length roomIDs).
    { destruct roomIDs eqn:Hr; [|simpl; lia].
      exfalso. apply Hne. by apply keys_nil_iff. }
    rewrite bool_decide_eq_true_2 by done.
    destruct (AccountDatas store userID roomIDs) as [rows [e|]] eqn:Hrows;
      destruct isInitial; simpl;
      try (destruct (AccountDatas store userID []) as [g [e'|]]; simpl);
      repeat split; auto using group_by_room_lookup.
Qed.

(** C9 as the spec states it fails: on an initial request ([isInitial] is
    true) the response has no global account data when the store fails the
    fetch. *)
Lemma ProcessAccountData_initial_store_down :
  Global (ProcessAccountData store_down ∅ "@a:hs" true
            (mkAccountDataRequest true)).1 = None ∧
  (AccountDatas store_down "@a:hs" []).2 = Some "connection refused".
Proof. split; reflexivity. Qed.

End account_data.

(** ** The response and its JSON *)
Section response.
Import Json Sync3.

Example unmarshal_op_sync :
  unmarshal_op (JObj [("op", JStr "SYNC"); ("range", JArr [JNum 0; JNum 9]);
                      ("room_ids", JArr [JStr "!a:hs"; JStr "!b:hs"])])
  = inr (OpRange (mkResponseOpRange "SYNC" (0, 9)%Z ["!a:hs"; "!b:hs"])).
Proof. reflexivity. Qed.

Example unmarshal_op_delete_0 :
  unmarshal_op (JObj [("op", JStr "DELETE"); ("index", JNum 0)])
  = inr (OpSingle (mkResponseOpSingle "DELETE" (Some 0%Z) "")).
Proof. reflexivity. Qed.

Example unmarshal_op_upper_case_key :
  unmarshal_op (JObj [("OP", JStr "INSERT"); ("Index", JNum 3);
                      ("room_id", JStr "!a:hs")])
  = inr (OpSingle (mkResponseOpSingle "INSERT" (Some 3%Z) "!a:hs")).
Proof. reflexivity. Qed.

Example unmarshal_op_bad_range :
  unmarshal_op (JObj [("op", JStr "SYNC"); ("range", JStr "0-9")])
  = inl "json: cannot unmarshal into Go value of type [2]int64".
Proof. reflexivity. Qed.

Example marshal_insert_0 :
  Marshal_ResponseOp (OpSingle (mkResponseOpSingle "INSERT" (Some 0%Z) "!a:hs"))
  = JObj [("op", JStr "INSERT"); ("index", JNum 0); ("room_id", JStr "!a:hs")].
Proof. reflexivity. Qed.

Example marshal_no_index :
  Marshal_ResponseOp (OpSingle (mkResponseOpSingle "DELETE" None ""))
  = JObj [("op", JStr "DELETE")].
Proof. reflexivity. Qed.

Example roundtrip_response :
  let r := {| Lists := {[ "a" := mkResponseList
                 [ OpSingle (mkResponseOpSingle "DELETE" (Some 0%Z) "");
                   OpRange (mkResponseOpRange "SYNC" (0, 1)%Z ["!a:hs"]) ] 2 ]};
              Rooms := JObj []; Extensions := JObj []; Pos := "5"; TxnID := "" |} in
  UnmarshalJSON (Marshal_Response r) = inr r.
Proof. vm_compute. reflexivity. Qed.

(** *** Ops: marshalling and unmarshalling again *)

Lemma unmarshal_strings_JStr (ids : list string) :
  unmarshal_strings [] (JStr <$> ids) = inr ids.
Proof.
  induction ids as [|x ids IH]; [done|].
  rewrite fmap_cons. simpl. simpl in IH. by rewrite IH.
Qed.

Lemma ResponseOpRange_field_op v o :
  ResponseOpRange_field "op" v o =
    dbind (unmarshal_string (rOperation o) v) (λ x,
      inr (mkResponseOpRange x (Range o) (RoomIDs o))).
Proof. reflexivity. Qed.

Lemma ResponseOpRange_field_range v o :
  ResponseOpRange_field "range" v o =
    dbind (unmarshal_range (Range o) v) (λ x,
      inr (mkResponseOpRange (rOperation o) x (RoomIDs o))).
Proof. reflexivity. Qed.

Lemma ResponseOpRange_field_room_ids v o :
  ResponseOpRange_field "room_ids" v o =
    dbind (unmarshal_string_slice (RoomIDs o) v) (λ x,
      inr (mkResponseOpRange (rOperation o) (Range o) x)).
Proof. reflexivity. Qed.

Lemma ResponseOpSingle_field_op v o :
  ResponseOpSingle_field "op" v o =
    dbind (unmarshal_string (sOperation o) v) (λ x,
      inr (mkResponseOpSingle x (Index o) (RoomID o))).
Proof. reflexivity. Qed.

Lemma ResponseOpSingle_field_index v o :
  ResponseOpSingle_field "index" v o =
    dbind (unmarshal_int_ptr (Index o) v) (λ x,
      inr (mkResponseOpSingle (sOperation o) x (RoomID o))).
Proof. reflexivity. Qed.

Lemma ResponseOpSingle_field_room_id v o :
  ResponseOpSingle_field "room_id" v o =
    dbind (unmarshal_string (RoomID o) v) (λ x,
      inr (mkResponseOpSingle (sOperation o) (Index o) x)).
Proof. reflexivity. Qed.

Lemma Unmarshal_ResponseOpRange_Marshal (r : ResponseOpRange) :
  int64_ok (Range r).1 = true → int64_ok (Range r).2 = true →
  Unmarshal_ResponseOpRange (Marshal_ResponseOpRange r) = inr r.
Proof.
  destruct r as [op [lo hi] ids]. cbn [Range fst snd]. intros Hlo Hhi.
  unfold Unmarshal_ResponseOpRange, Marshal_ResponseOpRange, unmarshal_struct.
  cbn [rOperation Range RoomIDs fst snd]. rewrite foldl_app. cbn [foldl].
  cbn [dbind]. rewrite ResponseOpRange_field_op. cbn [unmarshal_string dbind].
  rewrite ResponseOpRange_field_range.
  cbn [unmarshal_range unmarshal_int dbind rOperation Range RoomIDs fst snd].
  rewrite Hlo. cbn [dbind]. rewrite Hhi. cbn [dbind].
  destruct ids as [|x ids]; [done|]. cbn [foldl dbind].
  rewrite ResponseOpRange_field_room_ids.
  cbn [unmarshal_string_slice rOperation Range RoomIDs].
  by rewrite unmarshal_strings_JStr.
Qed.

Lemma Unmarshal_ResponseOpSingle_Marshal (o : ResponseOpSingle) :
  (∀ i, Index o = Some i → int64_ok i = true) →
  Unmarshal_ResponseOpSingle (Marshal_ResponseOpSingle o) = inr o.
Proof.
  destruct o as [op idx rid]. cbn [Index]. intros Hidx.
  unfold Unmarshal_ResponseOpSingle, Marshal_ResponseOpSingle, unmarshal_struct.
  cbn [sOperation Index RoomID]. rewrite !foldl_app. cbn [foldl dbind].
  rewrite ResponseOpSingle_field_op. cbn [unmarshal_string dbind].
  assert (Hidx' :
    foldl (λ acc '(k, x), dbind acc (ResponseOpSingle_field k x))
      (inr (mkResponseOpSingle op None ""))
      match idx with Some i => [("index", JNum i)] | None => [] end
    = inr (mkResponseOpSingle op idx "")).
  { destruct idx as [i|]; [|done]. cbn [foldl dbind].
    rewrite ResponseOpSingle_field_index.
    cbn [unmarshal_int_ptr unmarshal_int dbind Index].
    by rewrite (Hidx i eq_refl). }
  cbn [zeroResponseOpSingle sOperation Index RoomID]. rewrite Hidx'.
  case_decide as Hrid; [by subst|]. cbn [foldl dbind].
  by rewrite ResponseOpSingle_field_room_id.
Qed.

Lemma Marshal_ResponseOp_range (o : ResponseOp) :
  Exists (Get ["range"] (Some (Marshal_ResponseOp o))) = is_range o.
Proof.
  destruct o as [r|s]; simpl; [done|].
  destruct (Index s); case_decide; done.
Qed.

Lemma unmarshal_op_Marshal (o : ResponseOp) :
  op_fits o → unmarshal_op (Marshal_ResponseOp o) = inr o.
Proof.
  intros Hfit. unfold unmarshal_op. rewrite Marshal_ResponseOp_range.
  destruct o as [r|s]; cbn [is_range Marshal_ResponseOp op_fits] in *.
  - destruct Hfit as [Hlo Hhi].
    by rewrite Unmarshal_ResponseOpRange_Marshal.
  - by rewrite Unmarshal_ResponseOpSingle_Marshal.
Qed.

Lemma unmarshal_ops_Marshal (ops : list ResponseOp) :
  Forall op_fits ops → unmarshal_ops (Marshal_ResponseOp <$> ops) = inr ops.
Proof.
  induction 1 as [|o ops Ho _ IH]; [done|].
  rewrite fmap_cons. cbn [unmarshal_ops].
  rewrite unmarshal_op_Marshal by done. cbn [dbind]. by rewrite IH.
Qed.

(** What unmarshalling discriminates on. *)
Lemma unmarshal_op_kind (op : RawMessage) (o : ResponseOp) :
  unmarshal_op op = inr o → is_range o = Exists (Get ["range"] (Some op)).
Proof.
  unfold unmarshal_op. destruct (Exists _).
  - destruct (Unmarshal_ResponseOpRange op); simpl; [done|]. by intros [= <-].
  - destruct (Unmarshal_ResponseOpSingle op); simpl; [done|]. by intros [= <-].
Qed.

Lemma unmarshal_ops_kind (ops : list RawMessage) : ∀ os,
  unmarshal_ops ops = inr os →
  Forall2 (λ op o, unmarshal_op op = inr o ∧
                   is_range o = Exists (Get ["range"] (Some op))) ops os.
Proof.
  induction ops as [|op ops IH]; intros os H; simpl in H.
  - inversion H. constructor.
  - destruct (unmarshal_op op) as [e|o] eqn:Ho; simpl in H; [done|].
    destruct (unmarshal_ops ops) as [e|os'] eqn:Hos; simpl in H; [done|].
    inversion H; subst. constructor; [|by apply IH].
    split; [done|]. by apply unmarshal_op_kind.
Qed.

(** *** Maps filled member by member *)

Lemma foldl_insert_decoded_inl {A B} (dec : A → decoded B)
    (ps : list (string * A)) (e : string) :
  foldl (insert_decoded dec) (inl e) ps = inl e.
Proof. induction ps as [|p ps IH]; [done|]. simpl. apply IH. Qed.

Lemma foldl_insert_decoded {A B} (dec : A → decoded B) (g : A → B)
    (ps : list (string * A)) :
  NoDup ps.*1 → (∀ k a, (k, a) ∈ ps → dec a = inr (g a)) →
  ∀ m0, foldl (insert_decoded dec) (inr m0) ps =
        inr (list_to_map (prod_map id g <$> ps) ∪ m0).
Proof.
  induction ps as [|[k a] ps IH]; intros Hnd Hdec m0.
  - simpl. by rewrite (left_id ∅ (∪)).
  - rewrite fmap_cons in Hnd. apply NoDup_cons in Hnd as [Hk Hnd].
    cbn [foldl]. unfold insert_decoded at 2. cbn [dbind fst snd].
    rewrite (Hdec k a) by left. cbn [dbind].
    rewrite IH; [|done|intros k' a' ?; apply (Hdec k' a'); by right].
    f_equal. rewrite fmap_cons. cbn [prod_map fst snd id].
    rewrite list_to_map_cons, <- insert_union_l. symmetry.
    apply insert_union_r. apply not_elem_of_list_to_map_1.
    rewrite <- list_fmap_compose.
    by replace (fst ∘ prod_map id g) with (@fst string A) by done.
Qed.

Lemma foldl_insert_decoded_inr {A B} (dec : A → decoded B)
    (ps : list (string * A)) : ∀ m0 m,
  foldl (insert_decoded dec) (inr m0) ps = inr m →
  ∀ k a, (k, a) ∈ ps → ∃ b, dec a = inr b.
Proof.
  induction ps as [|[k a] ps IH]; intros m0 m H k' a' Hin.
  - by apply elem_of_nil in Hin.
  - cbn [foldl] in H. unfold insert_decoded at 2 in H. cbn [dbind fst snd] in H.
    destruct (dec a) as [e|b] eqn:Ha; cbn [dbind] in H.
    { by rewrite foldl_insert_decoded_inl in H. }
    apply elem_of_cons in Hin as [[= -> ->]|Hin]; [eauto|].
    by eapply IH.
Qed.

(** A map decoded member by member from the list of a map. *)
Lemma foldl_insert_decoded_map {A B} (dec : A → decoded B) (zero : B)
    (m : gmap string A) (ps : list (string * A)) (out : gmap string B) :
  ps ≡ₚ map_to_list m →
  foldl (insert_decoded dec) (inr ∅) ps = inr out →
  ∀ k, out !! k = (λ a, value_or zero (dec a)) <$> m !! k.
Proof.
  intros Hperm Hfold k.
  assert (Hnd : NoDup ps.*1).
  { rewrite Hperm. apply NoDup_fst_map_to_list. }
  assert (Hall : ∀ k' a, (k', a) ∈ ps → dec a = inr (value_or zero (dec a))).
  { intros k' a Hin.
    destruct (foldl_insert_decoded_inr dec ps ∅ out Hfold k' a Hin) as [b ->].
    done. }
  rewrite (foldl_insert_decoded dec (λ a, value_or zero (dec a))) in Hfold
    by done.
  inversion Hfold; subst. rewrite (right_id ∅ (∪)), list_to_map_fmap.
  rewrite lookup_fmap. f_equal.
  rewrite (list_to_map_proper ps (map_to_list m)) by done.
  by rewrite list_to_map_to_list.
Qed.

(** *** Lists and the whole response *)

Lemma temporary_list_field_ops v l :
  temporary_list_field "ops" v l =
    match v with
    | JNull => inr (mkTemporaryList [] (tCount l))
    | JArr ops => inr (mkTemporaryList ops (tCount l))
    | _ => inl "json: cannot unmarshal into Go value of type []json.RawMessage"
    end.
Proof. reflexivity. Qed.

Lemma temporary_list_field_count v l :
  temporary_list_field "count" v l =
    dbind (unmarshal_int (tCount l) v) (λ x, inr (mkTemporaryList (tOps l) x)).
Proof. reflexivity. Qed.

Lemma unmarshal_temporary_list_Marshal (l : ResponseList) :
  int64_ok (Count l) = true →
  unmarshal_temporary_list (Marshal_ResponseList l) = inr (to_temporary l).
Proof.
  destruct l as [ops n]. cbn [Count]. intros Hn.
  unfold unmarshal_temporary_list, Marshal_ResponseList, unmarshal_struct,
    to_temporary.
  cbn [Ops Count].
  destruct ops as [|o ops]; cbn [app foldl dbind];
    rewrite ?temporary_list_field_ops; cbn [dbind];
    rewrite temporary_list_field_count;
    cbn [unmarshal_int dbind tCount tOps]; by rewrite Hn.
Qed.

Lemma unmarshal_list_to_temporary (l : ResponseList) :
  list_fits l → unmarshal_list (to_temporary l) = inr l.
Proof.
  intros [_ Hops]. unfold unmarshal_list, to_temporary. cbn [tOps tCount].
  rewrite unmarshal_ops_Marshal by done. by destruct l.
Qed.

Lemma unmarshal_lists_Marshal (m : gmap string ResponseList) :
  (∀ k l, m !! k = Some l → list_fits l) →
  unmarshal_lists ∅
    (JObj (merge_sort key_le
             (prod_map id Marshal_ResponseList <$> map_to_list m)))
  = inr (to_temporary <$> m).
Proof.
  intros Hfit. cbn [unmarshal_lists].
  set (ps := merge_sort key_le _).
  assert (Hperm : ps ≡ₚ prod_map id Marshal_ResponseList <$> map_to_list m)
    by apply merge_sort_Permutation.
  assert (Hkeys : ps.*1 ≡ₚ (map_to_list m).*1).
  { rewrite Hperm, <- list_fmap_compose.
    by replace (fst ∘ prod_map id Marshal_ResponseList)
      with (@fst string ResponseList) by done. }
  rewrite (foldl_insert_decoded unmarshal_temporary_list
             (λ v, value_or (mkTemporaryList [] 0) (unmarshal_temporary_list v))).
  - f_equal. rewrite (right_id ∅ (∪)), list_to_map_fmap.
    rewrite (list_to_map_proper ps _) by (by rewrite ?Hkeys;
      try apply NoDup_fst_map_to_list).
    rewrite list_to_map_fmap, list_to_map_to_list, <- map_fmap_compose.
    apply map_fmap_ext. intros k l Hl. unfold compose. cbn beta.
    rewrite unmarshal_temporary_list_Marshal; [done|].
    by destruct (Hfit k l Hl).
  - rewrite Hkeys. apply NoDup_fst_map_to_list.
  - intros k v Hin. rewrite Hperm in Hin.
    apply list_elem_of_fmap in Hin as ([k' l] & [= -> ->] & Hin).
    apply elem_of_map_to_list in Hin. cbn beta.
    rewrite unmarshal_temporary_list_Marshal; [done|].
    by destruct (Hfit k' l Hin).
Qed.

Lemma unmarshal_all_lists_to_temporary (m : gmap string ResponseList) :
  (∀ k l, m !! k = Some l → list_fits l) →
  unmarshal_all_lists (to_temporary <$> m) = inr m.
Proof.
  intros Hfit. unfold unmarshal_all_lists.
  rewrite (foldl_insert_decoded unmarshal_list
             (λ t, value_or (mkResponseList [] 0) (unmarshal_list t))).
  - f_equal. rewrite (right_id ∅ (∪)), list_to_map_fmap, list_to_map_to_list.
    rewrite <- map_fmap_compose.
    transitivity (id <$> m); [|apply map_fmap_id].
    apply map_fmap_ext. intros k l Hl. unfold compose. cbn beta.
    by rewrite unmarshal_list_to_temporary by by eapply Hfit.
  - apply NoDup_fst_map_to_list.
  - intros k t Hin. apply elem_of_map_to_list in Hin.
    rewrite lookup_fmap in Hin.
    destruct (m !! k) as [l|] eqn:Hl; [|done]. simpl in Hin.
    inversion Hin; subst.
    by rewrite unmarshal_list_to_temporary by by eapply Hfit.
Qed.

Lemma temporary_field_lists v t :
  temporary_field "lists" v t =
    dbind (unmarshal_lists (tLists t) v) (λ x,
      inr (mkTemporary (tRooms t) x (tExtensions t) (tPos t) (tTxnID t))).
Proof. reflexivity. Qed.

Lemma temporary_field_rooms v t :
  temporary_field "rooms" v t =
    inr (mkTemporary v (tLists t) (tExtensions t) (tPos t) (tTxnID t)).
Proof. reflexivity. Qed.

Lemma temporary_field_extensions v t :
  temporary_field "extensions" v t =
    inr (mkTemporary (tRooms t) (tLists t) v (tPos t) (tTxnID t)).
Proof. reflexivity. Qed.

Lemma temporary_field_pos v t :
  temporary_field "pos" v t =
    dbind (unmarshal_string (tPos t) v) (λ x,
      inr (mkTemporary (tRooms t) (tLists t) (tExtensions t) x (tTxnID t))).
Proof. reflexivity. Qed.

Lemma temporary_field_txn_id v t :
  temporary_field "txn_id" v t =
    dbind (unmarshal_string (tTxnID t) v) (λ x,
      inr (mkTemporary (tRooms t) (tLists t) (tExtensions t) (tPos t) x)).
Proof. reflexivity. Qed.

Lemma Unmarshal_temporary_Marshal (r : Response) :
  response_fits r →
  Unmarshal_temporary (Marshal_Response r) =
    inr (mkTemporary (Rooms r) (to_temporary <$> Lists r) (Extensions r)
           (Pos r) (TxnID r)).
Proof.
  intros Hfit. unfold Unmarshal_temporary, Marshal_Response, unmarshal_struct.
  rewrite foldl_app. cbn [foldl dbind].
  rewrite temporary_field_lists. cbn [zero_temporary tLists].
  rewrite unmarshal_lists_Marshal by done. cbn [dbind].
  rewrite temporary_field_rooms. cbn [dbind].
  rewrite temporary_field_extensions. cbn [dbind].
  rewrite temporary_field_pos.
  cbn [unmarshal_string dbind tRooms tLists tExtensions tPos tTxnID].
  case_decide as Htxn; [by rewrite Htxn|]. cbn [foldl dbind].
  by rewrite temporary_field_txn_id.
Qed.

Lemma UnmarshalJSON_Marshal (r : Response) :
  response_fits r → UnmarshalJSON (Marshal_Response r) = inr r.
Proof.
  intros Hfit. unfold UnmarshalJSON.
  rewrite Unmarshal_temporary_Marshal by done. cbn [dbind tLists].
  rewrite unmarshal_all_lists_to_temporary by done. by destruct r.
Qed.

(** The ops a successful UnmarshalJSON leaves are, one for one, the raw ops
    it was given, each decoded as the presence of [range] says. *)
Lemma UnmarshalJSON_kinds (b : json) (r : Response) (k : string)
    (l : ResponseList) :
  UnmarshalJSON b = inr r → Lists r !! k = Some l →
  ∃ raws, raw_ops b k = Some raws ∧
    Forall2 (λ op o, unmarshal_op op = inr o ∧
                     is_range o = Exists (Get ["range"] (Some op)))
            raws (Ops l).
Proof.
  unfold UnmarshalJSON, raw_ops.
  destruct (Unmarshal_temporary b) as [e|t]; cbn [dbind]; [done|].
  destruct (unmarshal_all_lists (tLists t)) as [e|lists] eqn:Hall;
    cbn [dbind]; [done|].
  intros [= <-]. cbn [Lists]. intros Hl.
  pose proof (foldl_insert_decoded_map unmarshal_list (mkResponseList [] 0)
                (tLists t) (map_to_list (tLists t)) lists
                (reflexivity _) Hall k) as Hk.
  rewrite Hl in Hk. destruct (tLists t !! k) as [tl|] eqn:Htl; [|done].
  exists (tOps tl). split; [done|]. simpl in Hk. inversion Hk as [Hk'].
  assert (∃ l', unmarshal_list tl = inr l') as [l' Hl'].
  { eapply (foldl_insert_decoded_inr unmarshal_list _ _ _ Hall k).
    by apply elem_of_map_to_list. }
  rewrite Hl'. cbn [value_or]. unfold unmarshal_list in Hl'.
  destruct (unmarshal_ops (tOps tl)) as [e|ops] eqn:Hops; cbn [dbind] in Hl';
    [done|].
  inversion Hl'; subst. cbn [Ops]. by apply unmarshal_ops_kind.
Qed.

Lemma Marshal_ResponseOpSingle_index (o : ResponseOpSingle) :
  Get ["index"] (Some (Marshal_ResponseOpSingle o)) = JNum <$> Index o.
Proof.
  unfold Marshal_ResponseOpSingle. cbn [Get member app].
  rewrite decide_False by done.
  destruct (Index o) as [i|]; cbn [app member fmap option_fmap option_map].
  - by rewrite decide_True.
  - case_decide; [done|]. cbn [member]. by rewrite decide_False.
Qed.

(** C6: whenever UnmarshalJSON succeeds, the ops of each list are, one for
    one, the raw ops of that list, and an op is a range op exactly when its
    raw object has a [range] member (it is a single op when it has none);
    each raw op is handed to the decoder of that type.  Marshalling any
    response (whose ints fit their Go types, as every Go value does) and
    unmarshalling the result gives the response back, so a single op whose
    Index points at 0 comes back with an Index that points at 0.  A single
    op is written with an [index] member exactly when its Index is not nil,
    and the member then holds the number pointed at, 0 included. *)
Theorem Response_ops_by_range_and_index_kept :
  (∀ b r k l, UnmarshalJSON b = inr r → Lists r !! k = Some l →
     ∃ raws, raw_ops b k = Some raws ∧
       Forall2 (λ op o, is_range o = Exists (Get ["range"] (Some op)))
               raws (Ops l)) ∧
  (∀ op,
     unmarshal_op op =
       if Exists (Get ["range"] (Some op))
       then dbind (Unmarshal_ResponseOpRange op) (λ o, inr (OpRange o))
       else dbind (Unmarshal_ResponseOpSingle op) (λ o, inr (OpSingle o))) ∧
  (∀ r, response_fits r → UnmarshalJSON (Marshal_Response r) = inr r) ∧
  (∀ op roomID,
     unmarshal_op (Marshal_ResponseOp
                     (OpSingle (mkResponseOpSingle op (Some 0%Z) roomID)))
     = inr (OpSingle (mkResponseOpSingle op (Some 0%Z) roomID))) ∧
  (∀ o, Get ["index"] (Some (Marshal_ResponseOpSingle o)) = JNum <$> Index o).
Proof.
  split; [|split; [|split; [|split]]].
  - intros b r k l Hb Hl.
    destruct (UnmarshalJSON_kinds b r k l Hb Hl) as (raws & Hraws & Hall).
    exists raws. split; [done|].
    eapply Forall2_impl; [exact Hall|]. by intros op o [_ ?].
  - done.
  - apply UnmarshalJSON_Marshal.
  - intros op roomID. apply unmarshal_op_Marshal. intros i [= <-]. done.
  - apply Marshal_ResponseOpSingle_index.
Qed.

End response.

(** ** Chunkify and Chunkify2 *)
Section chunks.
Import Chunks.
Context {T : Type}.
Local Open Scope Z_scope.

Lemma wrap64_int (z : Z) : is_int z → wrap64 z = z.
Proof.
  unfold is_int, wrap64. intros Hz.
  rewrite Z.mod_small by lia. lia.
Qed.

Lemma len_nonneg (l : list T) : 0 ≤ len l.
Proof. unfold len. lia. Qed.

Lemma len_app (l k : list T) : len (l ++ k) = len l + len k.
Proof. unfold len. rewrite length_app. lia. Qed.

Example Chunkify2_seven_by_three :
  Chunkify2 10 2 6 [1; 2; 3; 4; 5; 6; 7]%nat
  = Some (Done [[1; 2; 3]; [4; 5; 6]; [7]]%nat).
Proof. reflexivity. Qed.

Example Chunkify2_small :
  Chunkify2 0 3 65535 [1; 2; 3]%nat = Some (Done [[1; 2; 3]]%nat).
Proof. reflexivity. Qed.

(** The loop from index [i]: with a positive chunk size and enough fuel it
    ends, and the chunks it adds are the rest of the entries cut into pieces
    of the chunk size, the last one possibly shorter. *)
Lemma Chunkify2_loop_ok (per : Z) (entries : list T) :
  0 < per → len entries + per < 2 ^ 63 →
  ∀ fuel i chunks,
    0 ≤ i → i < len entries + per → (Z.to_nat (len entries - i) < fuel)%nat →
    ∃ rest,
      Chunkify2_loop fuel per entries i chunks = Some (Done (chunks ++ rest)) ∧
      concat rest = drop (Z.to_nat i) entries ∧
      Forall (λ c : list T, 0 < len c ≤ per) rest ∧
      Z.of_nat (length rest) = (len entries - i + per - 1) / per.
Proof.
  intros Hper Hbound fuel.
  induction fuel as [|fuel IH]; intros i chunks Hi Hi' Hfuel; [lia|].
  cbn [Chunkify2_loop]. pose proof (len_nonneg entries) as Hlen.
  destruct (i <? len entries) eqn:Hlt.
  - apply Z.ltb_lt in Hlt.
    rewrite wrap64_int by (unfold is_int; lia).
    set (j := if i + per >? len entries then len entries else i + per).
    assert (Hj : i < j ∧ j ≤ len entries ∧ j ≤ i + per ∧
                 (j = i + per ∨ (j = len entries ∧ len entries < i + per))).
    { unfold j. destruct (i + per >? len entries) eqn:Hgt.
      - apply Z.gtb_lt in Hgt. lia.
      - rewrite Z.gtb_ltb in Hgt. apply Z.ltb_ge in Hgt. lia. }
    unfold slice. rewrite bool_decide_eq_true_2 by lia.
    destruct (IH (i + per)
                (chunks ++ [take (Z.to_nat (j - i)) (drop (Z.to_nat i) entries)]))
      as (rest & Hrun & Hcat & Hall & Hcount); [lia|lia|lia|].
    eexists (_ :: rest). split; [|split; [|split]].
    + rewrite Hrun. by rewrite <- app_assoc.
    + cbn [concat]. rewrite Hcat.
      destruct Hj as (? & ? & ? & [Hj|[Hj ?]]).
      * rewrite Hj. replace (i + per - i) with per by lia.
        replace (Z.to_nat (i + per)) with (Z.to_nat i + Z.to_nat per)%nat by lia.
        rewrite <- drop_drop. apply take_drop.
      * rewrite (drop_ge entries (Z.to_nat (i + per))) by (unfold len in *; lia).
        rewrite app_nil_r. apply take_ge. rewrite length_drop.
        unfold len in *. lia.
    + constructor; [|done]. unfold len at 1 2.
      rewrite length_take, length_drop. unfold len in *. lia.
    + cbn [length]. rewrite Nat2Z.inj_succ, Hcount.
      replace (len entries - i + per - 1) with (len entries - i - 1 + 1 * per)
        by lia.
      rewrite Z.div_add by lia.
      replace (len entries - (i + per) + per - 1) with (len entries - i - 1)
        by lia. lia.
  - apply Z.ltb_ge in Hlt. exists []. rewrite app_nil_r.
    split; [done|]. split.
    + cbn [concat]. symmetry. apply drop_ge. unfold len in *. lia.
    + split; [constructor|]. cbn [length].
      symmetry. apply Z.div_small. lia.
Qed.

(** The chunk size Chunkify2 computes when one call is not enough. *)
Lemma quotient_chunk_size (n max : Z) (entries : list T) :
  chunkable n max entries →
  quotient max n = Done (max / n) ∧ 0 < max / n ∧ max / n * n ≤ max ∧
  len entries + max / n < 2 ^ 63.
Proof.
  intros ([Hn Hmax] & Hprod & Hsum). pose proof (len_nonneg entries).
  assert (Hq : 0 < max / n) by (apply Z.div_str_pos; lia).
  assert (Hle : max / n ≤ max) by (apply Z.div_le_upper_bound; nia).
  unfold quotient. rewrite (proj2 (Z.eqb_neq n 0)) by lia.
  rewrite Z.quot_div_nonneg by lia.
  rewrite wrap64_int by (unfold is_int; lia).
  split; [done|]. split; [done|]. split; [|lia].
  rewrite Z.mul_comm. apply Z.mul_div_le. lia.
Qed.

(** X1: when an entry fits a call (0 < numParamsPerStmt <= maxParamsPerCall)
    and nothing overflows, Chunkify2 ends within len(entries) + 1 iterations
    without a panic, and the chunks put end to end are the entries: nothing
    is lost, repeated or reordered. *)
Theorem Chunkify2_concat (n max : Z) (entries : list T) :
  chunkable n max entries →
  ∃ chunks, Chunkify2 (S (length entries)) n max entries = Some (Done chunks) ∧
            concat chunks = entries.
Proof.
  intros Hc. unfold Chunkify2.
  destruct (quotient_chunk_size n max entries Hc) as (Hq & Hpos & _ & Hb).
  destruct (_ <=? _).
  - exists [entries]. split; [done|]. cbn [concat]. apply app_nil_r.
  - rewrite Hq.
    destruct (Chunkify2_loop_ok (max / n) entries Hpos Hb
                (S (length entries)) 0 []) as (rest & Hrun & Hcat & _);
      [lia|pose proof (len_nonneg entries); lia|unfold len; lia|].
    exists rest. by split.
Qed.

(** X2: under the same conditions every chunk fits a call: its entries need
    at most maxParamsPerCall parameters. *)
Theorem Chunkify2_chunks_fit (n max : Z) (entries : list T) :
  chunkable n max entries →
  ∃ chunks, Chunkify2 (S (length entries)) n max entries = Some (Done chunks) ∧
            Forall (λ chunk, params n chunk ≤ max) chunks.
Proof.
  intros Hc. unfold Chunkify2.
  destruct (quotient_chunk_size n max entries Hc) as (Hq & Hpos & Hmul & Hb).
  destruct Hc as ([Hn Hmax] & Hprod & Hsum).
  pose proof (len_nonneg entries) as Hlen.
  destruct (_ <=? _) eqn:Hsmall.
  - exists [entries]. split; [done|]. constructor; [|done].
    apply Z.leb_le in Hsmall.
    rewrite wrap64_int in Hsmall by (unfold is_int; nia). done.
  - rewrite Hq.
    destruct (Chunkify2_loop_ok (max / n) entries Hpos Hb
                (S (length entries)) 0 []) as (rest & Hrun & _ & Hall & _);
      [lia|lia|unfold len; lia|].
    exists rest. split; [done|].
    eapply Forall_impl; [exact Hall|]. intros c [_ Hle]. unfold params. nia.
Qed.

(** X3: when one call is not enough, Chunkify2 makes the least number of
    chunks the limit allows, the entries over the chunk size rounded up, and
    no chunk is empty. *)
Theorem Chunkify2_chunk_count (n max : Z) (entries : list T) :
  chunkable n max entries → max < len entries * n →
  ∃ chunks, Chunkify2 (S (length entries)) n max entries = Some (Done chunks) ∧
            Z.of_nat (length chunks) = (len entries + max / n - 1) / (max / n) ∧
            Forall (λ chunk, chunk ≠ []) chunks.
Proof.
  intros Hc Hbig. unfold Chunkify2.
  destruct (quotient_chunk_size n max entries Hc) as (Hq & Hpos & _ & Hb).
  destruct Hc as ([Hn Hmax] & Hprod & Hsum).
  pose proof (len_nonneg entries) as Hlen.
  rewrite wrap64_int by (unfold is_int; nia).
  rewrite (proj2 (Z.leb_gt _ _)) by done. rewrite Hq.
  destruct (Chunkify2_loop_ok (max / n) entries Hpos Hb
              (S (length entries)) 0 []) as (rest & Hrun & _ & Hall & Hcount);
    [lia|lia|unfold len; lia|].
  exists rest. split; [done|]. split.
  - rewrite Hcount. f_equal. lia.
  - eapply Forall_impl; [exact Hall|]. intros c [Hc _] ->. unfold len in Hc.
    simpl in Hc. lia.
Qed.

(** The loop with a chunk size of 0 makes no progress. *)
Lemma Chunkify2_loop_stuck (entries : list T) (fuel : nat) :
  entries ≠ [] → ∀ chunks, Chunkify2_loop fuel 0 entries 0 chunks = None.
Proof.
  intros Hne. induction fuel as [|fuel IH]; intros chunks; [done|].
  cbn [Chunkify2_loop].
  assert (Hlen : 0 < len entries).
  { unfold len. destruct entries; [done|simpl; lia]. }
  rewrite (proj2 (Z.ltb_lt _ _) Hlen).
  change (wrap64 (0 + 0)) with 0.
  assert (Hgt : (0 >? len entries) = false).
  { rewrite Z.gtb_ltb. apply Z.ltb_ge. lia. }
  rewrite Hgt. unfold slice. rewrite bool_decide_eq_true_2 by lia.
  apply IH.
Qed.

(** X4: when not even one entry fits a call (0 <= maxParamsPerCall <
    numParamsPerStmt) and there are entries, the chunk size is 0 and the
    loop of Chunkify2 never ends: no number of iterations is enough. *)
Theorem Chunkify2_never_ends (n max : Z) (entries : list T) (fuel : nat) :
  0 ≤ max < n → entries ≠ [] → len entries * n < 2 ^ 63 →
  Chunkify2 fuel n max entries = None.
Proof.
  intros [Hmax Hn] Hne Hprod. unfold Chunkify2.
  assert (Hlen : 0 < len entries).
  { unfold len. destruct entries; [done|simpl; lia]. }
  rewrite wrap64_int by (unfold is_int; nia).
  rewrite (proj2 (Z.leb_gt _ _)) by nia.
  unfold quotient. rewrite (proj2 (Z.eqb_neq n 0)) by lia.
  rewrite Z.quot_small by lia. change (wrap64 0) with 0.
  by apply Chunkify2_loop_stuck.
Qed.

End chunks.

Lemma Chunkify2_concat_witness :
  ∃ chunks,
    Chunks.Chunkify2 8 2 6 [1; 2; 3; 4; 5; 6; 7]%nat = Some (Done chunks) ∧
    concat chunks = [1; 2; 3; 4; 5; 6; 7]%nat.
Proof.
  apply (Chunkify2_concat 2 6 [1; 2; 3; 4; 5; 6; 7]%nat).
  unfold Chunks.chunkable, Chunks.len. simpl. lia.
Defined.

Lemma Chunkify2_chunks_fit_witness :
  ∃ chunks,
    Chunks.Chunkify2 8 2 6 [1; 2; 3; 4; 5; 6; 7]%nat = Some (Done chunks) ∧
    Forall (λ chunk, (Chunks.params 2 chunk ≤ 6)%Z) chunks.
Proof.
  apply (Chunkify2_chunks_fit 2 6 [1; 2; 3; 4; 5; 6; 7]%nat).
  unfold Chunks.chunkable, Chunks.len. simpl. lia.
Defined.

Lemma Chunkify2_chunk_count_witness :
  ∃ chunks,
    Chunks.Chunkify2 8 2 6 [1; 2; 3; 4; 5; 6; 7]%nat = Some (Done chunks) ∧
    Z.of_nat (length chunks) =
      ((Chunks.len [1; 2; 3; 4; 5; 6; 7]%nat + 6 / 2 - 1) / (6 / 2))%Z ∧
    Forall (λ chunk, chunk ≠ []) chunks.
Proof.
  apply (Chunkify2_chunk_count 2 6 [1; 2; 3; 4; 5; 6; 7]%nat).
  - unfold Chunks.chunkable, Chunks.len. simpl. lia.
  - unfold Chunks.len. simpl. lia.
Defined.

Lemma Chunkify2_never_ends_witness :
  Chunks.Chunkify2 1000 3 2 ["row"] = None.
Proof.
  apply (Chunkify2_never_ends 3 2 ["row"] 1000).
  - lia.
  - discriminate.
  - unfold Chunks.len. simpl. lia.
Defined.

Section chunker.
Import Chunks.
Context {C : Type} `{Chunker C}.
Local Open Scope Z_scope.

Lemma Chunkify_loop_ok (per : Z) (entries : C) :
  lawful entries → 0 < per → Len entries + per < 2 ^ 63 →
  ∀ fuel i chunks,
    0 ≤ i → i < Len entries + per → (Z.to_nat (Len entries - i) < fuel)%nat →
    ∃ rest,
      Chunkify_loop fuel per entries i chunks = Some (Done (chunks ++ rest)) ∧
      total_len rest = Z.max 0 (Len entries - i) ∧
      Forall (λ c, 0 < Len c ≤ per) rest.
Proof.
  intros [Hlen Hlaw] Hper Hbound fuel.
  induction fuel as [|fuel IH]; intros i chunks Hi Hi' Hfuel; [lia|].
  cbn [Chunkify_loop].
  destruct (i <? Len entries) eqn:Hlt.
  - apply Z.ltb_lt in Hlt.
    assert (Hw : wrap64 (i + per) = i + per).
    { unfold wrap64. rewrite Z.mod_small by lia. lia. }
    rewrite Hw.
    set (j := if i + per >? Len entries then Len entries else i + per).
    assert (Hj : i < j ∧ j ≤ Len entries ∧ j ≤ i + per ∧
                 (j = i + per ∨ (j = Len entries ∧ Len entries < i + per))).
    { unfold j. destruct (i + per >? Len entries) eqn:Hgt.
      - apply Z.gtb_lt in Hgt. lia.
      - rewrite Z.gtb_ltb in Hgt. apply Z.ltb_ge in Hgt. lia. }
    destruct (Hlaw i j) as (chunk & -> & Hchunk); [lia|lia|].
    destruct (IH (i + per) (chunks ++ [chunk]))
      as (rest & Hrun & Hsum & Hall); [lia|lia|lia|].
    exists (chunk :: rest). split; [|split].
    + rewrite Hrun. by rewrite <- app_assoc.
    + cbn [total_len foldr]. fold (total_len rest). rewrite Hsum, Hchunk. lia.
    + constructor; [lia|done].
  - apply Z.ltb_ge in Hlt. exists []. rewrite app_nil_r.
    split; [done|]. split; [cbn; lia|constructor].
Qed.

(** X5: for any Chunker whose Subslice(i, j) gives j - i entries, under the
    conditions of X1 Chunkify ends without a panic, the lengths of the
    chunks add up to the length of the entries, and every chunk fits a
    call. *)
Theorem Chunkify_lengths (n max : Z) (entries : C) :
  lawful entries → 0 < n ≤ max → Len entries * n < 2 ^ 63 →
  Len entries + max < 2 ^ 63 →
  ∃ chunks,
    Chunkify (S (Z.to_nat (Len entries))) n max entries = Some (Done chunks) ∧
    total_len chunks = Len entries ∧
    Forall (λ chunk, Len chunk * n ≤ max) chunks.
Proof.
  intros Hlaw [Hn Hmax] Hprod Hsum. pose proof (proj1 Hlaw) as Hlen.
  unfold Chunkify.
  assert (Hq : 0 < max / n) by (apply Z.div_str_pos; lia).
  assert (Hle : max / n ≤ max) by (apply Z.div_le_upper_bound; nia).
  assert (Hmul : max / n * n ≤ max).
  { rewrite Z.mul_comm. apply Z.mul_div_le. lia. }
  destruct (_ <=? _) eqn:Hsmall.
  - exists [entries]. split; [done|]. split; [cbn; lia|].
    constructor; [|done]. apply Z.leb_le in Hsmall.
    unfold wrap64 in Hsmall. rewrite Z.mod_small in Hsmall by nia. lia.
  - unfold quotient. rewrite (proj2 (Z.eqb_neq n 0)) by lia.
    rewrite Z.quot_div_nonneg by lia.
    assert (Hw : wrap64 (max / n) = max / n).
    { unfold wrap64. rewrite Z.mod_small by lia. lia. }
    rewrite Hw.
    destruct (Chunkify_loop_ok (max / n) entries Hlaw Hq)
      with (fuel := S (Z.to_nat (Len entries))) (i := 0) (chunks := @nil C)
      as (rest & Hrun & Htot & Hall); [lia|lia|lia|lia|].
    exists rest. split; [done|]. split; [lia|].
    eapply Forall_impl; [exact Hall|]. intros c [_ Hc]. cbn beta. nia.
Qed.

End chunker.

Lemma list_lawful {T} (entries : list T) : Chunks.lawful entries.
Proof.
  split; [cbn; unfold Chunks.len; lia|]. intros i j Hij Hj. cbn in *.
  unfold Chunks.slice. rewrite bool_decide_eq_true_2 by lia.
  eexists. split; [done|]. unfold Chunks.len in *.
  rewrite length_take, length_drop. lia.
Qed.

Lemma Chunkify_lengths_witness :
  ∃ chunks,
    Chunks.Chunkify (S (Z.to_nat (Chunks.Len [1; 2; 3; 4; 5; 6; 7]%nat))) 2 6
      [1; 2; 3; 4; 5; 6; 7]%nat = Some (Done chunks) ∧
    Chunks.total_len chunks = Chunks.Len [1; 2; 3; 4; 5; 6; 7]%nat ∧
    Forall (λ chunk, (Chunks.Len chunk * 2 ≤ 6)%Z) chunks.
Proof.
  apply (Chunkify_lengths 2 6 [1; 2; 3; 4; 5; 6; 7]%nat).
  - apply list_lawful.
  - lia.
  - cbn. unfold Chunks.len. simpl. lia.
  - cbn. unfold Chunks.len. simpl. lia.
Defined.

(** ** More on the poller-ready gate *)
Section gate_more.
Import Handler Gate.

Lemma step_keeps_done (pid : PollerID) (c : call) (p p' : EnsurePoller) :
  gate_inv p → step c p = Done p' → expires pid c = false →
  (∃ pi, pendingPolls p !! pid = Some pi ∧ done pi = true) →
  ∃ pi, pendingPolls p' !! pid = Some pi ∧ done pi = true.
Proof.
  intros Hinv Hstep Hexp (pi & Hpi & Hd).
  destruct c as [q tok|payload|payload]; simpl in Hstep.
  - inversion Hstep; subst; clear Hstep.
    destruct (pendingPolls p !! q) as [qi|] eqn:Hq.
    { rewrite (EnsurePolling_present q tok p qi) by done. eauto. }
    rewrite EnsurePolling_absent by done. simpl.
    exists pi. split; [|done]. rewrite lookup_insert_ne; [done|congruence].
  - unfold OnInitialSyncComplete in Hstep.
    set (q := {| UserID := iscUserID payload; DeviceID := iscDeviceID payload |}) in *.
    destruct (decide (q = pid)) as [Hq|Hq].
    + rewrite Hq, Hpi, Hd in Hstep. inversion Hstep; subst. eauto.
    + destruct (pendingPolls p !! q) as [pending|].
      * destruct (done pending); [inversion Hstep; subst; eauto|].
        destruct (ch pending) as [c|]; simpl in Hstep; [|done].
        case_decide; [done|]. inversion Hstep; subst; clear Hstep. simpl.
        exists pi. by rewrite lookup_insert_ne.
      * inversion Hstep; subst; clear Hstep. simpl.
        exists pi. by rewrite lookup_insert_ne.
  - unfold OnExpiredToken in Hstep.
    set (q := {| UserID := etUserID payload; DeviceID := etDeviceID payload |}) in *.
    assert (Hq : q ≠ pid).
    { intros Hq. simpl in Hexp. apply bool_decide_eq_false in Hexp.
      apply Hexp. by rewrite <- Hq. }
    destruct (pendingPolls p !! q) as [pending|]; [|inversion Hstep; subst; eauto].
    destruct (ch pending) as [c|]; simpl in Hstep.
    + case_decide; [done|]. simpl in Hstep. inversion Hstep; subst. simpl.
      exists pi. by rewrite lookup_delete_ne.
    + inversion Hstep; subst. simpl. exists pi. by rewrite lookup_delete_ne.
Qed.

Lemma run_keeps_done (pid : PollerID) (cs : list call) : ∀ p,
  gate_inv p → expired_for pid cs = 0 →
  (∃ pi, pendingPolls p !! pid = Some pi ∧ done pi = true) →
  ∃ p', run cs p = Done p' ∧ gate_inv p' ∧
        ∃ pi, pendingPolls p' !! pid = Some pi ∧ done pi = true.
Proof.
  induction cs as [|c cs IH]; intros p Hinv Hexp Hdone; simpl.
  - eauto.
  - destruct (step_inv c p Hinv) as (p1 & Hstep & Hinv1). rewrite Hstep. simpl.
    unfold expired_for in Hexp. destruct (expires pid c) eqn:He.
    { rewrite filter_cons_True in Hexp by done. simpl in Hexp. lia. }
    rewrite filter_cons_False in Hexp by (rewrite He; done).
    apply IH; [done|done|]. by apply (step_keeps_done pid c p p1).
Qed.

(** X6: once the initial sync of a device is complete, the gate stays open
    for it until its token expires: after any further calls that hold no
    OnExpiredToken for the device, EnsurePolling returns at once, publishes
    nothing and leaves the gate as it is. *)
Theorem EnsurePolling_open_until_expired (cs cs' : list call)
    (payload : V2InitialSyncComplete) (tokenHash : string) :
  let pid := {| UserID := iscUserID payload; DeviceID := iscDeviceID payload |} in
  expired_for pid cs' = 0 →
  ∃ p, run (cs ++ CallOnInitialSyncComplete payload :: cs') NewEnsurePoller
         = Done p ∧
       EnsurePolling pid tokenHash p = (p, None).
Proof.
  intros pid Hexp.
  destruct (run_inv cs NewEnsurePoller gate_inv_new) as (p0 & Hrun0 & Hinv0).
  destruct (OnInitialSyncComplete_inv payload p0 Hinv0) as (p1 & Hisc & Hinv1).
  assert (Hdone : ∃ pi, pendingPolls p1 !! pid = Some pi ∧ done pi = true).
  { unfold OnInitialSyncComplete in Hisc. fold pid in Hisc.
    destruct (pendingPolls p0 !! pid) as [pending|] eqn:Hp.
    - destruct (done pending) eqn:Hd; [inversion Hisc; subst; eauto|].
      destruct (ch pending) as [c|]; simpl in Hisc; [|done].
      case_decide; [done|]. inversion Hisc; subst. simpl.
      rewrite lookup_insert_eq. eauto.
    - inversion Hisc; subst. simpl. rewrite lookup_insert_eq. eauto. }
  destruct (run_keeps_done pid cs' p1 Hinv1 Hexp Hdone)
    as (p & Hrun & Hinv & pi & Hpi & Hd).
  exists p. split.
  - assert (Happ : ∀ l1 l2 q, run (l1 ++ l2) q = obind (run l1 q) (run l2)).
    { induction l1 as [|a l1 IH]; intros l2 q; simpl; [done|].
      destruct (step a q); simpl; [apply IH|done]. }
    rewrite Happ, Hrun0. simpl. rewrite Hisc. simpl. done.
  - by eapply EnsurePolling_done.
Qed.

Lemma EnsurePolling_open_until_expired_witness :
  ∃ p, run ([CallEnsurePolling (mkPollerID "@a:hs" "d") "h"] ++
            CallOnInitialSyncComplete (mkV2InitialSyncComplete "@a:hs" "d") ::
            [CallOnExpiredToken (mkV2ExpiredToken "@b:hs" "d")])
           NewEnsurePoller = Done p ∧
       EnsurePolling (mkPollerID "@a:hs" "d") "h2" p = (p, None).
Proof.
  apply (EnsurePolling_open_until_expired
           [CallEnsurePolling (mkPollerID "@a:hs" "d") "h"]
           [CallOnExpiredToken (mkV2ExpiredToken "@b:hs" "d")]
           (mkV2InitialSyncComplete "@a:hs" "d") "h2").
  reflexivity.
Defined.

Lemma step_tracked (c : call) (p p' : EnsurePoller) :
  gate_inv p → all_tracked p → step c p = Done p' → all_tracked p'.
Proof.
  intros Hinv Htr Hstep. destruct c as [q tok|payload|payload]; simpl in Hstep.
  - inversion Hstep; subst; clear Hstep.
    destruct (pendingPolls p !! q) as [qi|] eqn:Hq.
    { by rewrite (EnsurePolling_present q tok p qi). }
    rewrite EnsurePolling_absent by done. intros c Hc. simpl in *.
    destruct (decide (c = made p)) as [->|Hne].
    + right. exists q. by rewrite lookup_insert_eq.
    + destruct (Htr c) as [?|(pid & Hpid)]; [lia|by left|].
      right. exists pid. rewrite lookup_insert_ne; [done|congruence].
  - unfold OnInitialSyncComplete in Hstep.
    set (q := {| UserID := iscUserID payload; DeviceID := iscDeviceID payload |}) in *.
    destruct (pendingPolls p !! q) as [pending|] eqn:Hq.
    + destruct (done pending) eqn:Hd; [by inversion Hstep; subst|].
      destruct (ch pending) as [c0|] eqn:Hc0; simpl in Hstep; [|done].
      case_decide; [done|]. inversion Hstep; subst; clear Hstep.
      intros c Hc. simpl in *.
      destruct (Htr c Hc) as [?|(pid & Hpid)].
      * left. apply elem_of_app. by left.
      * destruct (decide (pid = q)) as [->|Hne].
        -- rewrite Hq in Hpid. inversion Hpid; subst. simpl in Hc0.
           inversion Hc0; subst. left. apply elem_of_app. right.
           apply list_elem_of_here.
        -- right. exists pid. by rewrite lookup_insert_ne.
    + inversion Hstep; subst; clear Hstep. intros c Hc. simpl in *.
      destruct (Htr c Hc) as [?|(pid & Hpid)]; [by left|].
      right. exists pid. rewrite lookup_insert_ne; [done|congruence].
  - unfold OnExpiredToken in Hstep.
    set (q := {| UserID := etUserID payload; DeviceID := etDeviceID payload |}) in *.
    destruct (pendingPolls p !! q) as [pending|] eqn:Hq;
      [|by inversion Hstep; subst].
    destruct (ch pending) as [c0|] eqn:Hc0; simpl in Hstep.
    + case_decide; [done|]. simpl in Hstep. inversion Hstep; subst; clear Hstep.
      intros c Hc. simpl in *.
      destruct (Htr c Hc) as [?|(pid & Hpid)].
      * left. apply elem_of_app. by left.
      * destruct (decide (pid = q)) as [->|Hne].
        -- rewrite Hq in Hpid. inversion Hpid; subst. simpl in Hc0.
           inversion Hc0; subst. left. apply elem_of_app. right.
           apply list_elem_of_here.
        -- right. exists pid. by rewrite lookup_delete_ne.
    + inversion Hstep; subst; clear Hstep. intros c Hc. simpl in *.
      destruct (Htr c Hc) as [?|(pid & Hpid)]; [by left|].
      right. exists pid. rewrite lookup_delete_ne; [done|].
      intros ->. rewrite Hq in Hpid. inversion Hpid; subst. done.
Qed.

Lemma run_tracked (cs : list call) : ∀ p p',
  gate_inv p → all_tracked p → run cs p = Done p' → all_tracked p'.
Proof.
  induction cs as [|c cs IH]; intros p p' Hinv Htr Hrun; simpl in Hrun.
  - by inversion Hrun; subst.
  - destruct (step_inv c p Hinv) as (p1 & Hstep & Hinv1).
    rewrite Hstep in Hrun. simpl in Hrun.
    eapply IH; [exact Hinv1| |exact Hrun]. by apply (step_tracked c p p1).
Qed.

(** X7: no waiter is left behind.  In every gate reached from the empty
    one, each channel ever made (each channel a caller of EnsurePolling can
    be waiting on) is closed already or is the channel of a slot that is
    still pending, which the next OnInitialSyncComplete or OnExpiredToken of
    that device closes. *)
Theorem gate_no_stranded_waiter (cs : list call) :
  ∃ p, run cs NewEnsurePoller = Done p ∧
    ∀ c, c < made p →
      c ∈ closed p ∨
      ∃ pid, pendingPolls p !! pid = Some {| done := false; ch := Some c |}.
Proof.
  destruct (run_inv cs NewEnsurePoller gate_inv_new) as (p & Hrun & Hinv).
  exists p. split; [done|].
  apply (run_tracked cs NewEnsurePoller p gate_inv_new); [|done].
  intros c Hc. simpl in Hc. lia.
Qed.

Lemma run_app (l1 l2 : list call) : ∀ p,
  run (l1 ++ l2) p = obind (run l1 p) (run l2).
Proof.
  induction l1 as [|a l1 IH]; intros p; simpl; [done|].
  destruct (step a p); simpl; [apply IH|done].
Qed.

(** X8: the two handlers are idempotent.  After any calls, a second
    OnInitialSyncComplete for the same device right after the first changes
    nothing, and so does a second OnExpiredToken: no channel is closed
    again and no slot changes. *)
Theorem gate_handlers_idempotent (cs : list call)
    (done_payload : V2InitialSyncComplete) (expired_payload : V2ExpiredToken) :
  (∃ p, run (cs ++ [CallOnInitialSyncComplete done_payload]) NewEnsurePoller
          = Done p ∧
        run (cs ++ [CallOnInitialSyncComplete done_payload;
                    CallOnInitialSyncComplete done_payload]) NewEnsurePoller
          = Done p) ∧
  (∃ p, run (cs ++ [CallOnExpiredToken expired_payload]) NewEnsurePoller
          = Done p ∧
        run (cs ++ [CallOnExpiredToken expired_payload;
                    CallOnExpiredToken expired_payload]) NewEnsurePoller
          = Done p).
Proof.
  destruct (run_inv cs NewEnsurePoller gate_inv_new) as (p0 & Hrun0 & Hinv0).
  split.
  - destruct (OnInitialSyncComplete_inv done_payload p0 Hinv0)
      as (p1 & Hisc & Hinv1).
    exists p1. rewrite !run_app, Hrun0. simpl. rewrite Hisc. simpl.
    split; [done|].
    assert (Hagain : OnInitialSyncComplete done_payload p1 = Done p1).
    { unfold OnInitialSyncComplete in *.
      set (q := {| UserID := iscUserID done_payload;
                   DeviceID := iscDeviceID done_payload |}) in *.
      destruct (pendingPolls p0 !! q) as [pending|] eqn:Hp.
      - destruct (done pending) eqn:Hd.
        + inversion Hisc; subst. by rewrite Hp, Hd.
        + destruct (ch pending) as [c|]; simpl in Hisc; [|done].
          case_decide; [done|]. inversion Hisc; subst. simpl.
          by rewrite lookup_insert_eq.
      - inversion Hisc; subst. simpl. by rewrite lookup_insert_eq. }
    by rewrite Hagain.
  - destruct (OnExpiredToken_inv expired_payload p0 Hinv0)
      as (p1 & Hexp & Hinv1).
    exists p1. rewrite !run_app, Hrun0. simpl. rewrite Hexp. simpl.
    split; [done|].
    assert (Hagain : OnExpiredToken expired_payload p1 = Done p1).
    { unfold OnExpiredToken in *.
      set (q := {| UserID := etUserID expired_payload;
                   DeviceID := etDeviceID expired_payload |}) in *.
      destruct (pendingPolls p0 !! q) as [pending|] eqn:Hp.
      - destruct (ch pending) as [c|]; simpl in Hexp.
        + case_decide; [done|]. simpl in Hexp. inversion Hexp; subst. simpl.
          by rewrite lookup_delete_eq.
        + inversion Hexp; subst. simpl. by rewrite lookup_delete_eq.
      - inversion Hexp; subst. by rewrite Hp. }
    by rewrite Hagain.
Qed.

End gate_more.

(** ** More on sessions *)
Section sessions_more.
Import Sqlutil Store Sessions.

Lemma NewSession_no_faults (db : tables) (deviceID : string) :
  NewSession driver_ok faults_none db deviceID =
    Done (Some {| ID := syncv3_session_id_seq db; DeviceID := deviceID;
                  V2Since := match syncv3_sessions_v2devices db !! deviceID with
                             | Some d => since d | None => "" end;
                  UserID := match syncv3_sessions_v2devices db !! deviceID with
                            | Some d => user_id d | None => "" end |},
          None,
          {| syncv3_sessions := syncv3_sessions db ++
               [ mkSessionRow (syncv3_session_id_seq db) deviceID "" "" ];
             syncv3_sessions_v2devices :=
               match syncv3_sessions_v2devices db !! deviceID with
               | Some _ => syncv3_sessions_v2devices db
               | None => <[deviceID := {| user_id := ""; since := "" |}]>
                           (syncv3_sessions_v2devices db)
               end;
             syncv3_session_id_seq := (syncv3_session_id_seq db + 1)%Z |}).
Proof.
  unfold NewSession, WithTransaction, NewSession_fn, driver_ok, faults_none.
  cbn [begin_err insert_session_err insert_device_err rows_affected_err
       select_device_err obind].
  unfold insert_session, insert_device. cbn [syncv3_sessions_v2devices].
  destruct (syncv3_sessions_v2devices db !! deviceID) as [d|] eqn:Hd.
  - rewrite bool_decide_eq_false_2 by (intros [_ ?]; done).
    unfold select_device. cbn [syncv3_sessions_v2devices]. rewrite Hd.
    reflexivity.
  - rewrite bool_decide_eq_true_2 by done. reflexivity.
Qed.

(** X9: NewSession is all or nothing on the two tables.  When it returns an
    error, the sessions table and the devices table are as they were; when
    it returns nil, the session it returns has the next id of the sequence,
    and the sessions table has gained exactly the row of that id for the
    device, with empty tokens, after the rows it had. *)
Theorem NewSession_all_or_nothing (drv : driver) (flt : faults) (db : tables)
    (deviceID : string) :
  ∃ session e db',
    NewSession drv flt db deviceID = Done (session, e, db') ∧
    match e with
    | Some _ =>
        syncv3_sessions db' = syncv3_sessions db ∧
        syncv3_sessions_v2devices db' = syncv3_sessions_v2devices db
    | None =>
        ∃ s, session = Some s ∧ ID s = syncv3_session_id_seq db ∧
             syncv3_sessions db' =
               syncv3_sessions db ++ [ mkSessionRow (ID s) deviceID "" "" ]
    end.
Proof.
  unfold NewSession, WithTransaction.
  destruct (begin_err drv) as [be|]; simpl.
  { do 3 eexists. split; [done|]. done. }
  unfold NewSession_fn.
  destruct (insert_session_err flt) as [e1|]; simpl.
  { unfold deferred; simpl. destruct (rollback_err drv); simpl;
      do 3 eexists; (split; [done|]); done. }
  destruct (insert_device_err flt) as [e2|]; simpl.
  { unfold deferred; simpl. destruct (rollback_err drv); simpl;
      do 3 eexists; (split; [done|]); done. }
  unfold insert_device; simpl.
  destruct (syncv3_sessions_v2devices db !! deviceID) as [row|] eqn:Hrow; simpl.
  - rewrite bool_decide_eq_false_2 by (intros [_ ?]; done).
    destruct (select_device_err flt) as [e3|]; simpl.
    { unfold deferred; simpl. destruct (rollback_err drv); simpl;
        do 3 eexists; (split; [done|]); done. }
    unfold select_device; simpl. rewrite Hrow. unfold deferred; simpl.
    destruct (commit_err drv) as [ce|]; simpl;
      do 3 eexists; (split; [done|]); simpl; eauto.
  - destruct (rows_affected_err flt) as [e4|].
    + rewrite bool_decide_eq_false_2 by (intros [? _]; done).
      destruct (select_device_err flt) as [e3|]; simpl.
      { unfold deferred; simpl. destruct (rollback_err drv); simpl;
          do 3 eexists; (split; [done|]); done. }
      unfold select_device; simpl. rewrite lookup_insert_eq.
      unfold deferred; simpl.
      destruct (commit_err drv) as [ce|]; simpl;
        do 3 eexists; (split; [done|]); simpl; eauto.
    + rewrite bool_decide_eq_true_2 by done. unfold deferred; simpl.
      destruct (commit_err drv) as [ce|]; simpl;
        do 3 eexists; (split; [done|]); simpl; eauto.
Qed.

(** X10: the since token of a device is kept from one session to the next.
    For a device that has a row, after UpdateDeviceSince a new session of
    the device carries the since just stored and the user id of the row;
    for a device without a row UpdateDeviceSince changes nothing and
    returns nil. *)
Theorem UpdateDeviceSince_then_NewSession (db : tables)
    (deviceID since' : string) :
  let db1 := (UpdateDeviceSince None deviceID since' db).2 in
  (UpdateDeviceSince None deviceID since' db).1 = None ∧
  match syncv3_sessions_v2devices db !! deviceID with
  | Some row =>
      ∃ db2, NewSession driver_ok faults_none db1 deviceID =
               Done (Some {| ID := syncv3_session_id_seq db;
                             DeviceID := deviceID; V2Since := since';
                             UserID := user_id row |}, None, db2)
  | None => db1 = db
  end.
Proof.
  cbn zeta. split; [done|]. unfold UpdateDeviceSince. cbn [snd].
  destruct (syncv3_sessions_v2devices db !! deviceID) as [row|] eqn:Hrow.
  - rewrite NewSession_no_faults. cbn [with_devices syncv3_sessions_v2devices
      syncv3_session_id_seq]. rewrite lookup_alter_eq, Hrow. simpl. eauto.
  - unfold with_devices. rewrite alter_id.
    + by destruct db.
    + intros x Hx. congruence.
Qed.

Lemma filter_fresh_nil {A} (P : A → Prop) `{∀ x, Decision (P x)} (l : list A) :
  (∀ x, x ∈ l → ¬ P x) → filter P l = [].
Proof.
  induction l as [|a l IH]; intros Hl; [done|].
  rewrite filter_cons_False by (apply Hl; left).
  apply IH. intros x Hx. apply Hl. by right.
Qed.

(** X11: a session is found only under the device it was made for.  After
    NewSession in a database whose session ids are all below the sequence,
    Session with the new id and the same device id finds the session, with
    empty tokens and the since and user id of the device; with any other
    device id it finds nothing and returns (nil, nil). *)
Theorem Session_only_for_its_device (db : tables) (deviceID : string) :
  ids_fresh db →
  ∃ s db',
    NewSession driver_ok faults_none db deviceID = Done (Some s, None, db') ∧
    Session None (ID s) deviceID db' =
      (Some {| found := s; confirmed_token := ""; unconfirmed_token := "" |},
       None) ∧
    (∀ other, other ≠ deviceID → Session None (ID s) other db' = (None, None)) ∧
    ids_fresh db'.
Proof.
  intros Hfresh. rewrite NewSession_no_faults. do 2 eexists. split; [done|].
  assert (Hold : ∀ dev,
    filter (λ r, session_id r = syncv3_session_id_seq db ∧ row_device_id r = dev)
           (syncv3_sessions db) = []).
  { intros dev. apply filter_fresh_nil. intros r Hr [Hid _].
    apply Hfresh in Hr. lia. }
  split; [|split].
  - unfold Session. cbn [ID syncv3_sessions syncv3_sessions_v2devices].
    rewrite filter_app, Hold. rewrite filter_cons_True by done.
    cbn [app]. destruct (syncv3_sessions_v2devices db !! deviceID) as [d|] eqn:Hd.
    + by rewrite Hd.
    + by rewrite lookup_insert_eq.
  - intros other Hne. unfold Session. cbn [ID syncv3_sessions].
    rewrite filter_app, Hold.
    rewrite filter_cons_False by (intros [_ ?]; simpl in *; congruence).
    done.
  - intros r Hr. cbn [syncv3_sessions syncv3_session_id_seq] in *.
    apply elem_of_app in Hr as [Hr|Hr].
    + apply Hfresh in Hr. lia.
    + apply list_elem_of_singleton in Hr as ->. simpl. lia.
Qed.

Lemma Session_only_for_its_device_witness :
  ∃ s db',
    NewSession driver_ok faults_none (mkTables [] ∅ 1) "dev1"
      = Done (Some s, None, db') ∧
    Session None (ID s) "dev1" db' =
      (Some {| found := s; confirmed_token := ""; unconfirmed_token := "" |},
       None) ∧
    (∀ other, other ≠ "dev1" → Session None (ID s) other db' = (None, None)) ∧
    ids_fresh db'.
Proof.
  apply (Session_only_for_its_device (mkTables [] ∅ 1) "dev1").
  intros r Hr. simpl in Hr. by apply elem_of_nil in Hr.
Defined.

End sessions_more.

(** ** Tokens and filters *)
Section tokens.
Import Sqlutil Store Sessions.

(** A selection by session id and device id commutes with the update of the
    tokens, which changes neither. *)
Lemma filter_set_tokens (P : session_row → Prop) `{∀ r, Decision (P r)}
    (sid : Z) (c u : string) (l : list session_row) :
  (∀ r, P (set_tokens sid c u r) ↔ P r) →
  filter P (set_tokens sid c u <$> l) = set_tokens sid c u <$> filter P l.
Proof.
  intros HP. induction l as [|r l IH]; [done|].
  rewrite fmap_cons. destruct (decide (P r)) as [Hr|Hr].
  - rewrite !filter_cons_True by (by rewrite ?HP). by rewrite fmap_cons, IH.
  - rewrite !filter_cons_False by (by rewrite ?HP). done.
Qed.

Lemma set_tokens_keys (sid : Z) (c u : string) (r : session_row) :
  session_id (set_tokens sid c u r) = session_id r ∧
  row_device_id (set_tokens sid c u r) = row_device_id r.
Proof. unfold set_tokens. by case_decide. Qed.

(** X12: UpdateLastTokens stores the tokens of one session and of that one
    only.  A session that Session finds is found afterwards with the new
    tokens and the same device data, and its confirmed token is among the
    ConfirmedSessionTokens of its device; a lookup of any other session id
    gives what it gave before; the devices table is untouched and each
    device has as many confirmed tokens as before. *)
Theorem UpdateLastTokens_then_Session (t : tables) (sessionID : Z)
    (confirmed unconfirmed deviceID : string) :
  let t' := (UpdateLastTokens None sessionID confirmed unconfirmed t).2 in
  (∀ x, Session None sessionID deviceID t = (Some x, None) →
        Session None sessionID deviceID t' =
          (Some {| found := found x; confirmed_token := confirmed;
                   unconfirmed_token := unconfirmed |}, None) ∧
        confirmed ∈ (ConfirmedSessionTokens None deviceID t').1) ∧
  (∀ other dev, other ≠ sessionID →
        Session None other dev t' = Session None other dev t) ∧
  syncv3_sessions_v2devices t' = syncv3_sessions_v2devices t ∧
  length (ConfirmedSessionTokens None deviceID t').1 =
    length (ConfirmedSessionTokens None deviceID t).1.
Proof.
  cbn zeta. unfold UpdateLastTokens. cbn [snd].
  split; [|split; [|split]].
  - intros x Hx. unfold Session, ConfirmedSessionTokens in *.
    cbn [with_sessions syncv3_sessions syncv3_sessions_v2devices fst] in *.
    rewrite filter_set_tokens
      by (intros r; destruct (set_tokens_keys sessionID confirmed unconfirmed r)
            as [-> ->]; done).
    destruct (filter _ (syncv3_sessions t)) as [|r rs] eqn:Hf; [done|].
    assert (Hr : session_id r = sessionID ∧ row_device_id r = deviceID).
    { assert (Hin : r ∈ filter (λ r, session_id r = sessionID ∧
                                     row_device_id r = deviceID)
                        (syncv3_sessions t)) by (rewrite Hf; left).
      by apply list_elem_of_filter in Hin as [? _]. }
    destruct Hr as [Hid Hdev].
    rewrite fmap_cons.
    destruct (syncv3_sessions_v2devices t !! deviceID) as [d|]; [|done].
    inversion Hx; subst x; clear Hx. cbn [found].
    unfold set_tokens at 1 2. rewrite decide_True by done.
    cbn [last_confirmed_token last_unconfirmed_token]. split; [done|].
    apply list_elem_of_fmap.
    exists (set_tokens sessionID confirmed unconfirmed r). split.
    + unfold set_tokens. by rewrite decide_True.
    + apply list_elem_of_filter. split.
      * by destruct (set_tokens_keys sessionID confirmed unconfirmed r) as [_ ->].
      * apply list_elem_of_fmap. exists r. split; [done|].
        assert (Hin : r ∈ filter (λ r, session_id r = sessionID ∧
                                       row_device_id r = deviceID)
                          (syncv3_sessions t)) by (rewrite Hf; left).
        by apply list_elem_of_filter in Hin as [_ ?].
  - intros other dev Hne. unfold Session.
    cbn [with_sessions syncv3_sessions syncv3_sessions_v2devices].
    rewrite filter_set_tokens
      by (intros r; destruct (set_tokens_keys sessionID confirmed unconfirmed r)
            as [-> ->]; done).
    destruct (filter _ (syncv3_sessions t)) as [|r rs] eqn:Hf; [done|].
    assert (Hin : r ∈ filter (λ r, session_id r = other ∧ row_device_id r = dev)
                      (syncv3_sessions t)) by (rewrite Hf; left).
    apply list_elem_of_filter in Hin as [[Hid _] _].
    rewrite fmap_cons. unfold set_tokens.
    rewrite decide_False by congruence. done.
  - done.
  - unfold ConfirmedSessionTokens.
    cbn [with_sessions syncv3_sessions fst].
    rewrite filter_set_tokens
      by (intros r; by destruct (set_tokens_keys sessionID confirmed unconfirmed r)
            as [_ ->]).
    by rewrite !length_fmap.
Qed.

Example tokens_after_update :
  let t1 := mkTables [ mkSessionRow 1 "dev1" "" ""; mkSessionRow 2 "dev1" "" "" ]
                     {[ "dev1" := mkDeviceRow "@a:hs" "s1" ]} 3 in
  ConfirmedSessionTokens None "dev1" (UpdateLastTokens None 2 "c" "u" t1).2
  = ([""; "c"], None).
Proof. reflexivity. Qed.

End tokens.

Section filters.
Import Sessions.
Context {Request : Type}.
Context (Marshal : Request → string + string).
Context (Unmarshal : string → string + Request).

(** X13: a filter is read back by the session that stored it, and by no
    other.  When the request marshals to text that unmarshals to the
    request again and the filter ids of the table are below the sequence,
    InsertFilter returns a nil error and the next id, Filter with the same
    session id and that id returns the request, and Filter with any other
    session id returns the error of an empty result. *)
Theorem InsertFilter_then_Filter (sessionID : Z) (req : Request)
    (j : string) (t : filter_tables) :
  Marshal req = inr j → Unmarshal j = inr req → filters_fresh t →
  ∃ t', InsertFilter Marshal None sessionID req t
          = (syncv3_filter_id_seq t, None, t') ∧
        Filter Unmarshal None sessionID (syncv3_filter_id_seq t) t'
          = (Some req, None) ∧
        (∀ other, other ≠ sessionID →
           Filter Unmarshal None other (syncv3_filter_id_seq t) t'
             = (None, Some "sql: no rows in result set")) ∧
        filters_fresh t'.
Proof.
  intros Hm Hu Hfresh. unfold InsertFilter. rewrite Hm.
  eexists. split; [done|].
  assert (Hold : ∀ sid,
    filter (λ r, filter_session_id r = sid ∧
                 filter_id r = syncv3_filter_id_seq t) (syncv3_filters t) = []).
  { intros sid. apply filter_fresh_nil. intros r Hr [_ Hid].
    apply Hfresh in Hr. lia. }
  split; [|split].
  - unfold Filter. cbn [syncv3_filters]. rewrite filter_app, Hold.
    rewrite filter_cons_True by done. cbn [app req_json]. by rewrite Hu.
  - intros other Hne. unfold Filter. cbn [syncv3_filters].
    rewrite filter_app, Hold.
    rewrite filter_cons_False by (intros [? _]; simpl in *; congruence).
    done.
  - intros r Hr. cbn [syncv3_filters syncv3_filter_id_seq] in *.
    apply elem_of_app in Hr as [Hr|Hr].
    + apply Hfresh in Hr. lia.
    + apply list_elem_of_singleton in Hr as ->. simpl. lia.
Qed.

End filters.

Lemma InsertFilter_then_Filter_witness :
  ∃ t', Sessions.InsertFilter (λ r : string, inr r) None 7 "{}"
          (Sessions.mkFilterTables [] 1)
          = (1%Z, None, t') ∧
        Sessions.Filter (λ j : string, inr j) None 7 1 t' = (Some "{}", None) ∧
        (∀ other, other ≠ 7%Z →
           Sessions.Filter (λ j : string, inr j) None other 1 t'
             = (None, Some "sql: no rows in result set")) ∧
        Sessions.filters_fresh t'.
Proof.
  apply (InsertFilter_then_Filter (λ r : string, inr r) (λ j : string, inr j)
           7%Z "{}" "{}" (Sessions.mkFilterTables [] 1)).
  - reflexivity.
  - reflexivity.
  - intros r Hr. simpl in Hr. by apply elem_of_nil in Hr.
Defined.

(** ** Loading rooms and runs of the listener functions *)
Section cache_more.
Import Json Caches CacheOps.

Lemma LoadRooms_snoc (roomIDs : list string) (r : string) (c : GlobalCache) :
  LoadRooms (roomIDs ++ [r]) c =
    match roomIDToMetadata c !! r with
    | None => LoadRooms roomIDs c
    | Some sr => <[r := sr]> (LoadRooms roomIDs c)
    end.
Proof. unfold LoadRooms. by rewrite foldl_snoc. Qed.

(** X14: LoadRooms returns, for each room id asked for that the cache has
    an entry for, that entry, and nothing else: a room the cache does not
    know is left out of the result, and asking for a room twice changes
    nothing. *)
Theorem LoadRooms_lookup (roomIDs : list string) (c : GlobalCache) (r : string) :
  LoadRooms roomIDs c !! r =
    if decide (r ∈ roomIDs) then roomIDToMetadata c !! r else None.
Proof.
  induction roomIDs as [|x roomIDs IH] using rev_ind.
  - rewrite decide_False by apply not_elem_of_nil. apply lookup_empty.
  - rewrite LoadRooms_snoc.
    destruct (decide (r = x)) as [->|Hne].
    + rewrite (decide_True (P := x ∈ roomIDs ++ [x]))
        by (apply elem_of_app; right; left).
      destruct (roomIDToMetadata c !! x) as [sr|] eqn:Hx.
      * by rewrite lookup_insert_eq.
      * rewrite IH. by case_decide.
    + assert (Hiff : r ∈ roomIDs ++ [x] ↔ r ∈ roomIDs).
      { rewrite elem_of_app, list_elem_of_singleton. tauto. }
      destruct (roomIDToMetadata c !! x) as [sr|].
      * rewrite lookup_insert_ne by done. rewrite IH.
        destruct (decide (r ∈ roomIDs)).
        -- rewrite decide_True; [done|]. by apply Hiff.
        -- rewrite decide_False; [done|]. by rewrite Hiff.
      * rewrite IH. destruct (decide (r ∈ roomIDs)).
        -- rewrite decide_True; [done|]. by apply Hiff.
        -- rewrite decide_False; [done|]. by rewrite Hiff.
Qed.

(** X15: without an override, LoadJoinedRooms returns a nil error exactly
    when both calls of the store succeed; it then returns the position the
    store gave and, of the rooms the store says the user has joined, the
    ones the cache knows with their cached entries.  When a call fails the
    position is 0 and the rooms are nil. *)
Theorem LoadJoinedRooms_rooms (store : Storage) (userID : string)
    (c : GlobalCache) :
  let '(pos, rooms, err) := LoadJoinedRooms None store userID c in
  let joined := JoinedRoomsAfterPosition store userID (LatestEventNID store).1 in
  match err with
  | Some _ =>
      pos = 0%Z ∧ rooms = None ∧
      ((LatestEventNID store).2 = err ∨
       ((LatestEventNID store).2 = None ∧ joined.2 = err))
  | None =>
      (LatestEventNID store).2 = None ∧ joined.2 = None ∧
      pos = (LatestEventNID store).1 ∧
      ∃ m, rooms = Some m ∧
        ∀ r, m !! r = if decide (r ∈ joined.1)
                      then roomIDToMetadata c !! r else None
  end.
Proof.
  unfold LoadJoinedRooms.
  destruct (LatestEventNID store) as [pos [e|]]; simpl; [auto|].
  destruct (JoinedRoomsAfterPosition store userID pos) as [ids [e|]]; simpl;
    [auto|].
  repeat split; try done. eexists. split; [done|].
  intros r. apply LoadRooms_lookup.
Qed.

(** *** Which event writes which field *)

(** The two ways the switch can panic. *)
Lemma on_event_type_Panic (st : bool) (ed : EventData) (m : RoomMetadata)
    (msg : string) :
  on_event_type st ed m = Panic msg →
  (adds_child ed ∧ ChildSpaceRooms m = None ∧ msg = nil_map_write) ∨
  (accepts_invite ed ∧ st = false ∧ msg = nil_dereference).
Proof.
  destruct (decide (EventType ed = "m.space.child")) as [Hc|Hc].
  { rewrite on_event_type_space_child by done. unfold on_space_child.
    destruct (StateKey ed) as [k|] eqn:Hk; [|done].
    destruct (IsArray _) eqn:Hvia; cbn [negb]; [|done].
    destruct (ChildSpaceRooms m) eqn:Hmap; [done|].
    intros [= <-]. left. unfold adds_child. rewrite Hk. eauto. }
  destruct (decide (EventType ed = "m.room.member")) as [Hm|Hm].
  2:{ by destruct (on_event_type_plain st ed m Hc Hm) as (m1 & -> & _). }
  rewrite on_event_type_member by done. unfold on_member.
  destruct (StateKey ed) as [k|] eqn:Hk; [|done].
  destruct (IsMembershipChange _) eqn:Hch; [|done].
  case_bool_decide as Hinv; [|done].
  destruct st; [done|]. cbn [obind]. intros [= <-]. right.
  unfold accepts_invite. rewrite Hk. destruct Hinv. eauto 10.
Qed.

Lemma on_event_type_Done (st : bool) (ed : EventData) (m m' : RoomMetadata)
    (removed : list (string * string)) :
  on_event_type st ed m = Done (m', removed) →
  ¬ (adds_child ed ∧ ChildSpaceRooms m = None) ∧
  ¬ (accepts_invite ed ∧ st = false).
Proof.
  intros Hev. split.
  - intros [(Hty & [k Hk] & Hvia) Hmap].
    rewrite on_event_type_space_child in Hev by done.
    unfold on_space_child in Hev. by rewrite Hk, Hvia, Hmap in Hev.
  - intros [(Hty & [k Hk] & Hch & Hj & Hp) ->].
    rewrite on_event_type_member in Hev by done.
    unfold on_member in Hev. rewrite Hk, Hch in Hev.
    rewrite bool_decide_eq_true_2 in Hev by done. done.
Qed.

(** What the switch writes when it does not panic. *)
Lemma on_event_type_writes (st : bool) (ed : EventData) (m m' : RoomMetadata)
    (removed : list (string * string)) :
  on_event_type st ed m = Done (m', removed) →
  RoomID m' = RoomID m ∧ TypingEvent m' = TypingEvent m ∧
  LastMessageTimestamp m' = LastMessageTimestamp m ∧
  (EventType ed ≠ "m.room.name" → NameEvent m' = NameEvent m) ∧
  (EventType ed ≠ "m.room.encryption" → Encrypted m' = Encrypted m) ∧
  (EventType ed ≠ "m.room.tombstone" → UpgradedRoomID m' = UpgradedRoomID m) ∧
  (EventType ed ≠ "m.room.canonical_alias" →
     CanonicalAlias m' = CanonicalAlias m) ∧
  (EventType ed ≠ "m.room.create" →
     RoomType m' = RoomType m ∧ PredecessorRoomID m' = PredecessorRoomID m) ∧
  (EventType ed ≠ "m.space.child" → ChildSpaceRooms m' = ChildSpaceRooms m) ∧
  (EventType ed ≠ "m.room.member" →
     Heroes m' = Heroes m ∧ JoinCount m' = JoinCount m ∧
     InviteCount m' = InviteCount m) ∧
  (is_Some (ChildSpaceRooms m') ↔ is_Some (ChildSpaceRooms m)) ∧
  (Encrypted m = true → Encrypted m' = true).
Proof.
  destruct (decide (EventType ed = "m.space.child")) as [Hc|Hc].
  { rewrite on_event_type_space_child by done.
    destruct (on_space_child ed m) as [m1|] eqn:H1; cbn [obind]; [|done].
    intros [= <- <-]. apply on_space_child_frame in H1.
    destruct H1 as (? & ? & ? & ? & ? & ? & ? & ? & ? & ? & ? & ? & ?).
    repeat split; intros; try done; naive_solver congruence. }
  destruct (decide (EventType ed = "m.room.member")) as [Hm|Hm].
  { rewrite on_event_type_member by done. intros Hev.
    apply on_member_frame in Hev.
    destruct Hev as (? & ? & ? & ? & ? & ? & ? & ? & Hmap & ?).
    rewrite Hmap. repeat split; intros; try done; naive_solver congruence. }
  unfold on_event_type, on_create.
  repeat case_decide; try done; intros [= <- <-];
    cbn [set_NameEvent set_Encrypted set_UpgradedRoomID set_CanonicalAlias];
    repeat case_match; cbn; repeat split; intros; done || congruence.
Qed.

(** X16: each field of the metadata is written by one kind of event only,
    and OnNewEvent panics in two cases only.  It panics exactly when the
    event is an m.space.child event that adds its state key and the
    child-space map it works on is nil, or the event is an m.room.member
    event that accepts an invite and the cache has no store.  Otherwise it
    leaves the store pointer and the entries of all other rooms as they
    are; in the entry of its room it never changes the room id or the
    typing event, it sets the timestamp to that of the event, and it
    changes the name only for m.room.name, the encryption flag only for
    m.room.encryption, the upgraded room only for m.room.tombstone, the
    alias only for m.room.canonical_alias, the room type and the
    predecessor only for m.room.create, the child spaces only for
    m.space.child, and the heroes and the two counts only for
    m.room.member. *)
Theorem OnNewEvent_writes (ed : EventData) (c : GlobalCache) :
  let m := metadata_of c (edRoomID ed) in
  match OnNewEvent ed c with
  | Panic msg =>
      (adds_child ed ∧ ChildSpaceRooms m = None ∧ msg = nil_map_write) ∨
      (accepts_invite ed ∧ has_store c = false ∧ msg = nil_dereference)
  | Done c' =>
      ¬ (adds_child ed ∧ ChildSpaceRooms m = None) ∧
      ¬ (accepts_invite ed ∧ has_store c = false) ∧
      has_store c' = has_store c ∧
      (∀ r, r ≠ edRoomID ed →
            roomIDToMetadata c' !! r = roomIDToMetadata c !! r) ∧
      ∃ m', roomIDToMetadata c' !! edRoomID ed = Some m' ∧
        RoomID m' = RoomID m ∧ TypingEvent m' = TypingEvent m ∧
        LastMessageTimestamp m' = Timestamp ed ∧
        (EventType ed ≠ "m.room.name" → NameEvent m' = NameEvent m) ∧
        (EventType ed ≠ "m.room.encryption" → Encrypted m' = Encrypted m) ∧
        (EventType ed ≠ "m.room.tombstone" →
           UpgradedRoomID m' = UpgradedRoomID m) ∧
        (EventType ed ≠ "m.room.canonical_alias" →
           CanonicalAlias m' = CanonicalAlias m) ∧
        (EventType ed ≠ "m.room.create" →
           RoomType m' = RoomType m ∧
           PredecessorRoomID m' = PredecessorRoomID m) ∧
        (EventType ed ≠ "m.space.child" →
           ChildSpaceRooms m' = ChildSpaceRooms m) ∧
        (EventType ed ≠ "m.room.member" →
           Heroes m' = Heroes m ∧ JoinCount m' = JoinCount m ∧
           InviteCount m' = InviteCount m)
  end.
Proof.
  cbn zeta. destruct (OnNewEvent ed c) as [c'|msg] eqn:Hev.
  2:{ apply OnNewEvent_Panic in Hev. by apply on_event_type_Panic. }
  destruct (OnNewEvent_inv ed c c' Hev) as (m1 & rm & Hsw & Hl & Hne & Hst & _).
  destruct (on_event_type_Done _ _ _ _ _ Hsw) as [Hn1 Hn2].
  split; [done|]. split; [done|]. split; [done|]. split; [done|].
  eexists. split; [exact Hl|].
  destruct (on_event_type_writes _ _ _ _ _ Hsw)
    as (? & ? & ? & ? & ? & ? & ? & ? & ? & ? & _).
  cbn. repeat split; intros; try done; naive_solver.
Qed.

End cache_more.

(** ** Runs of the listener functions *)
Section listener_runs.
Import Json Caches CacheOps.

Lemma OnEphemeralEvent_lookup (roomID : string) (ev : RawMessage)
    (c : GlobalCache) :
  roomIDToMetadata (OnEphemeralEvent roomID ev c) !! roomID =
    Some (if decide (Str (Get ["type"] (Some ev)) = "m.typing")
          then set_TypingEvent (Some ev) (metadata_of c roomID)
          else metadata_of c roomID).
Proof. unfold OnEphemeralEvent. simpl. by rewrite lookup_insert_eq. Qed.

Lemma OnEphemeralEvent_lookup_ne (roomID : string) (ev : RawMessage)
    (c : GlobalCache) (r : string) :
  r ≠ roomID →
  roomIDToMetadata (OnEphemeralEvent roomID ev c) !! r = roomIDToMetadata c !! r.
Proof. intros Hr. unfold OnEphemeralEvent. simpl. by rewrite lookup_insert_ne. Qed.

Lemma listen_all_app (calls1 calls2 : list listener_call) : ∀ c,
  listen_all (calls1 ++ calls2) c =
    obind (listen_all calls1 c) (listen_all calls2).
Proof.
  induction calls1 as [|call calls1 IH]; intros c; cbn [app listen_all];
    [done|].
  destruct (listen call c); cbn [obind]; [apply IH|done].
Qed.

(** One call never removes an entry. *)
Lemma listen_keeps_rooms (call : listener_call) (c c' : GlobalCache)
    (r : string) :
  listen call c = Done c' →
  roomIDToMetadata c' !! r = None → roomIDToMetadata c !! r = None.
Proof.
  destruct call as [ed|roomID ev]; cbn [listen].
  - intros Hev. destruct (OnNewEvent_inv ed c c' Hev)
      as (m1 & rm & _ & Hl & Hne & _).
    destruct (decide (r = edRoomID ed)) as [->|Hr].
    + by rewrite Hl.
    + by rewrite Hne.
  - intros [= <-]. destruct (decide (r = roomID)) as [->|Hne].
    + by rewrite OnEphemeralEvent_lookup.
    + by rewrite OnEphemeralEvent_lookup_ne.
Qed.

(** A property of entries that fresh entries have and both listener
    functions keep holds after every run. *)
Lemma listen_all_invariant (P : string → RoomMetadata → Prop) :
  (∀ st ed m m' rm,
     on_event_type st ed m = Done (m', rm) → P (edRoomID ed) m →
     P (edRoomID ed) (set_LastMessageTimestamp (Timestamp ed) m')) →
  (∀ r ev m, P r m → P r (set_TypingEvent (Some ev) m)) →
  ∀ calls c c',
    listen_all calls c = Done c' →
    (∀ r m, roomIDToMetadata c !! r = Some m → P r m) →
    (∀ r, roomIDToMetadata c !! r = None → P r (newRoomMetadata r)) →
    ∀ r m, roomIDToMetadata c' !! r = Some m → P r m.
Proof.
  intros Hev Hty calls.
  induction calls as [|call calls IH]; intros c c' Hrun Hinit Hfresh r m Hm;
    cbn [listen_all] in Hrun.
  - injection Hrun as <-. by apply Hinit.
  - destruct (listen call c) as [c1|] eqn:H1; cbn [obind] in Hrun; [|done].
    assert (Hof : ∀ r', P r' (metadata_of c r')).
    { intros r'. unfold metadata_of.
      destruct (roomIDToMetadata c !! r') eqn:Hr';
        [by apply Hinit|by apply Hfresh]. }
    eapply (IH c1 c' Hrun); [| |exact Hm].
    + intros r' m' Hm'. destruct call as [ed|roomID ev]; cbn [listen] in H1.
      * destruct (OnNewEvent_inv ed c c1 H1) as (m1 & rm & Hsw & Hl & Hne & _).
        destruct (decide (r' = edRoomID ed)) as [->|Hr'].
        -- rewrite Hl in Hm'. injection Hm' as <-.
           apply (Hev _ _ _ _ _ Hsw), Hof.
        -- rewrite Hne in Hm' by done. by apply Hinit.
      * injection H1 as <-. destruct (decide (r' = roomID)) as [->|Hne].
        -- rewrite OnEphemeralEvent_lookup in Hm'. injection Hm' as <-.
           case_decide; [apply Hty|]; apply Hof.
        -- rewrite OnEphemeralEvent_lookup_ne in Hm' by done. by apply Hinit.
    + intros r' Hr'. apply Hfresh. by eapply listen_keeps_rooms.
Qed.

Lemma listen_all_keeps_rooms (calls : list listener_call) : ∀ c c' r,
  listen_all calls c = Done c' →
  is_Some (roomIDToMetadata c !! r) → is_Some (roomIDToMetadata c' !! r).
Proof.
  induction calls as [|call calls IH]; intros c c' r Hrun Hr;
    cbn [listen_all] in Hrun.
  - by injection Hrun as <-.
  - destruct (listen call c) as [c1|] eqn:H1; cbn [obind] in Hrun; [|done].
    apply (IH c1 c' r Hrun).
    destruct (roomIDToMetadata c1 !! r) eqn:Hl; [eauto|].
    apply (listen_keeps_rooms call c c1 r H1) in Hl. rewrite Hl in Hr.
    by destruct Hr.
Qed.

(** A cache with a store and made maps: no call panics, and the cache stays
    so. *)
Lemma metadata_of_made (c : GlobalCache) (r : string) :
  maps_made c → is_Some (ChildSpaceRooms (metadata_of c r)).
Proof.
  intros Hm. unfold metadata_of.
  destruct (roomIDToMetadata c !! r) as [m|] eqn:Hr; [by eapply Hm|].
  cbn. eauto.
Qed.

Lemma listen_ready (call : listener_call) (c : GlobalCache) :
  ready c → ∃ c', listen call c = Done c' ∧ ready c'.
Proof.
  intros [Hst Hmade]. destruct call as [ed|roomID ev]; cbn [listen].
  - destruct (OnNewEvent ed c) as [c'|msg] eqn:Hev.
    + exists c'. split; [done|].
      destruct (OnNewEvent_inv ed c c' Hev)
        as (m1 & rm & Hsw & Hl & Hne & Hst' & _).
      split; [congruence|]. intros r m Hm.
      destruct (decide (r = edRoomID ed)) as [->|Hr].
      * rewrite Hl in Hm. injection Hm as <-. cbn.
        apply (on_event_type_writes _ _ _ _ _ Hsw).
        by apply metadata_of_made.
      * rewrite Hne in Hm by done. by eapply Hmade.
    + apply OnNewEvent_Panic, on_event_type_Panic in Hev.
      destruct Hev as [(_ & Hnil & _)|(_ & Hno & _)]; [|congruence].
      pose proof (metadata_of_made c (edRoomID ed) Hmade) as [? Hs].
      congruence.
  - eexists. split; [done|]. split; [done|]. intros r m Hm.
    destruct (decide (r = roomID)) as [->|Hne].
    + rewrite OnEphemeralEvent_lookup in Hm. injection Hm as <-.
      pose proof (metadata_of_made c roomID Hmade). by case_decide.
    + rewrite OnEphemeralEvent_lookup_ne in Hm by done. by eapply Hmade.
Qed.

Lemma listen_all_ready (calls : list listener_call) : ∀ c,
  ready c → ∃ c', listen_all calls c = Done c' ∧ ready c'.
Proof.
  induction calls as [|call calls IH]; intros c Hr; cbn [listen_all].
  - by exists c.
  - destruct (listen_ready call c Hr) as (c1 & -> & Hr1). cbn [obind].
    by apply IH.
Qed.

(** X17: the listener functions keep the cache keyed by room id and never
    drop a room.  On a cache with a store whose entries have made maps no
    run of OnNewEvent and OnEphemeralEvent calls panics.  If every entry is
    stored under its own room id, then after any run that does not panic
    every entry still is, the ones made on the way included, and every room
    that had an entry still has one. *)
Theorem listen_all_keyed (calls : list listener_call) (c : GlobalCache) :
  keyed c →
  (ready c → ∃ c', listen_all calls c = Done c') ∧
  ∀ c', listen_all calls c = Done c' →
    keyed c' ∧
    ∀ r, is_Some (roomIDToMetadata c !! r) →
         is_Some (roomIDToMetadata c' !! r).
Proof.
  intros Hk. split.
  { intros Hr. destruct (listen_all_ready calls c Hr) as (c' & ? & _). eauto. }
  intros c' Hrun. split; [|intros r; by apply (listen_all_keeps_rooms calls c)].
  intros r m Hm.
  apply (listen_all_invariant (λ r m, RoomID m = r)) with (calls := calls)
    (c := c) (c' := c'); try done.
  intros st ed m0 m1 rm Hsw Hm0. cbn.
  destruct (on_event_type_writes _ _ _ _ _ Hsw) as (-> & _). done.
Qed.

Lemma listen_all_keyed_witness :
  (ready (NewGlobalCache true) →
   ∃ c', listen_all [NewEvent ev_join; EphemeralEvent "!t:hs" JNull]
           (NewGlobalCache true) = Done c') ∧
  ∀ c', listen_all [NewEvent ev_join; EphemeralEvent "!t:hs" JNull]
          (NewGlobalCache true) = Done c' →
    keyed c' ∧
    ∀ r, is_Some (roomIDToMetadata (NewGlobalCache true) !! r) →
         is_Some (roomIDToMetadata c' !! r).
Proof.
  apply (listen_all_keyed [NewEvent ev_join; EphemeralEvent "!t:hs" JNull]
           (NewGlobalCache true)).
  intros r m Hm. simpl in Hm. rewrite lookup_empty in Hm. discriminate.
Defined.

(** X18: encryption is never switched off.  On a cache with a store whose
    entries have made maps no run panics; and in every run that does not
    panic, a room whose entry has the encryption flag set keeps it set,
    whatever the events are. *)
Theorem Encrypted_stays (calls : list listener_call) (c : GlobalCache)
    (r : string) (m : RoomMetadata) :
  roomIDToMetadata c !! r = Some m → Encrypted m = true →
  (ready c → ∃ c', listen_all calls c = Done c') ∧
  ∀ c', listen_all calls c = Done c' →
    ∃ m', roomIDToMetadata c' !! r = Some m' ∧ Encrypted m' = true.
Proof.
  intros Hm He. split.
  { intros Hr. destruct (listen_all_ready calls c Hr) as (c' & ? & _). eauto. }
  intros c' Hrun.
  destruct (listen_all_keeps_rooms calls c c' r Hrun) as [m' Hm']; [eauto|].
  exists m'. split; [done|].
  apply (listen_all_invariant (λ r' m', r' = r → Encrypted m' = true))
    with (calls := calls) (c := c) (c' := c') (r := r); try done.
  - intros st ed m0 m1 rm Hsw Hm0 Hr. cbn.
    apply (on_event_type_writes _ _ _ _ _ Hsw). by apply Hm0.
  - intros r' m0 Hr' ->. rewrite Hm in Hr'. by inversion Hr'; subst.
  - intros r' Hr' ->. rewrite Hm in Hr'. done.
Qed.

Lemma Encrypted_stays_witness :
  (ready (mkGlobalCache {[ "!r:hs" := room_encrypted ]} true []) →
   ∃ c', listen_all [NewEvent ev_join; NewEvent ev_leave]
           (mkGlobalCache {[ "!r:hs" := room_encrypted ]} true []) = Done c') ∧
  ∀ c', listen_all [NewEvent ev_join; NewEvent ev_leave]
          (mkGlobalCache {[ "!r:hs" := room_encrypted ]} true []) = Done c' →
    ∃ m', roomIDToMetadata c' !! "!r:hs" = Some m' ∧ Encrypted m' = true.
Proof.
  apply (Encrypted_stays [NewEvent ev_join; NewEvent ev_leave]
           (mkGlobalCache {[ "!r:hs" := room_encrypted ]} true [])
           "!r:hs" room_encrypted).
  - reflexivity.
  - reflexivity.
Defined.

Lemma latest_event_snoc (r : string) (calls : list listener_call)
    (call : listener_call) :
  latest_event r (calls ++ [call]) =
    match call with
    | NewEvent ed =>
        if decide (edRoomID ed = r) then Some ed else latest_event r calls
    | EphemeralEvent _ _ => latest_event r calls
    end.
Proof.
  unfold latest_event. rewrite filter_app.
  destruct call as [ed|roomID ev].
  - destruct (decide (edRoomID ed = r)) as [He|He].
    + rewrite filter_cons_True by done. rewrite filter_nil. by rewrite last_snoc.
    + rewrite filter_cons_False by done. rewrite filter_nil.
      by rewrite app_nil_r.
  - rewrite filter_cons_False by (simpl; tauto). rewrite filter_nil.
    by rewrite app_nil_r.
Qed.

Lemma listen_all_timestamp (r : string) (calls : list listener_call)
    (c : GlobalCache) : ∀ c',
  listen_all calls c = Done c' →
  timestamp_of c' r =
    match latest_event r calls with
    | Some ed => Timestamp ed
    | None => timestamp_of c r
    end.
Proof.
  induction calls as [|call calls IH] using rev_ind; intros c' Hrun.
  { by injection Hrun as <-. }
  rewrite listen_all_app in Hrun.
  destruct (listen_all calls c) as [c1|]; cbn [obind] in Hrun; [|done].
  cbn [listen_all] in Hrun.
  destruct (listen call c1) as [c2|] eqn:H2; cbn [obind] in Hrun; [|done].
  injection Hrun as <-. specialize (IH c1 eq_refl).
  rewrite latest_event_snoc. unfold timestamp_of at 1.
  destruct call as [ed|roomID ev]; cbn [listen] in H2.
  - destruct (OnNewEvent_inv ed c1 c2 H2) as (m1 & rm & _ & Hl & Hne & _).
    destruct (decide (edRoomID ed = r)) as [<-|Hr].
    + by rewrite Hl.
    + rewrite Hne by done. apply IH.
  - injection H2 as <-. destruct (decide (r = roomID)) as [->|Hne].
    + rewrite OnEphemeralEvent_lookup. rewrite <- IH.
      unfold timestamp_of, metadata_of.
      destruct (roomIDToMetadata c1 !! roomID); by case_decide.
    + rewrite OnEphemeralEvent_lookup_ne by done. apply IH.
Qed.

(** X19: the last message timestamp of a room is the timestamp of the event
    OnNewEvent processed last for the room, not the largest one seen.  On a
    cache with a store whose entries have made maps no run panics; and
    after any run that does not panic the timestamp is that of the latest
    event of the room in the run (an older event that comes late moves it
    back), and without such an event it is what it was, ephemeral events
    not changing it. *)
Theorem timestamp_is_latest (calls : list listener_call) (c : GlobalCache)
    (r : string) :
  (ready c → ∃ c', listen_all calls c = Done c') ∧
  ∀ c', listen_all calls c = Done c' →
    timestamp_of c' r =
      match latest_event r calls with
      | Some ed => Timestamp ed
      | None => timestamp_of c r
      end.
Proof.
  split.
  { intros Hr. destruct (listen_all_ready calls c Hr) as (c' & ? & _). eauto. }
  apply listen_all_timestamp.
Qed.

End listener_runs.

(** ** Heroes stay distinct *)
Section heroes_distinct.
Import Json Caches CacheOps.

Lemma heroes_after_change_NoDup (ed : EventData) (k : string)
    (m : RoomMetadata) :
  NoDup (hero_ids m) → NoDup (ID <$> heroes_after_change ed k m).
Proof.
  intros Hnd. unfold heroes_after_change. repeat case_match; try done.
  eapply sublist_NoDup; [exact Hnd|]. unfold hero_ids.
  apply fmap_sublist, sublist_filter.
Qed.

Lemma on_event_type_NoDup (st : bool) (ed : EventData) (m m' : RoomMetadata)
    (removed : list (string * string)) :
  on_event_type st ed m = Done (m', removed) →
  NoDup (hero_ids m) → NoDup (hero_ids m').
Proof.
  intros Hev Hnd. unfold hero_ids at 1.
  destruct (decide (EventType ed = "m.room.member")) as [Hty|Hty].
  2:{ by rewrite (on_event_type_other st ed m m' removed). }
  rewrite on_event_type_member in Hev by done.
  destruct (StateKey ed) as [k|] eqn:Hk.
  2:{ unfold on_member in Hev. rewrite Hk in Hev. by injection Hev as <- _. }
  rewrite (on_member_heroes st ed k m m' removed Hk Hev). cbn zeta.
  pose proof (heroes_after_change_NoDup ed k m Hnd) as Hnd'.
  case_bool_decide; [|done].
  destruct (rename_hero _ _ _) as [hs'|] eqn:Hr.
  - apply rename_hero_Some in Hr as [_ ->]. done.
  - apply rename_hero_None in Hr. rewrite fmap_app. apply NoDup_app.
    split; [done|]. split; [|apply NoDup_singleton].
    intros x Hx. simpl. rewrite list_elem_of_singleton. by intros ->.
Qed.

(** X20: no user becomes a hero of a room twice.  On a cache with a store
    whose entries have made maps no run panics; and if the hero ids of
    every room are pairwise distinct, they still are after any run of
    OnNewEvent and OnEphemeralEvent calls that does not panic: a join or
    invite of a user who is a hero already renames the entry instead of
    adding one. *)
Theorem heroes_stay_distinct (calls : list listener_call) (c : GlobalCache) :
  heroes_distinct c →
  (ready c → ∃ c', listen_all calls c = Done c') ∧
  ∀ c', listen_all calls c = Done c' → heroes_distinct c'.
Proof.
  intros Hd. split.
  { intros Hr. destruct (listen_all_ready calls c Hr) as (c' & ? & _). eauto. }
  intros c' Hrun r m Hm.
  apply (listen_all_invariant (λ _ m, NoDup (hero_ids m)))
    with (calls := calls) (c := c) (c' := c') (r := r); try done.
  - intros st ed m0 m1 rm Hsw Hm0. by apply (on_event_type_NoDup st ed m0 m1 rm).
  - intros r' Hr'. constructor.
Qed.

Lemma heroes_stay_distinct_witness :
  (ready (NewGlobalCache true) →
   ∃ c', listen_all [NewEvent ev_join; NewEvent ev_join] (NewGlobalCache true)
           = Done c') ∧
  ∀ c', listen_all [NewEvent ev_join; NewEvent ev_join] (NewGlobalCache true)
          = Done c' → heroes_distinct c'.
Proof.
  apply (heroes_stay_distinct [NewEvent ev_join; NewEvent ev_join]
           (NewGlobalCache true)).
  intros r m Hm. simpl in Hm. rewrite lookup_empty in Hm. discriminate.
Defined.

Example join_twice_one_hero :
  ∃ c, listen_all [NewEvent ev_join; NewEvent ev_join] (NewGlobalCache true)
         = Done c ∧
       heroes_of c "!r:hs" = ["@x:hs"].
Proof. eexists. split; reflexivity. Qed.

End heroes_distinct.

(** ** HasData and live account data *)
Section live.
Import Json Extensions Live.

Lemma group_by_room_empty_iff (rows : list AccountData) :
  group_by_room rows = ∅ ↔ rows = [].
Proof.
  split; [|by intros ->].
  destruct rows as [|ad rows _] using rev_ind; [done|].
  rewrite group_by_room_snoc. unfold append_room. intros H.
  apply (f_equal (λ m, m !! adRoomID ad)) in H.
  rewrite lookup_insert_eq, lookup_empty in H. done.
Qed.

(** The response to a request that is not initial. *)
Lemma ProcessAccountData_not_initial (store : Storage)
    (roomIDToTimeline : gmap string (list string)) (userID : string)
    (req : AccountDataRequest) :
  (ProcessAccountData store roomIDToTimeline userID false req).1 =
    {| Global := None;
       Rooms :=
         if decide (roomIDToTimeline = ∅) then None
         else
           match (AccountDatas store userID (map_to_list roomIDToTimeline).*1).2 with
           | Some _ => None
           | None =>
               Some (group_by_room
                       (AccountDatas store userID
                          (map_to_list roomIDToTimeline).*1).1)
           end |}.
Proof.
  unfold ProcessAccountData.
  set (roomIDs := (map_to_list roomIDToTimeline).*1).
  destruct (decide (roomIDToTimeline = ∅)) as [Hempty|Hne].
  - assert (Hnil : roomIDs = []) by (by apply keys_nil_iff).
    rewrite Hnil. by rewrite bool_decide_eq_false_2 by (simpl; lia).
  - assert (Hlen : 0 < length roomIDs).
    { destruct roomIDs eqn:Hr; [|simpl; lia].
      exfalso. apply Hne. by apply keys_nil_iff. }
    rewrite (bool_decide_eq_true_2 (0 < length roomIDs)) by done.
    by destruct (AccountDatas store userID roomIDs) as [rows [e|]].
Qed.

(** X21: on a request that is not initial, the response of
    ProcessAccountData has data (HasData) exactly when the map of rooms is
    not empty, the fetch of room account data succeeded and gave at least
    one row; on an initial request it always has. *)
Theorem ProcessAccountData_HasData (store : Storage)
    (roomIDToTimeline : gmap string (list string)) (userID : string)
    (isInitial : bool) (req : AccountDataRequest) :
  let res := (ProcessAccountData store roomIDToTimeline userID isInitial req).1 in
  let fetched := AccountDatas store userID (map_to_list roomIDToTimeline).*1 in
  HasData res isInitial = true ↔
    isInitial = true ∨
    (roomIDToTimeline ≠ ∅ ∧ fetched.2 = None ∧ fetched.1 ≠ []).
Proof.
  cbn zeta. destruct isInitial; [simpl; tauto|].
  rewrite ProcessAccountData_not_initial. unfold HasData.
  rewrite bool_decide_eq_true. cbn [Global Rooms len_slice].
  destruct (decide (roomIDToTimeline = ∅)) as [Hempty|Hne].
  - cbn [len_map]. split; [lia|]. intros [?|[? _]]; done.
  - destruct (AccountDatas store userID _) as [rows [e|]]; cbn [fst snd len_map].
    + split; [lia|]. intros [?|(_ & ? & _)]; done.
    + split.
      * intros [Hsz|Hsz]; [|lia]. right. split; [done|]. split; [done|].
        intros ->. cbn in Hsz. rewrite map_size_empty in Hsz. lia.
      * intros [?|(_ & _ & Hrows)]; [done|]. left.
        destruct (decide (size (group_by_room rows) = 0)) as [Hz|Hz]; [|lia].
        apply map_size_empty_iff in Hz.
        by apply group_by_room_empty_iff in Hz.
Qed.

(** X22: a live response speaks of one thing only.  ProcessLiveAccountData
    answers an account data update with global data and no rooms, and a
    room account data update, or a room update that returns a response
    when the store's fetch succeeds, with the one room of the update and no
    global data; it answers nothing otherwise.  A response with a room has
    data (HasData) even when the room has no account data at all. *)
Theorem ProcessLiveAccountData_one_room (up : Update) (store : Storage)
    (updateWillReturnResponse : bool) (userID : string)
    (req : AccountDataRequest) :
  match ProcessLiveAccountData up store updateWillReturnResponse userID req with
  | Some res =>
      match up with
      | AccountDataUpdate ads =>
          Rooms res = None ∧ Global res = Some (Data <$> ads) ∧
          (HasData res false = true ↔ ads ≠ [])
      | RoomAccountDataUpdate roomID ads =>
          Global res = None ∧ Rooms res = Some {[ roomID := Data <$> ads ]} ∧
          HasData res false = true
      | RoomUpdate roomID =>
          updateWillReturnResponse = true ∧
          (AccountDatas store userID [roomID]).2 = None ∧
          Global res = None ∧
          Rooms res =
            Some {[ roomID := Data <$> (AccountDatas store userID [roomID]).1 ]} ∧
          HasData res false = true
      | OtherUpdate => False
      end
  | None =>
      match up with
      | RoomUpdate roomID =>
          updateWillReturnResponse = false ∨
          (AccountDatas store userID [roomID]).2 ≠ None
      | OtherUpdate => True
      | _ => False
      end
  end.
Proof.
  destruct up as [ads|roomID ads|roomID|]; simpl; try done.
  - split; [done|]. split; [done|]. unfold HasData. simpl.
    rewrite bool_decide_eq_true. unfold accountEventsAsJSON.
    rewrite length_fmap. destruct ads; simpl.
    + split; [lia|done].
    + split; [done|]. intros _. right. lia.
  - split; [done|]. split; [done|]. unfold HasData. simpl.
    rewrite bool_decide_eq_true. left. rewrite map_size_singleton. lia.
  - destruct updateWillReturnResponse; [|by left].
    destruct (AccountDatas store userID [roomID]) as [rows [e|]]; simpl.
    + by right.
    + repeat split; try done. unfold HasData. simpl.
      rewrite bool_decide_eq_true. left. rewrite map_size_singleton. lia.
Qed.

End live.

(** ** Responses that were unmarshalled *)
Section response_more.
Import Json Sync3 Samples.

Lemma int64_ok_0 : int64_ok 0 = true.
Proof. reflexivity. Qed.

Lemma unmarshal_int_ok (cur : Z) (v : json) (n : Z) :
  int64_ok cur = true → unmarshal_int cur v = inr n → int64_ok n = true.
Proof.
  intros Hcur. destruct v; simpl; try done.
  - by intros [= <-].
  - destruct (int64_ok n0) eqn:Hn; [|done]. by intros [= <-].
Qed.

Lemma unmarshal_range_ok (cur : Z * Z) (v : json) (r : Z * Z) :
  int64_ok cur.1 = true → int64_ok cur.2 = true →
  unmarshal_range cur v = inr r →
  int64_ok r.1 = true ∧ int64_ok r.2 = true.
Proof.
  intros H1 H2. destruct v as [| | | | |xs|]; simpl; try done.
  - by intros [= <-].
  - destruct xs as [|a [|b xs]]; simpl.
    + by intros [= <-].
    + destruct (unmarshal_int cur.1 a) as [e|x] eqn:Ha; simpl; [done|].
      intros [= <-]. simpl. split; [exact (unmarshal_int_ok _ _ _ H1 Ha)|done].
    + destruct (unmarshal_int cur.1 a) as [e|x] eqn:Ha; simpl; [done|].
      destruct (unmarshal_int cur.2 b) as [e|y] eqn:Hb; simpl; [done|].
      intros [= <-]. simpl.
      split; [exact (unmarshal_int_ok _ _ _ H1 Ha)
             |exact (unmarshal_int_ok _ _ _ H2 Hb)].
Qed.

(** A property the fields keep is kept by the whole struct. *)
Lemma unmarshal_struct_keeps {A} (field : string → json → A → decoded A)
    (P : A → Prop) :
  (∀ k v a b, P a → field k v a = inr b → P b) →
  ∀ cur v b, P cur → unmarshal_struct field cur v = inr b → P b.
Proof.
  intros Hfield cur v b Hcur. destruct v as [| | | | | |ms]; simpl; try done.
  { by intros [= <-]. }
  revert cur Hcur. induction ms as [|[k x] ms IH]; intros cur Hcur; simpl.
  - by intros [= <-].
  - destruct (field k x cur) as [e|a] eqn:Hf.
    + assert (Hinl : ∀ l, foldl (λ acc '(k0, x0), dbind acc (field k0 x0))
                            (inl e) l = inl e).
      { induction l as [|[??] l IHl]; [done|]. simpl. apply IHl. }
      by rewrite Hinl.
    + apply IH. by eapply Hfield.
Qed.

Lemma Unmarshal_ResponseOpRange_fits (op : RawMessage) (o : ResponseOpRange) :
  Unmarshal_ResponseOpRange op = inr o → op_fits (OpRange o).
Proof.
  apply (unmarshal_struct_keeps ResponseOpRange_field
           (λ o, op_fits (OpRange o))); [|done].
  intros k v a b [H1 H2]. unfold ResponseOpRange_field.
  destruct (names "op" k).
  { destruct (unmarshal_string _ _); simpl; [done|]. by intros [= <-]. }
  destruct (names "range" k).
  { destruct (unmarshal_range _ _) as [e|r] eqn:Hr; simpl; [done|].
    intros [= <-]. simpl. exact (unmarshal_range_ok _ _ _ H1 H2 Hr). }
  destruct (names "room_ids" k).
  { destruct (unmarshal_string_slice _ _); simpl; [done|]. by intros [= <-]. }
  by intros [= <-].
Qed.

Lemma Unmarshal_ResponseOpSingle_fits (op : RawMessage) (o : ResponseOpSingle) :
  Unmarshal_ResponseOpSingle op = inr o → op_fits (OpSingle o).
Proof.
  apply (unmarshal_struct_keeps ResponseOpSingle_field
           (λ o, op_fits (OpSingle o))); [|done].
  intros k v a b Ha. unfold ResponseOpSingle_field.
  destruct (names "op" k).
  { destruct (unmarshal_string _ _); simpl; [done|]. by intros [= <-]. }
  destruct (names "index" k).
  { destruct (unmarshal_int_ptr _ _) as [e|x] eqn:Hx; simpl; [done|].
    intros [= <-]. simpl. intros i ->.
    unfold unmarshal_int_ptr in Hx.
    assert (Hcur : int64_ok (default 0%Z (Index a)) = true).
    { destruct (Index a) as [j|] eqn:Hj; [by apply Ha|done]. }
    destruct v; simpl in Hx; try done.
    destruct (int64_ok n) eqn:Hn; simpl in Hx; [|done]. by inversion Hx; subst. }
  destruct (names "room_id" k).
  { destruct (unmarshal_string _ _); simpl; [done|]. by intros [= <-]. }
  by intros [= <-].
Qed.

Lemma unmarshal_ops_fit (ops : list RawMessage) : ∀ os,
  unmarshal_ops ops = inr os → Forall op_fits os.
Proof.
  induction ops as [|op ops IH]; intros os H; simpl in H.
  - inversion H. constructor.
  - destruct (unmarshal_op op) as [e|o] eqn:Ho; simpl in H; [done|].
    destruct (unmarshal_ops ops) as [e|os'] eqn:Hos; simpl in H; [done|].
    inversion H; subst. constructor; [|by apply IH].
    unfold unmarshal_op in Ho. destruct (Exists _).
    + destruct (Unmarshal_ResponseOpRange op) as [e|r] eqn:Hr; simpl in Ho;
        [done|]. inversion Ho; subst. by eapply Unmarshal_ResponseOpRange_fits.
    + destruct (Unmarshal_ResponseOpSingle op) as [e|r] eqn:Hr; simpl in Ho;
        [done|]. inversion Ho; subst. by eapply Unmarshal_ResponseOpSingle_fits.
Qed.

Lemma unmarshal_temporary_list_count (v : json) (l : temporary_list) :
  unmarshal_temporary_list v = inr l → int64_ok (tCount l) = true.
Proof.
  apply (unmarshal_struct_keeps temporary_list_field
           (λ l, int64_ok (tCount l) = true)); [|done].
  intros k x a b Ha. unfold temporary_list_field.
  destruct (names "ops" k).
  { destruct x; try done; by intros [= <-]. }
  destruct (names "count" k).
  { destruct (unmarshal_int _ _) as [e|n] eqn:Hn; simpl; [done|].
    intros [= <-]. simpl. exact (unmarshal_int_ok _ _ _ Ha Hn). }
  by intros [= <-].
Qed.

(** A property of the values decoded holds of the map filled with them. *)
Lemma foldl_insert_decoded_keeps {A B} (dec : A → decoded B) (Q : B → Prop)
    (ps : list (string * A)) :
  (∀ k a b, (k, a) ∈ ps → dec a = inr b → Q b) →
  ∀ m0 m, map_Forall (λ _, Q) m0 →
    foldl (insert_decoded dec) (inr m0) ps = inr m → map_Forall (λ _, Q) m.
Proof.
  induction ps as [|[k a] ps IH]; intros Hdec m0 m Hm0 H.
  - by inversion H; subst.
  - cbn [foldl] in H. unfold insert_decoded at 2 in H. cbn [dbind fst snd] in H.
    destruct (dec a) as [e|b] eqn:Ha; cbn [dbind] in H.
    { by rewrite foldl_insert_decoded_inl in H. }
    eapply IH; [| |exact H].
    + intros k' a' b' Hin. apply (Hdec k' a' b'). by right.
    + apply map_Forall_insert_2; [|done]. apply (Hdec k a b); [left|done].
Qed.

Lemma Unmarshal_temporary_counts (b : json) (t : temporary) :
  Unmarshal_temporary b = inr t →
  map_Forall (λ _ l, int64_ok (tCount l) = true) (tLists t).
Proof.
  apply (unmarshal_struct_keeps temporary_field
           (λ t, map_Forall (λ _ l, int64_ok (tCount l) = true) (tLists t)));
    [|apply map_Forall_empty].
  intros k v a t' Ha. unfold temporary_field.
  destruct (names "rooms" k); [by intros [= <-]|].
  destruct (names "lists" k).
  { destruct (unmarshal_lists (tLists a) v) as [e|m] eqn:Hm; simpl; [done|].
    intros [= <-]. simpl. unfold unmarshal_lists in Hm.
    destruct v as [| | | | | |ms]; try done.
    - inversion Hm; subst. apply map_Forall_empty.
    - eapply (foldl_insert_decoded_keeps unmarshal_temporary_list
                (λ l, int64_ok (tCount l) = true)); [|exact Ha|exact Hm].
      intros ? ? ? _. apply unmarshal_temporary_list_count. }
  destruct (names "extensions" k); [by intros [= <-]|].
  destruct (names "pos" k).
  { destruct (unmarshal_string _ _); simpl; [done|]. by intros [= <-]. }
  destruct (names "txn_id" k).
  { destruct (unmarshal_string _ _); simpl; [done|]. by intros [= <-]. }
  by intros [= <-].
Qed.

Lemma UnmarshalJSON_fits (b : json) (r : Response) :
  UnmarshalJSON b = inr r → response_fits r.
Proof.
  unfold UnmarshalJSON.
  destruct (Unmarshal_temporary b) as [e|t] eqn:Ht; cbn [dbind]; [done|].
  destruct (unmarshal_all_lists (tLists t)) as [e|lists] eqn:Hall;
    cbn [dbind]; [done|].
  intros [= <-]. intros k l Hl. cbn [Lists] in Hl.
  pose proof (Unmarshal_temporary_counts b t Ht) as Hcounts.
  unfold unmarshal_all_lists in Hall.
  eapply (foldl_insert_decoded_keeps unmarshal_list list_fits
            (map_to_list (tLists t)) _ ∅ lists (map_Forall_empty _) Hall k l Hl).
  Unshelve.
  intros k' tl l' Hin Hdec. apply elem_of_map_to_list in Hin.
  unfold unmarshal_list in Hdec.
  destruct (unmarshal_ops (tOps tl)) as [e|ops] eqn:Hops; cbn [dbind] in Hdec;
    [done|].
  inversion Hdec; subst. split.
  - cbn [Count]. by apply (Hcounts k' tl).
  - cbn [Ops]. by eapply unmarshal_ops_fit.
Qed.

(** X23: what UnmarshalJSON returns is stable under marshalling.  Whatever
    JSON a response was unmarshalled from (members in any order or letter
    case, unknown members, nulls), marshalling the response and
    unmarshalling the result gives the same response again. *)
Theorem UnmarshalJSON_stable (b : json) (r : Response) :
  UnmarshalJSON b = inr r → UnmarshalJSON (Marshal_Response r) = inr r.
Proof.
  intros Hb. apply UnmarshalJSON_Marshal. by eapply UnmarshalJSON_fits.
Qed.

Lemma UnmarshalJSON_stable_witness :
  UnmarshalJSON
    (Marshal_Response
       {| Lists := {[ "a" := mkResponseList
                       [ OpSingle (mkResponseOpSingle "INSERT" (Some 0%Z) "!a:hs");
                         OpSingle zeroResponseOpSingle ] 3 ]};
          Rooms := JNull; Extensions := JNull; Pos := "7"; TxnID := "" |})
  = inr {| Lists := {[ "a" := mkResponseList
                       [ OpSingle (mkResponseOpSingle "INSERT" (Some 0%Z) "!a:hs");
                         OpSingle zeroResponseOpSingle ] 3 ]};
           Rooms := JNull; Extensions := JNull; Pos := "7"; TxnID := "" |}.
Proof.
  apply (UnmarshalJSON_stable messy_response). vm_compute. reflexivity.
Defined.

End response_more.

(** ** LoadRoomState *)
Section room_state.
Import Json RoomState.
Context {Q : Type}.
Variable rsm : RequiredStateMap Q.
Variable users : gmap string (list string).

(** The events LoadRoomState builds for stateNIDs. *)
Let nid_of (roomID : string) (ev : Event) : Event :=
  {| NID := NID ev; Type_ := Type_ ev; StateKey := StateKey ev;
     RoomID := roomID; JSON := None |}.

Let nids_of (roomID : string) (events : list Event) : list Event :=
  flat_map (λ ev, replicate
                    (copies rsm (default [] (users !! roomID)) ev)
                    (nid_of roomID ev))
           events.

Lemma lazy_loop_eq (roomID : string) (ev : Event) (us : list string) :
  ∀ st,
    lazy_loop roomID ev us st =
      (st.1 ++ replicate (length (filter (λ u, StateKey ev = u) us)) (JSON ev),
       st.2 ++ replicate (length (filter (λ u, StateKey ev = u) us))
                 (nid_of roomID ev)).
Proof.
  induction us as [|u us IH]; intros [res nids].
  - simpl. by rewrite !app_nil_r.
  - change (lazy_loop roomID ev (u :: us) (res, nids))
      with (lazy_loop roomID ev us
              (if decide (StateKey ev = u)
               then take_event roomID ev (res, nids) else (res, nids))).
    rewrite IH. destruct (decide (StateKey ev = u)) as [Hu|Hu].
    + rewrite filter_cons_True by done. unfold take_event.
      cbn [fst snd length replicate]. by rewrite <- !app_assoc.
    + by rewrite filter_cons_False by done.
Qed.

Lemma event_step_eq (roomID : string) (st : loop_state) (ev : Event) :
  event_step rsm users roomID st ev =
    (st.1 ++ replicate (copies rsm (default [] (users !! roomID)) ev) (JSON ev),
     st.2 ++ replicate (copies rsm (default [] (users !! roomID)) ev)
               (nid_of roomID ev)).
Proof.
  unfold event_step, copies. destruct (Include rsm _ _).
  - done.
  - destruct (IsLazyLoading rsm).
    + apply lazy_loop_eq.
    + simpl. rewrite !app_nil_r. by destruct st.
Qed.

Lemma events_loop_eq (roomID : string) (events : list Event) :
  ∀ st,
    foldl (event_step rsm users roomID) st events =
      (st.1 ++ room_result rsm users roomID events,
       st.2 ++ nids_of roomID events).
Proof.
  induction events as [|ev events IH]; intros st.
  - simpl. rewrite !app_nil_r. by destruct st.
  - cbn [foldl]. rewrite IH, event_step_eq. cbn [fst snd].
    unfold room_result, nids_of. cbn [flat_map]. by rewrite <- !app_assoc.
Qed.

Lemma room_step_eq (acc : gmap string (list (option RawMessage)) * list Event)
    (roomID : string) (events : list Event) :
  room_step rsm users acc (roomID, events) =
    (<[roomID := room_result rsm users roomID events]> acc.1,
     acc.2 ++ nids_of roomID events).
Proof. unfold room_step. cbn [fst snd]. by rewrite events_loop_eq. Qed.

Lemma nids_of_length (roomID : string) (events : list Event) :
  length (nids_of roomID events) =
    length (room_result rsm users roomID events).
Proof.
  unfold nids_of, room_result. induction events as [|ev events IH]; [done|].
  cbn [flat_map]. by rewrite !length_app, !length_replicate, IH.
Qed.

Lemma nids_of_room (roomID r : string) (events : list Event) :
  filter (λ e, RoomID e = r) (nids_of roomID events) =
    if decide (roomID = r) then nids_of roomID events else [].
Proof.
  unfold nids_of. induction events as [|ev events IH].
  - by case_decide.
  - cbn [flat_map]. rewrite filter_app, IH.
    assert (Hrep : ∀ n,
      filter (λ e, RoomID e = r) (replicate n (nid_of roomID ev)) =
        if decide (roomID = r) then replicate n (nid_of roomID ev) else []).
    { induction n as [|n IHn]; [by case_decide|]. cbn [replicate].
      destruct (decide (roomID = r)) as [Hr|Hr].
      - rewrite filter_cons_True by done. by rewrite IHn.
      - rewrite filter_cons_False by done. by rewrite IHn. }
    rewrite Hrep. by case_decide.
Qed.

(** The loop over the rooms. *)
Lemma rooms_loop_absent (ps : list (string * list Event)) (r : string) :
  r ∉ ps.*1 →
  ∀ acc,
    (foldl (room_step rsm users) acc ps).1 !! r = acc.1 !! r ∧
    filter (λ e, RoomID e = r) (foldl (room_step rsm users) acc ps).2 =
      filter (λ e, RoomID e = r) acc.2.
Proof.
  induction ps as [|[k evs] ps IH]; intros Hr acc; [done|].
  rewrite fmap_cons, not_elem_of_cons in Hr. destruct Hr as [Hne Hr].
  cbn [foldl]. destruct (IH Hr (room_step rsm users acc (k, evs))) as [-> ->].
  rewrite room_step_eq. cbn [fst snd] in *.
  rewrite lookup_insert_ne by done. split; [done|].
  rewrite filter_app, nids_of_room, decide_False by done. apply app_nil_r.
Qed.

Lemma rooms_loop_present (ps : list (string * list Event)) (r : string)
    (evs : list Event) :
  NoDup ps.*1 → (r, evs) ∈ ps →
  ∀ acc,
    (foldl (room_step rsm users) acc ps).1 !! r =
      Some (room_result rsm users r evs) ∧
    filter (λ e, RoomID e = r) (foldl (room_step rsm users) acc ps).2 =
      filter (λ e, RoomID e = r) acc.2 ++ nids_of r evs.
Proof.
  induction ps as [|[k es] ps IH]; intros Hnd Hin acc.
  - by apply elem_of_nil in Hin.
  - rewrite fmap_cons in Hnd. apply NoDup_cons in Hnd as [Hk Hnd].
    cbn [foldl]. apply elem_of_cons in Hin as [[= <- <-]|Hin].
    + destruct (rooms_loop_absent ps r Hk (room_step rsm users acc (r, evs)))
        as [-> ->].
      rewrite room_step_eq. cbn [fst snd].
      rewrite lookup_insert_eq. split; [done|].
      by rewrite filter_app, nids_of_room, decide_True.
    + destruct (IH Hnd Hin (room_step rsm users acc (k, es))) as [-> ->].
      split; [done|]. rewrite room_step_eq. cbn [snd].
      assert (Hne : k ≠ r).
      { intros ->. apply Hk. apply list_elem_of_fmap. by exists (r, evs). }
      rewrite filter_app, nids_of_room, decide_False by done.
      by rewrite app_nil_r.
Qed.

(** X24: LoadRoomState returns nothing (nil, nil) when there is no store,
    when the required state is empty or when the store fails.  Otherwise
    the result has an entry for exactly the rooms the store returned; the
    entry of a room holds, in the store's order, the JSON of each event the
    required state includes once and, under lazy loading, the JSON of any
    other event once for each time its state key is listed among the users
    of the room's timeline (twice for a user listed twice); and stateNIDs
    has, for every room, as many events of that room as the room's entry
    has messages. *)
Theorem LoadRoomState_in_step (store : option (RoomStateAfterEventPosition Q))
    (roomIDs : list string) (loadPosition : Z) :
  match LoadRoomState store roomIDs loadPosition rsm users with
  | (None, stateNIDs) =>
      stateNIDs = [] ∧
      (store = None ∨ Empty rsm = true ∨
       ∃ f, store = Some f ∧
            (f roomIDs loadPosition (QueryStateMap rsm)).2 ≠ None)
  | (Some resultMap, stateNIDs) =>
      ∃ f, store = Some f ∧ Empty rsm = false ∧
        (f roomIDs loadPosition (QueryStateMap rsm)).2 = None ∧
        (∀ r, resultMap !! r =
              room_result rsm users r <$>
                (f roomIDs loadPosition (QueryStateMap rsm)).1 !! r) ∧
        (∀ r, length (filter (λ e, RoomID e = r) stateNIDs) =
              length (default [] (resultMap !! r)))
  end.
Proof.
  unfold LoadRoomState. destruct store as [f|]; [|by auto].
  destruct (Empty rsm) eqn:He; [by auto|].
  destruct (f roomIDs loadPosition (QueryStateMap rsm)) as [events [e|]] eqn:Hf.
  { split; [done|]. right. right. exists f. by rewrite Hf. }
  destruct (foldl _ _ _) as [resultMap stateNIDs] eqn:Hloop.
  exists f. rewrite Hf. cbn [fst snd].
  split; [done|]. split; [done|]. split; [done|].
  assert (Hr : ∀ r,
    resultMap !! r = room_result rsm users r <$> events !! r ∧
    length (filter (λ e, RoomID e = r) stateNIDs) =
      length (default [] (room_result rsm users r <$> events !! r))).
  { intros r. destruct (events !! r) as [evs|] eqn:Hr.
    - destruct (rooms_loop_present (map_to_list events) r evs
                  (NoDup_fst_map_to_list _)
                  (proj2 (elem_of_map_to_list _ _ _) Hr) (∅, [])) as [H1 H2].
      rewrite Hloop in H1, H2. cbn [fst snd] in H1, H2.
      split; [done|]. rewrite H2. cbn. apply nids_of_length.
    - destruct (rooms_loop_absent (map_to_list events) r) with (acc :=
        (∅ : gmap string (list (option RawMessage)), @nil Event)) as [H1 H2].
      { rewrite list_elem_of_fmap. intros ([k evs] & -> & Hin).
        apply elem_of_map_to_list in Hin. cbn [fst] in Hr. congruence. }
      rewrite Hloop in H1, H2. cbn [fst snd] in H1, H2.
      rewrite lookup_empty in H1. split; [done|]. by rewrite H2. }
  split; intros r; destruct (Hr r) as [H1 H2]; [done|].
  by rewrite H1.
Qed.

End room_state.

Example LoadRoomState_user_listed_twice :
  RoomState.LoadRoomState (Some RoomState.one_member_store) ["!r:hs"] 9
    RoomState.lazy_members {[ "!r:hs" := ["@x:hs"; "@y:hs"; "@x:hs"] ]}
  = (Some {[ "!r:hs" := [ Some (Json.JObj [("type", Json.JStr "m.room.member")]);
                          Some (Json.JObj [("type", Json.JStr "m.room.member")]) ] ]},
     [ RoomState.mkEvent 5 "m.room.member" "@x:hs" "!r:hs" None;
       RoomState.mkEvent 5 "m.room.member" "@x:hs" "!r:hs" None ]).
Proof. vm_compute. reflexivity. Qed.
